(** * mkvauto: title selection, scan parser, encode queue and worker

    A shallow embedding of the Go sources

      - [internal/disk/types.go]      (SanitizeFilename)
      - [internal/makemkv/parser.go]  (ParseInfo, CalculatePercentage,
                                       SelectTitles, findLongestTitle)
      - [internal/encode/state.go]    (StatePersistence.Save / Load)
      - [internal/encode/queue.go]    (the Queue operations)
      - [internal/encode/worker.go]   (handleControl, encodeItem)
      - [internal/encode/handbrake.go] (the output reader; Pause, Resume,
                                       Cancel)
      - [internal/makemkv/client.go]  (ScanDisc)
      - [internal/disk/detector.go]   (Start)
      - [internal/ui]                 (Update, handleKeyPress)
      - [internal/app/app.go]         (processDisc's manual selection,
                                       scanForMissingEncodes, formatSize)

    Go strings are byte sequences and are modelled by [string] (a list of
    8-bit characters).  [int] (taken to be 64 bits wide), [int64] and
    [time.Duration] are modelled by [Z]; where the source does arithmetic on
    them the 64-bit wrap-around is written out.  [float64] is modelled by
    [spec_float] at precision 53, i.e. IEEE 754 binary64 with
    round-to-nearest-even.  What the operating system, the clock, Go's map
    iteration and [encoding/json] decide is an explicit input of the
    functions that depend on it. *)

From Stdlib Require Import ZArith Ascii String SpecFloat Lia.
From Stdlib Require DecimalString DecimalPos DecimalN.
From stdpp Require Import base list strings gmap sorting.

Local Open Scope Z_scope.

(** ** The parts of Go's [strings] and [strconv] packages that the sources call *)

Module GoStrings.

(** [len(s)] *)
Definition len (s : string) : Z := Z.of_nat (String.length s).

(** [strings.HasPrefix(s, prefix)] *)
Fixpoint HasPrefix (s prefix : string) : bool :=
  match prefix, s with
  | EmptyString, _ => true
  | String _ _, EmptyString => false
  | String p prefix', String c s' =>
      if Ascii.eqb c p then HasPrefix s' prefix' else false
  end.

(** [strings.Contains(s, substr)] *)
Fixpoint Contains (s substr : string) : bool :=
  HasPrefix s substr ||
  match s with
  | EmptyString => false
  | String _ s' => Contains s' substr
  end.

(** [strings.IndexByte(s, c)]; [-1] when [c] does not occur. *)
Fixpoint IndexByte (s : string) (c : ascii) : Z :=
  match s with
  | EmptyString => -1
  | String a s' =>
      if Ascii.eqb a c then 0
      else let i := IndexByte s' c in if i <? 0 then -1 else 1 + i
  end.

(** [strings.LastIndexByte(s, c)]; [-1] when [c] does not occur. *)
Fixpoint LastIndexByte (s : string) (c : ascii) : Z :=
  match s with
  | EmptyString => -1
  | String a s' =>
      let i := LastIndexByte s' c in
      if 0 <=? i then 1 + i else if Ascii.eqb a c then 0 else -1
  end.

(** The slice expression [s[lo:hi]] for [0 <= lo <= hi <= len(s)]. *)
Definition slice (s : string) (lo hi : Z) : string :=
  String.substring (Z.to_nat lo) (Z.to_nat (hi - lo)) s.

(** The slice expression [s[lo:]]. *)
Fixpoint drop (n : nat) (s : string) : string :=
  match n, s with
  | O, _ => s
  | S _, EmptyString => EmptyString
  | S n', String _ s' => drop n' s'
  end.

(** [strings.Split(s, sep)] for a one-byte separator: the pieces between
    the occurrences of [sep]; always at least one piece. *)
Fixpoint Split (s : string) (sep : ascii) : list string :=
  match s with
  | EmptyString => [EmptyString]
  | String c s' =>
      if Ascii.eqb c sep then EmptyString :: Split s' sep
      else match Split s' sep with
           | [] => [String c EmptyString]
           | p :: ps => String c p :: ps
           end
  end.

(** [strings.SplitN(s, sep, n)] for a one-byte separator and [n > 0]:
    at most [n] pieces, the last one being the unsplit remainder. *)
Fixpoint SplitN (s : string) (sep : ascii) (n : nat) : list string :=
  match n with
  | O => []
  | S O => [s]
  | S n' =>
      (fix go (s : string) : list string :=
         match s with
         | EmptyString => [EmptyString]
         | String c s' =>
             if Ascii.eqb c sep then EmptyString :: SplitN s' sep n'
             else match go s' with
                  | [] => [String c EmptyString]
                  | p :: ps => String c p :: ps
                  end
         end) s
  end.

(** Byte-wise trimming.  [TrimLeftBy f s] drops the longest prefix of
    bytes satisfying [f]; [TrimRightBy] the longest such suffix. *)
Fixpoint TrimLeftBy (f : ascii -> bool) (s : string) : string :=
  match s with
  | EmptyString => EmptyString
  | String c s' => if f c then TrimLeftBy f s' else s
  end.

Fixpoint TrimRightBy (f : ascii -> bool) (s : string) : string :=
  match s with
  | EmptyString => EmptyString
  | String c s' =>
      match TrimRightBy f s' with
      | EmptyString => if f c then EmptyString else String c EmptyString
      | r => String c r
      end
  end.

(** Membership of a byte in an ASCII cutset. *)
Fixpoint inCutset (cutset : string) (c : ascii) : bool :=
  match cutset with
  | EmptyString => false
  | String a cutset' => Ascii.eqb c a || inCutset cutset' c
  end.

(** [strings.Trim(s, cutset)] for an ASCII cutset. *)
Definition Trim (s cutset : string) : string :=
  TrimRightBy (inCutset cutset) (TrimLeftBy (inCutset cutset) s).

(** [strings.NewReplacer(old1, new1, ...).Replace(s)] when every [old] and
    every [new] is a single byte: each byte is mapped through the first
    pair that mentions it. *)
Fixpoint replaceByte (pairs : list (ascii * ascii)) (c : ascii) : ascii :=
  match pairs with
  | [] => c
  | (o, n) :: pairs' => if Ascii.eqb c o then n else replaceByte pairs' c
  end.

Fixpoint Replace (pairs : list (ascii * ascii)) (s : string) : string :=
  match s with
  | EmptyString => EmptyString
  | String c s' => String (replaceByte pairs c) (Replace pairs s')
  end.

(** The bytes of a string, as a list. *)
Definition bytes (s : string) : list ascii := list_ascii_of_string s.

(** [strings.IndexByte(s, c) >= 0] *)
Fixpoint hasByte (c : ascii) (s : string) : bool :=
  match s with
  | EmptyString => false
  | String a s' => Ascii.eqb a c || hasByte c s'
  end.

(** [strings.Join(elems, sep)] *)
Fixpoint Join (elems : list string) (sep : string) : string :=
  match elems with
  | [] => EmptyString
  | [e] => e
  | e :: elems' => String.append e (String.append sep (Join elems' sep))
  end.

(** [strconv.Itoa(n)], which is also what [fmt]'s verb [%d] prints: the
    decimal digits of [n], after a minus sign when [n] is negative. *)
Definition Itoa (n : Z) : string :=
  if n <? 0
  then String "-" (DecimalString.NilEmpty.string_of_uint (N.to_uint (Z.abs_N n)))
  else DecimalString.NilEmpty.string_of_uint (N.to_uint (Z.to_N n)).

(** [strings.Repeat("0", n)] *)
Fixpoint zeros (n : nat) : string :=
  match n with
  | O => EmptyString
  | S n' => String "0" (zeros n')
  end.

End GoStrings.

(** ** internal/disk/types.go *)

Module Disk.
Import GoStrings.

(** [type DiscType int] with its two [iota] constants. *)
Definition DiscType := Z.
Definition DiscTypeDVD : DiscType := 0.
Definition DiscTypeBluRay : DiscType := 1.

(** The replacement table handed to [strings.NewReplacer]. *)
Definition replacer : list (ascii * ascii) :=
  [ ("/"%char,  "_"%char);
    ("092"%char, "_"%char);   (* backslash *)
    (":"%char,  "_"%char);
    ("*"%char,  "_"%char);
    ("?"%char,  "_"%char);
    ("034"%char, "_"%char);   (* double quote *)
    ("<"%char,  "_"%char);
    (">"%char,  "_"%char);
    ("|"%char,  "_"%char);
    (" "%char,  "_"%char) ].

(** The characters that [replacer] rewrites. *)
Definition problematic : list ascii :=
  [ "/"%char; "092"%char; ":"%char; "*"%char; "?"%char; "034"%char;
    "<"%char; ">"%char; "|"%char; " "%char ].

Definition SanitizeFilename (name : string) : string :=
  let sanitized := Replace replacer name in
  let sanitized := Trim sanitized "_." in
  if String.eqb sanitized EmptyString then "Unnamed_Disc" else sanitized.

End Disk.

(** ** internal/makemkv/parser.go *)

Module Makemkv.
Import GoStrings.

(** [time.Duration] is an [int64] count of nanoseconds. *)
Definition wrap64 (z : Z) : Z := (z + 2^63) mod 2^64 - 2^63.
Definition Nanosecond : Z := 1.
Definition Second : Z := 1000000000.
Definition Minute : Z := 60 * Second.
Definition Hour : Z := 60 * Minute.

Record Title := mkTitle {
  ID : Z;
  Duration : Z;
  Name : string;
  Size : Z;
  Chapters : Z
}.

Record ScanResult := mkScanResult {
  Titles : list Title;
  DiscName : string;
  DiscType : string
}.

(** *** strconv.Atoi / strconv.ParseInt(s, 10, 64)

    The value and whether the error is nil.  A string that is not an
    optional sign followed by one or more decimal digits is a syntax error
    with value [0]; a value outside the [int64] range is a range error with
    the value clamped to the nearest bound. *)
Definition digit (c : ascii) : option Z :=
  let n := Z.of_nat (nat_of_ascii c) in
  if (48 <=? n) && (n <=? 57) then Some (n - 48) else None.

Fixpoint digits (acc : Z) (s : string) : option Z :=
  match s with
  | EmptyString => Some acc
  | String c s' =>
      match digit c with
      | Some d => digits (acc * 10 + d) s'
      | None => None
      end
  end.

Definition ParseInt (s : string) : Z * bool :=
  let '(neg, body) :=
    match s with
    | String "-" s' => (true, s')
    | String "+" s' => (false, s')
    | _ => (false, s)
    end in
  match body with
  | EmptyString => (0, false)
  | _ =>
      match digits 0 body with
      | None => (0, false)
      | Some v =>
          let v := if neg then - v else v in
          if v <? - 2^63 then (- 2^63, false)
          else if 2^63 - 1 <? v then (2^63 - 1, false)
          else (v, true)
      end
  end.

Definition Atoi (s : string) : Z * bool := ParseInt s.

(** Strings of decimal digits. *)
Definition isDigit (c : ascii) : bool :=
  match digit c with Some _ => true | None => false end.

Fixpoint allDigits (s : string) : bool :=
  match s with
  | EmptyString => true
  | String c s' => isDigit c && allDigits s'
  end.

(** *** strings.TrimSpace

    White space is Unicode's White_Space property, read off the UTF-8
    encoding: the six ASCII space bytes, U+0085, U+00A0, U+1680,
    U+2000..U+200A, U+2028, U+2029, U+202F, U+205F and U+3000. *)
Definition ofCodes (l : list nat) : string :=
  string_of_list_ascii (map ascii_of_nat l).

Definition spaceRunes : list (list nat) :=
  ([ [9]; [10]; [11]; [12]; [13]; [32];
    [194; 133]; [194; 160]; [225; 154; 128];
    [226; 128; 128]; [226; 128; 129]; [226; 128; 130]; [226; 128; 131];
    [226; 128; 132]; [226; 128; 133]; [226; 128; 134]; [226; 128; 135];
    [226; 128; 136]; [226; 128; 137]; [226; 128; 138];
    [226; 128; 168]; [226; 128; 169]; [226; 128; 175];
    [226; 129; 159]; [227; 128; 128] ])%nat.

(** Strip, at most [fuel] times, one of [runes] from the front of [s]. *)
Fixpoint stripRunes (runes : list string) (fuel : nat) (s : string) : string :=
  match fuel with
  | O => s
  | S fuel' =>
      match List.find (HasPrefix s) runes with
      | Some r => stripRunes runes fuel' (drop (String.length r) s)
      | None => s
      end
  end.

Definition revString (s : string) : string :=
  string_of_list_ascii (rev (list_ascii_of_string s)).

Definition TrimSpace (s : string) : string :=
  let l := stripRunes (map ofCodes spaceRunes) (String.length s) s in
  let r := stripRunes (map (fun r => ofCodes (rev r)) spaceRunes)
             (String.length l) (revString l) in
  revString r.

(** *** strings.ToLower, on the ASCII letters.

    [ParseInfo] only searches the lowered line for the ASCII markers
    "blu-ray", "bd-rom" and "dvd"; no non-ASCII rune lowers to one of their
    letters, so lowering the ASCII letters decides the same searches. *)
Definition lowerByte (c : ascii) : ascii :=
  let n := nat_of_ascii c in
  if (65 <=? n)%nat && (n <=? 90)%nat then ascii_of_nat (n + 32) else c.

Fixpoint ToLower (s : string) : string :=
  match s with
  | EmptyString => EmptyString
  | String c s' => String (lowerByte c) (ToLower s')
  end.

(** *** The parser *)

Definition quote : ascii := "034"%char.

Definition extractQuotedValue (s : string) : string :=
  let start := IndexByte s quote in
  let end_ := LastIndexByte s quote in
  if negb (start =? -1) && negb (end_ =? -1) && (start <? end_)
  then slice s (start + 1) end_
  else EmptyString.

Definition mul64 (a b : Z) : Z := wrap64 (a * b).
Definition add64 (a b : Z) : Z := wrap64 (a + b).

Definition parseDuration (s : string) : Z :=
  match Split s ":" with
  | [h; m; sec] =>
      let hours := fst (Atoi h) in
      let minutes := fst (Atoi m) in
      let seconds := fst (Atoi sec) in
      add64 (add64 (mul64 hours Hour) (mul64 minutes Minute))
            (mul64 seconds Second)
  | _ => 0
  end.

(** [titleMap map[int]*Title]: the pointers are private to the map, so the
    map holds the titles themselves. *)
Definition parseTitleInfo (line : string) (titleMap : gmap Z Title)
  : gmap Z Title :=
  match SplitN (drop 6 line) "," 4 with
  | [p0; p1; _; p3] =>
      match Atoi p0 with
      | (_, false) => titleMap
      | (titleID, true) =>
          match Atoi p1 with
          | (_, false) => titleMap
          | (attributeID, true) =>
              let value := extractQuotedValue p3 in
              let title :=
                match titleMap !! titleID with
                | Some t => t
                | None => mkTitle titleID 0 EmptyString 0 0
                end in
              let title :=
                if attributeID =? 2 then
                  mkTitle (ID title) (Duration title) value
                          (Size title) (Chapters title)
                else if attributeID =? 9 then
                  mkTitle (ID title) (parseDuration value) (Name title)
                          (Size title) (Chapters title)
                else if attributeID =? 10 then
                  mkTitle (ID title) (Duration title) (Name title)
                          (fst (ParseInt value)) (Chapters title)
                else if attributeID =? 8 then
                  mkTitle (ID title) (Duration title) (Name title)
                          (Size title) (fst (Atoi value))
                else title in
              <[titleID := title]> titleMap
          end
      end
  | _ => titleMap
  end.

(** The loop state of [ParseInfo]: disc name, disc type, title map. *)
Definition parseLine (st : string * string * gmap Z Title) (line : string)
  : string * string * gmap Z Title :=
  let '(discName, discType, titleMap) := st in
  let line := TrimSpace line in
  if String.eqb line EmptyString then st
  else
    let discName :=
      if HasPrefix line (String.append "CINFO:2,0," (String quote EmptyString))
      then extractQuotedValue line else discName in
    let discType :=
      if Contains (ToLower line) "blu-ray" || Contains (ToLower line) "bd-rom"
      then "Blu-ray"
      else if Contains (ToLower line) "dvd"
           then (if String.eqb discType EmptyString then "DVD" else discType)
           else discType in
    let titleMap :=
      if HasPrefix line "TINFO:" then parseTitleInfo line titleMap
      else titleMap in
    (discName, discType, titleMap).

(** [for _, title := range titleMap]: Go leaves the iteration order of a
    map unspecified (and randomises it), so the order is an input of the
    model: [range m] is the sequence of entries the loop visits. *)
Definition rangeOrder := gmap Z Title -> list (Z * Title).

(** The orders a Go map range may take: every entry exactly once. *)
Definition goRange (range : rangeOrder) : Prop :=
  forall m, range m ≡ₚ map_to_list m.

(** [ParseInfo] always returns a nil error; the model returns the
    [ScanResult] alone. *)
Definition ParseInfo (range : rangeOrder) (output : string) : ScanResult :=
  let lines := Split output "010" in
  let '(discName, discType, titleMap) :=
    fold_left parseLine lines (EmptyString, EmptyString, ∅) in
  let discType := if String.eqb discType EmptyString then "DVD" else discType in
  let titles :=
    fold_left
      (fun acc (kv : Z * Title) =>
         if 0 <? Duration (snd kv) then acc ++ [snd kv] else acc)
      (range titleMap) [] in
  mkScanResult titles discName discType.

(** *** Scan order

    The title id that a line of the scan output contributes to [titleMap],
    if any: [tinfoID] for a trimmed TINFO line, [recordID] for a raw line. *)
Definition tinfoID (line : string) : option Z :=
  match SplitN (drop 6 line) "," 4 with
  | [p0; p1; _; _] =>
      match Atoi p0, Atoi p1 with
      | (titleID, true), (_, true) => Some titleID
      | _, _ => None
      end
  | _ => None
  end.

Definition recordID (line : string) : option Z :=
  let line := TrimSpace line in
  if String.eqb line EmptyString then None
  else if HasPrefix line "TINFO:" then tinfoID line
  else None.

(** The ids of a sequence in the order of their first occurrence. *)
Fixpoint firstOccurrences (seen ids : list Z) : list Z :=
  match ids with
  | [] => []
  | id :: ids' =>
      if bool_decide (id ∈ seen) then firstOccurrences seen ids'
      else id :: firstOccurrences (id :: seen) ids'
  end.

(** Scan order: the title ids in the order in which the input lines first
    mention them. *)
Definition scanOrder (output : string) : list Z :=
  firstOccurrences [] (omap recordID (Split output "010")).

(** The title map when the loop over the lines ends. *)
Definition titleMapOf (output : string) : gmap Z Title :=
  snd (fold_left parseLine (Split output "010")
         (EmptyString, EmptyString, ∅)).

(** The titles of positive duration, in scan order. *)
Definition scanTitles (output : string) : list Title :=
  filter (fun t => 0 < Duration t)
    (omap (fun id => titleMapOf output !! id) (scanOrder output)).

(** One order a Go map range may take: by descending key. *)
Definition keyGe (a b : Z * Title) : Prop := fst b <= fst a.

#[global] Instance keyGe_dec : RelDecision keyGe :=
  fun a b => Z_le_dec (fst b) (fst a).

Definition descending : rangeOrder :=
  fun m => merge_sort keyGe (map_to_list m).

(** Fixtures for the examples: a scan output with two titles of 30 and 25
    minutes. *)
Definition tinfo (id attribute value : string) : string :=
  String.append "TINFO:"
    (String.append id
       (String.append ","
          (String.append attribute
             (String.append ",0,"
                (String quote (String.append value (String quote EmptyString))))))).

Definition exampleScan : string :=
  String.append (tinfo "0" "9" "0:30:00")
    (String "010" (tinfo "1" "9" "0:25:00")).

(** [float64(n)] for an integer [n]: the nearest binary64, ties to even. *)
Definition float64 (n : Z) : spec_float := binary_normalize 53 1024 n 0 false.
Definition fdiv : spec_float -> spec_float -> spec_float := SFdiv 53 1024.
Definition fmul : spec_float -> spec_float -> spec_float := SFmul 53 1024.

Definition CalculatePercentage (current total max : Z) : spec_float :=
  if max =? 0 then S754_zero false
  else fmul (fdiv (float64 current) (float64 max)) (float64 100).

(** The spec's formula, current ÷ max × 100, in binary64 arithmetic. *)
Definition percentageFormula (current max : Z) : spec_float :=
  fmul (fdiv (float64 current) (float64 max)) (float64 100).

(** *** Title selection *)

Definition findLongestTitle (titles : list Title) : Title :=
  match titles with
  | [] => mkTitle 0 0 EmptyString 0 0
  | first :: rest =>
      fold_left
        (fun longest title =>
           if Duration longest <? Duration title then title else longest)
        rest first
  end.

Definition SelectTitles (titles : list Title)
    (movieThreshold episodeThreshold : Z) : list Title :=
  match titles with
  | [] => []
  | _ =>
      let maxDuration :=
        fold_left
          (fun maxDuration title =>
             if maxDuration <? Duration title then Duration title
             else maxDuration)
          titles 0 in
      if movieThreshold <=? maxDuration then [findLongestTitle titles]
      else
        fold_left
          (fun selected title =>
             if episodeThreshold <=? Duration title
             then selected ++ [title] else selected)
          titles []
  end.

(** *** Progress and status lines *)

(** [ParseProgress]: current, total, max and ok. *)
Definition ParseProgress (line : string) : Z * Z * Z * bool :=
  if negb (HasPrefix line "PRGV:") then (0, 0, 0, false)
  else
    match Split (drop 5 line) "," with
    | p0 :: p1 :: p2 :: _ =>
        match Atoi p0, Atoi p1, Atoi p2 with
        | (current, true), (total, true), (max, true) =>
            (current, total, max, true)
        | _, _, _ => (0, 0, 0, false)
        end
    | _ => (0, 0, 0, false)
    end.

Definition ParseStatusMessage (line : string) : string * bool :=
  if negb (HasPrefix line "PRGC:") && negb (HasPrefix line "PRGT:")
  then (EmptyString, false)
  else
    let status := extractQuotedValue line in
    if String.eqb status EmptyString then (EmptyString, false)
    else (status, true).

(** How the ripping tool writes what the parser reads: a number in
    decimal behind [k] leading zeros, a progress line, a duration. *)
Definition padded (k : nat) (n : Z) : string :=
  String.append (zeros k) (Itoa n).

Definition progressLine (current total max : Z) (tail : string) : string :=
  String.append "PRGV:"
    (String.append (Itoa current)
       (String ","
          (String.append (Itoa total)
             (String "," (String.append (Itoa max) tail))))).

(** Text between double quotes, with text before and after. *)
Definition quoted (pre value post : string) : string :=
  String.append pre
    (String quote (String.append value (String quote post))).

Definition durationText (kh km ks : nat) (h m s : Z) : string :=
  String.append (padded kh h)
    (String ":" (String.append (padded km m) (String ":" (padded ks s)))).

(** A line of the scan output that names a Blu-ray disc. *)
Definition bluRayMarker (line : string) : bool :=
  Contains (ToLower line) "blu-ray" || Contains (ToLower line) "bd-rom".

(** Whether some line of the scan output names a Blu-ray disc. *)
Definition anyBluRay (output : string) : bool :=
  existsb (fun line => bluRayMarker (TrimSpace line)) (Split output "010").

(** [ScanDisc], once makemkvcon has ended without an error: the lines the
    scanner read are joined by line feeds and handed to [ParseInfo]. *)
Definition ScanDisc (range : rangeOrder) (outputLines : list string)
  : ScanResult :=
  ParseInfo range (Join outputLines (String "010" EmptyString)).

End Makemkv.

(** ** internal/disk/types.go, the functions that read scan output *)

Module DiskInfo.
Import GoStrings.

(** [DiscType.String] *)
Definition DiscTypeString (dt : Disk.DiscType) : string :=
  if dt =? Disk.DiscTypeDVD then "DVD"
  else if dt =? Disk.DiscTypeBluRay then "Blu-ray"
  else "Unknown".

(** [strings.ToLower] is modelled on the ASCII letters, as in the parser:
    the markers searched for here, "blu-ray" and "bd", have no letter that a
    non-ASCII rune lowers to. *)
Definition DetectDiscTypeFromInfo (info : string) : Disk.DiscType :=
  let infoLower := Makemkv.ToLower info in
  if Contains infoLower "blu-ray" || Contains infoLower "bd"
  then Disk.DiscTypeBluRay
  else Disk.DiscTypeDVD.

(** The loop of [ParseDiscName] over the lines. *)
Fixpoint discNameOf (lines : list string) : string :=
  match lines with
  | [] => "Unknown_Disc"
  | line :: lines' =>
      if HasPrefix line
           (String.append "CINFO:2,0," (String Makemkv.quote EmptyString))
      then
        let start := IndexByte line Makemkv.quote in
        let end_ := LastIndexByte line Makemkv.quote in
        if negb (start =? -1) && negb (end_ =? -1) && (start <? end_)
        then slice line (start + 1) end_
        else discNameOf lines'
      else discNameOf lines'
  end.

Definition ParseDiscName (info : string) : string :=
  discNameOf (Split info "010").

End DiskInfo.

(** ** internal/encode/queue.go, state.go and worker.go *)

Module Encode.
Import GoStrings.

(** [type ItemStatus int]: the five [iota] constants; a state file can hold
    any other integer, which [String()] prints as "Unknown". *)
Definition ItemStatus := Z.
Definition StatusQueued : ItemStatus := 0.
Definition StatusEncoding : ItemStatus := 1.
Definition StatusPaused : ItemStatus := 2.
Definition StatusComplete : ItemStatus := 3.
Definition StatusFailed : ItemStatus := 4.

(** [time.Time], as an instant in nanoseconds; [*time.Time] is an option. *)
Definition Time := Z.

(** A Go [error]: [None] is [nil], [Some msg] an error whose [Error()] is
    [msg]. *)
Definition error := option string.

Record QueueItem := mkQueueItem {
  ID : string;
  SourcePath : string;
  DestPath : string;
  DiscType : Disk.DiscType;
  DiscName : string;
  TitleName : string;
  Status : ItemStatus;
  Progress : spec_float;
  CreatedAt : Time;
  StartedAt : option Time;
  CompletedAt : option Time;
  Error : string
}.

(** Field assignments [item.F = v]. *)
Definition setStatus (v : ItemStatus) (i : QueueItem) : QueueItem :=
  mkQueueItem (ID i) (SourcePath i) (DestPath i) (DiscType i) (DiscName i)
    (TitleName i) v (Progress i) (CreatedAt i) (StartedAt i) (CompletedAt i)
    (Error i).
Definition setProgress (v : spec_float) (i : QueueItem) : QueueItem :=
  mkQueueItem (ID i) (SourcePath i) (DestPath i) (DiscType i) (DiscName i)
    (TitleName i) (Status i) v (CreatedAt i) (StartedAt i) (CompletedAt i)
    (Error i).
Definition setStartedAt (v : option Time) (i : QueueItem) : QueueItem :=
  mkQueueItem (ID i) (SourcePath i) (DestPath i) (DiscType i) (DiscName i)
    (TitleName i) (Status i) (Progress i) (CreatedAt i) v (CompletedAt i)
    (Error i).
Definition setCompletedAt (v : option Time) (i : QueueItem) : QueueItem :=
  mkQueueItem (ID i) (SourcePath i) (DestPath i) (DiscType i) (DiscName i)
    (TitleName i) (Status i) (Progress i) (CreatedAt i) (StartedAt i) v
    (Error i).
Definition setError (v : string) (i : QueueItem) : QueueItem :=
  mkQueueItem (ID i) (SourcePath i) (DestPath i) (DiscType i) (DiscName i)
    (TitleName i) (Status i) (Progress i) (CreatedAt i) (StartedAt i)
    (CompletedAt i) v.

Definition zero : spec_float := S754_zero false.

(** *** The outside world of the queue: files and [encoding/json] *)

(** [encoding/json] is not part of the repository.  It is an interface of
    the model: [Marshal] renders an item sequence as the bytes of a JSON
    document or fails, [Unmarshal] reads such bytes back or fails.  The
    queue holds [[]*QueueItem].  The program never passes a nil pointer to
    a queue method, but a document may hold a null element, which
    [json.Unmarshal] reads as a nil pointer: [None] below. *)
Class JSON := {
  Marshal : list QueueItem -> option string;
  Unmarshal : string -> option (list (option QueueItem))
}.

(** The system calls the persistence layer issues, in order. *)
Inductive Syscall :=
| SysMkdirAll (ofPath : string)      (* os.MkdirAll(filepath.Dir(ofPath)) *)
| SysWriteFile (path data : string)
| SysRename (oldPath newPath : string)
| SysReadFile (path : string).

Record World := mkWorld {
  files : gmap string string;
  trace : list Syscall
}.

Definition sys (c : Syscall) (w : World) : World :=
  mkWorld (files w) (trace w ++ [c]).

(** Which system call of one [Save], if any, the operating system fails.  A
    failed [os.WriteFile] or [os.Rename] is taken to leave the files as they
    were before the call. *)
Inductive SaveFault := NoFault | MkdirFails | WriteFails | RenameFails.

Record StatePersistence := mkStatePersistence { filePath : string }.

Definition NewStatePersistence (filePath : string) : StatePersistence :=
  mkStatePersistence filePath.

Section WithJSON.
Context `{JSON}.

Definition Save (sp : StatePersistence) (items : list QueueItem)
    (fault : SaveFault) (w : World) : World * error :=
  let w := sys (SysMkdirAll (filePath sp)) w in
  match fault with
  | MkdirFails => (w, Some "failed to create state directory")
  | _ =>
      match Marshal items with
      | None => (w, Some "failed to marshal queue state")
      | Some data =>
          let tmpPath := String.append (filePath sp) ".tmp" in
          let w := sys (SysWriteFile tmpPath data) w in
          match fault with
          | WriteFails => (w, Some "failed to write temp state file")
          | _ =>
              let w := mkWorld (<[tmpPath := data]> (files w)) (trace w) in
              let w := sys (SysRename tmpPath (filePath sp)) w in
              match fault with
              | RenameFails => (w, Some "failed to rename state file")
              | _ =>
                  (mkWorld (<[filePath sp := data]> (delete tmpPath (files w)))
                           (trace w),
                   None)
              end
          end
      end
  end.

(** [readFails]: [os.ReadFile] fails with an error other than "the file
    does not exist" (a permission, a path through a file, an I/O error),
    whether or not the file is there.  An absent file otherwise makes it
    fail with an error that [os.IsNotExist] recognises. *)
Definition Load (sp : StatePersistence) (readFails : bool) (w : World)
  : World * (list (option QueueItem) * error) :=
  let w := sys (SysReadFile (filePath sp)) w in
  if readFails then (w, ([], Some "failed to read state file"))
  else
    match files w !! filePath sp with
    | None => (w, ([], None))
    | Some data =>
        match Unmarshal data with
        | None => (w, ([], Some "failed to unmarshal queue state"))
        | Some items => (w, (items, None))
        end
    end.

(** *** The queue *)

Record Queue := mkQueue {
  items : list QueueItem;
  persistence : StatePersistence
}.

Definition NewQueue (statePath : string) : Queue :=
  mkQueue [] (NewStatePersistence statePath).

(** The result of a queue method: the queue, the world, the returned error. *)
Definition Result : Type := Queue * World * error.

Definition saved (q : Queue) (its : list QueueItem) (fault : SaveFault)
    (w : World) : Result :=
  let '(w, err) := Save (persistence q) its fault w in
  (mkQueue its (persistence q), w, err).

(** The body of the loop in [LoadState]. *)
Definition resetStuck (item : QueueItem) : QueueItem :=
  if Status item =? StatusEncoding
  then setStartedAt None (setProgress zero (setStatus StatusQueued item))
  else item.

(** The items of a slice without nil pointer; [None] when it holds one. *)
Fixpoint nonNil (its : list (option QueueItem)) : option (list QueueItem) :=
  match its with
  | [] => Some []
  | None :: _ => None
  | Some item :: its' =>
      match nonNil its' with
      | Some items => Some (item :: items)
      | None => None
      end
  end.

(** [LoadState] returns nil in every case in which it returns.  Its loop
    reads [item.Status] of every loaded item; at a nil item that is a nil
    pointer dereference, a run-time panic: [None]. *)
Definition LoadState (readFails : bool) (fault : SaveFault)
    (q : Queue) (w : World) : option Result :=
  match Load (persistence q) readFails w with
  | (w, (_, Some _)) => Some (q, w, None)
  | (w, (its, None)) =>
      match nonNil its with
      | None => None
      | Some its =>
          let '(q, w, _) := saved q (map resetStuck its) fault w in
          Some (q, w, None)
      end
  end.

Definition SaveState (fault : SaveFault) (q : Queue) (w : World) : Result :=
  saved q (items q) fault w.

Definition Add (item : QueueItem) (fault : SaveFault)
    (q : Queue) (w : World) : Result :=
  saved q (items q ++ [item]) fault w.

Definition HasSourcePath (sourcePath : string) (q : Queue) : bool :=
  existsb (fun item => String.eqb (SourcePath item) sourcePath) (items q).

Definition GetNext (q : Queue) : option QueueItem :=
  List.find (fun item => Status item =? StatusQueued) (items q).

(** The loops of the shape
    [for _, item := range q.items { if item.ID == id { ...; return Save } }]:
    apply [f] to the first item whose ID is [id]; [None] when the loop falls
    through. *)
Fixpoint updateFirst (id : string) (f : QueueItem -> QueueItem)
    (its : list QueueItem) : option (list QueueItem) :=
  match its with
  | [] => None
  | item :: rest =>
      if String.eqb (ID item) id then Some (f item :: rest)
      else match updateFirst id f rest with
           | Some rest' => Some (item :: rest')
           | None => None
           end
  end.

Definition update (id : string) (f : QueueItem -> QueueItem)
    (fault : SaveFault) (q : Queue) (w : World) : Result :=
  match updateFirst id f (items q) with
  | Some its => saved q its fault w
  | None => (q, w, None)
  end.

Definition UpdateProgress (id : string) (progress : spec_float)
    (fault : SaveFault) (q : Queue) (w : World) : Result :=
  update id (setProgress progress) fault q w.

Definition SetStatus (id : string) (status : ItemStatus) (now : Time)
    (fault : SaveFault) (q : Queue) (w : World) : Result :=
  update id
    (fun item =>
       let item := setStatus status item in
       if status =? StatusEncoding then setStartedAt (Some now) item
       else if (status =? StatusComplete) || (status =? StatusFailed)
            then setCompletedAt (Some now) item
            else item)
    fault q w.

Definition Complete (id : string) (now : Time) (fault : SaveFault)
    (q : Queue) (w : World) : Result :=
  SetStatus id StatusComplete now fault q w.

Definition Fail (id : string) (err : string) (now : Time) (fault : SaveFault)
    (q : Queue) (w : World) : Result :=
  update id
    (fun item =>
       setCompletedAt (Some now) (setError err (setStatus StatusFailed item)))
    fault q w.

Definition Pause (id : string) (now : Time) (fault : SaveFault)
    (q : Queue) (w : World) : Result :=
  SetStatus id StatusPaused now fault q w.

Definition Resume (id : string) (now : Time) (fault : SaveFault)
    (q : Queue) (w : World) : Result :=
  SetStatus id StatusQueued now fault q w.

Definition GetAll (q : Queue) : list QueueItem := items q.

Definition GetCurrent (q : Queue) : option QueueItem :=
  List.find (fun item => Status item =? StatusEncoding) (items q).

Definition ClearCompleted (fault : SaveFault) (q : Queue) (w : World)
  : Result :=
  saved q
    (List.filter
       (fun item => negb (Status item =? StatusComplete)
                    && negb (Status item =? StatusFailed))
       (items q))
    fault w.

(** The body of the loop in [RetryFailed]. *)
Definition retry (item : QueueItem) : QueueItem :=
  if (Status item =? StatusFailed) || (Status item =? StatusEncoding)
  then setCompletedAt None
         (setStartedAt None
            (setError EmptyString
               (setProgress zero (setStatus StatusQueued item))))
  else item.

Definition RetryFailed (fault : SaveFault) (q : Queue) (w : World) : Result :=
  saved q (map retry (items q)) fault w.

Definition Remove (id : string) (fault : SaveFault) (q : Queue) (w : World)
  : Result :=
  saved q
    (List.filter (fun item => negb (String.eqb (ID item) id)) (items q))
    fault w.

(** *** The worker *)

Inductive WorkerControl :=
  WorkerPause | WorkerResume | WorkerStop | WorkerDelete.

(** The two fields of [Worker] that its methods assign. *)
Record Worker := mkWorker {
  paused : bool;
  shouldDeleteCurrent : bool
}.

Definition NewWorker : Worker := mkWorker false false.

(** What [handleControl] asks of the HandBrake supervisor. *)
Inductive Supervise := HBPause | HBResume | HBCancel.

Definition handleControl (wk : Worker) (ctrl : WorkerControl)
  : Worker * Supervise :=
  match ctrl with
  | WorkerPause => (mkWorker true (shouldDeleteCurrent wk), HBPause)
  | WorkerResume => (mkWorker false (shouldDeleteCurrent wk), HBResume)
  | WorkerStop => (mkWorker (paused wk) false, HBCancel)
  | WorkerDelete => (mkWorker (paused wk) true, HBCancel)
  end.

(** The worker after handling the commands [ctrls], oldest first. *)
Definition handleControls (wk : Worker) (ctrls : list WorkerControl)
  : Worker :=
  fold_left (fun wk ctrl => fst (handleControl wk ctrl)) ctrls wk.

(** The first statement of [encodeItem]: mark the item as encoding; [false]
    when the method returns early because [SetStatus] reported an error. *)
Definition markEncoding (item : QueueItem) (now : Time) (fault : SaveFault)
    (q : Queue) (w : World) : Queue * World * bool :=
  match SetStatus (ID item) StatusEncoding now fault q w with
  | (q, w, Some _) => (q, w, false)
  | (q, w, None) => (q, w, true)
  end.

(** [encodeItem] from the label [handleResult] on: [err] is what
    [handbrake.Encode] returned.  The errors of the queue methods are
    dropped, as in the source. *)
Definition handleResult (item : QueueItem) (err : error) (now : Time)
    (fault : SaveFault) (wk : Worker) (q : Queue) (w : World)
  : Worker * Queue * World :=
  match err with
  | Some errStr =>
      if Contains errStr "killed" || Contains errStr "signal" then
        if shouldDeleteCurrent wk then
          let '(q, w, _) := Remove (ID item) fault q w in
          (mkWorker (paused wk) false, q, w)
        else
          let '(q, w, _) := Fail (ID item) "cancelled by user" now fault q w in
          (wk, q, w)
      else
        let '(q, w, _) := Fail (ID item) errStr now fault q w in
        (wk, q, w)
  | None =>
      let '(q, w, _) := Complete (ID item) now fault q w in
      (wk, q, w)
  end.

(** One whole [encodeItem]: the commands [ctrls] arrive on the control
    channel while HandBrake runs, then HandBrake returns [err]. *)
Definition encodeItem (item : QueueItem) (ctrls : list WorkerControl)
    (err : error) (now1 now2 : Time) (fault1 fault2 : SaveFault)
    (wk : Worker) (q : Queue) (w : World) : Worker * Queue * World :=
  match markEncoding item now1 fault1 q w with
  | (q, w, false) => (wk, q, w)
  | (q, w, true) =>
      handleResult item err now2 fault2 (handleControls wk ctrls) q w
  end.

(** The item a caller means by [id]: the first one carrying it. *)
Definition lookupID (id : string) (its : list QueueItem) : option QueueItem :=
  List.find (fun item => String.eqb (ID item) id) its.

(** The items of a queue other than the first one carrying [id]. *)
Fixpoint others (id : string) (its : list QueueItem) : list QueueItem :=
  match its with
  | [] => []
  | item :: rest =>
      if String.eqb (ID item) id then rest else item :: others id rest
  end.

(** *** The queue and its callers as a transition system

    Every queue method runs under [q.mu], so a run of the program is an
    interleaving of whole method calls.  [Call] is a call of a queue method
    by any goroutine. *)
Inductive Call :=
| CallAdd (item : QueueItem) (fault : SaveFault)
| CallGetNext
| CallUpdateProgress (id : string) (progress : spec_float) (fault : SaveFault)
| CallSetStatus (id : string) (status : ItemStatus) (now : Time)
    (fault : SaveFault)
| CallComplete (id : string) (now : Time) (fault : SaveFault)
| CallFail (id : string) (err : string) (now : Time) (fault : SaveFault)
| CallClearCompleted (fault : SaveFault)
| CallRetryFailed (fault : SaveFault)
| CallRemove (id : string) (fault : SaveFault).

Definition call (c : Call) (q : Queue) (w : World) : Queue * World :=
  fst
    match c with
    | CallAdd item fault => Add item fault q w
    | CallGetNext => (q, w, None)
    | CallUpdateProgress id progress fault =>
        UpdateProgress id progress fault q w
    | CallSetStatus id status now fault => SetStatus id status now fault q w
    | CallComplete id now fault => Complete id now fault q w
    | CallFail id err now fault => Fail id err now fault q w
    | CallClearCompleted fault => ClearCompleted fault q w
    | CallRetryFailed fault => RetryFailed fault q w
    | CallRemove id fault => Remove id fault q w
    end.

Definition calls (cs : list Call) (q : Queue) (w : World) : Queue * World :=
  fold_left (fun qw c => call c (fst qw) (snd qw)) cs (q, w).

(** How many items of a queue have status Encoding. *)
Definition isEncoding (item : QueueItem) : bool :=
  Status item =? StatusEncoding.

Definition encodingCount (q : Queue) : nat :=
  length (List.filter isEncoding (items q)).

(** Where the worker goroutine is: in the [select] of [Run], or inside
    [encodeItem] waiting for HandBrake, holding the item it took. *)
Inductive Phase := Idle | Busy (item : QueueItem).

Record System := mkSystem {
  queue : Queue;
  world : World;
  worker : Worker;
  phase : Phase
}.

Inductive Event :=
| EvCall (c : Call)
    (* a queue method called from outside the worker (UI, app) *)
| EvControl (ctrl : WorkerControl)
    (* the worker receives a command, in [Run] or inside [encodeItem] *)
| EvTick (now : Time) (fault : SaveFault)
    (* the worker's ticker fires in [Run] *)
| EvEncodeDone (err : error) (now : Time) (fault : SaveFault)
    (* [handbrake.Encode] returns to [encodeItem] *).

Definition exec (e : Event) (s : System) : System :=
  match e with
  | EvCall c =>
      let '(q, w) := call c (queue s) (world s) in
      mkSystem q w (worker s) (phase s)
  | EvControl ctrl =>
      mkSystem (queue s) (world s) (fst (handleControl (worker s) ctrl))
        (phase s)
  | EvTick now fault =>
      match phase s with
      | Busy _ => s
      | Idle =>
          if paused (worker s) then s
          else match GetNext (queue s) with
               | None => s
               | Some item =>
                   match markEncoding item now fault (queue s) (world s) with
                   | (q, w, true) => mkSystem q w (worker s) (Busy item)
                   | (q, w, false) => mkSystem q w (worker s) Idle
                   end
               end
      end
  | EvEncodeDone err now fault =>
      match phase s with
      | Idle => s
      | Busy item =>
          let '(wk, q, w) :=
            handleResult item err now fault (worker s) (queue s) (world s) in
          mkSystem q w wk Idle
      end
  end.

Definition run (es : list Event) (s : System) : System :=
  fold_left (fun s e => exec e s) es s.

(** The single-consumer discipline of the program: only the worker moves an
    item to Encoding (no other caller passes [StatusEncoding] to
    [SetStatus], and items are added in another status), and the worker's
    own [SetStatus] at the head of [encodeItem] does not fail. *)
Definition disciplined (e : Event) (s : System) : bool :=
  match e with
  | EvCall (CallSetStatus _ status _ _) => negb (status =? StatusEncoding)
  | EvCall (CallAdd item _) => negb (isEncoding item)
  | EvTick now fault =>
      match phase s, paused (worker s), GetNext (queue s) with
      | Idle, false, Some item =>
          snd (markEncoding item now fault (queue s) (world s))
      | _, _, _ => true
      end
  | _ => true
  end.

Definition initial (s : System) : Prop :=
  phase s = Idle /\ encodingCount (queue s) = 0%nat.

(** The invariant that carries the proof: while the worker is idle no item
    is Encoding; while it is busy with [item], only the item the queue finds
    under [item]'s ID can be. *)
Definition settled (its : list QueueItem) : Prop :=
  Forall (fun i => isEncoding i = false) its.

Definition singleConsumer (s : System) : Prop :=
  match phase s with
  | Idle => settled (items (queue s))
  | Busy item => settled (others (ID item) (items (queue s)))
  end.

(** An update that does not make an item Encoding. *)
Definition harmless (f : QueueItem -> QueueItem) : Prop :=
  forall i, ID (f i) = ID i /\ (isEncoding i = false -> isEncoding (f i) = false).

Inductive reachable : System -> Prop :=
| reachable_initial s : initial s -> reachable s
| reachable_exec s e :
    reachable s -> disciplined e s = true -> reachable (exec e s).

(** Whether the commands [ctrls] (oldest first) leave a deletion requested:
    the most recent Stop or Delete among them decides, Pause and Resume do
    not count; without any, the earlier request [before] stands. *)
Fixpoint deleteRequested (before : bool) (ctrls : list WorkerControl) : bool :=
  match ctrls with
  | [] => before
  | WorkerStop :: ctrls' => deleteRequested false ctrls'
  | WorkerDelete :: ctrls' => deleteRequested true ctrls'
  | _ :: ctrls' => deleteRequested before ctrls'
  end.

(** The worker's test for "the encoder was terminated by a signal". *)
Definition killedBySignal (errStr : string) : bool :=
  Contains errStr "killed" || Contains errStr "signal".

(** What [RetryFailed] does to one item: [old] before, [new] after. *)
Definition retried (old new : QueueItem) : Prop :=
  ID new = ID old /\ SourcePath new = SourcePath old /\
  DestPath new = DestPath old /\ DiscType new = DiscType old /\
  DiscName new = DiscName old /\ TitleName new = TitleName old /\
  CreatedAt new = CreatedAt old /\
  (Status old = StatusFailed \/ Status old = StatusEncoding ->
   Status new = StatusQueued /\ Progress new = zero /\
   Error new = EmptyString /\ StartedAt new = None /\
   CompletedAt new = None) /\
  (Status old <> StatusFailed -> Status old <> StatusEncoding -> new = old).

(** What [LoadState] does to one persisted item: [old] as persisted, [new]
    in the queue.  It is the same item; if it was Encoding, its status,
    progress and start time are reset and nothing else. *)
Definition recovered (old new : QueueItem) : Prop :=
  ID new = ID old /\ SourcePath new = SourcePath old /\
  DestPath new = DestPath old /\ DiscType new = DiscType old /\
  DiscName new = DiscName old /\ TitleName new = TitleName old /\
  CreatedAt new = CreatedAt old /\
  CompletedAt new = CompletedAt old /\ Error new = Error old /\
  (Status old = StatusEncoding ->
   Status new = StatusQueued /\ Progress new = zero /\ StartedAt new = None) /\
  (Status old <> StatusEncoding -> new = old).

(** The queue of a method's result. *)
Definition queueOf (r : Result) : Queue := fst (fst r).

(** The same call under another outcome of the file system. *)
Definition setFault (fault : SaveFault) (c : Call) : Call :=
  match c with
  | CallAdd item _ => CallAdd item fault
  | CallGetNext => CallGetNext
  | CallUpdateProgress id progress _ => CallUpdateProgress id progress fault
  | CallSetStatus id status now _ => CallSetStatus id status now fault
  | CallComplete id now _ => CallComplete id now fault
  | CallFail id err now _ => CallFail id err now fault
  | CallClearCompleted _ => CallClearCompleted fault
  | CallRetryFailed _ => CallRetryFailed fault
  | CallRemove id _ => CallRemove id fault
  end.

(** Whether the commands [ctrls] (oldest first) leave the worker paused: the
    most recent Pause or Resume among them decides; without any, the
    earlier state [before] stands. *)
Fixpoint pauseRequested (before : bool) (ctrls : list WorkerControl) : bool :=
  match ctrls with
  | [] => before
  | WorkerPause :: ctrls' => pauseRequested true ctrls'
  | WorkerResume :: ctrls' => pauseRequested false ctrls'
  | _ :: ctrls' => pauseRequested before ctrls'
  end.

(** Events other than the worker receiving Resume. *)
Definition notResume (e : Event) : bool :=
  match e with
  | EvControl WorkerResume => false
  | _ => true
  end.

(** The queue-method calls among the events, in order. *)
Definition outsideCalls (es : list Event) : list Call :=
  omap (fun e => match e with EvCall c => Some c | _ => None end) es.

(** An update by id touched at most the first item carrying the id: the
    ids are as before, and an item that differs from the old one at its
    position carries [id] and has no item carrying [id] before it. *)
Definition touchedFirstOnly (id : string) (old new : list QueueItem) : Prop :=
  map ID new = map ID old /\
  forall (i : nat) x x',
    old !! i = Some x -> new !! i = Some x' -> x' <> x ->
    ID x = id /\
    forall (j : nat) y, (j < i)%nat -> old !! j = Some y -> ID y <> id.

End WithJSON.

#[global] Instance spec_float_eq_dec : EqDecision spec_float.
Proof. solve_decision. Defined.

#[global] Instance QueueItem_eq_dec : EqDecision QueueItem.
Proof. solve_decision. Defined.

(** A finite JSON layer for examples: the documents of a table, each with
    the slice it denotes. *)
Definition tableJSON (table : list (list (option QueueItem) * string))
  : JSON :=
  {| Marshal its :=
       option_map snd
         (List.find (fun e => bool_decide (fst e = map Some its)) table);
     Unmarshal data :=
       option_map fst (List.find (fun e => String.eqb (snd e) data) table) |}.

(** Fixtures for the examples. *)
Definition exampleItem (id : string) (status : ItemStatus) : QueueItem :=
  mkQueueItem id "/rips/title.mkv" "/encoded/title.mkv" Disk.DiscTypeDVD
    "DISC" "title" status zero 0 None None EmptyString.

Definition exampleItems : list QueueItem :=
  [exampleItem "a" StatusEncoding; exampleItem "b" StatusComplete].

Definition exampleJSON : JSON :=
  tableJSON [(map Some exampleItems, "[{a: encoding}, {b: complete}]");
             ([], "[]"); ([None], "[null]")].

(** A write-only JSON layer for examples that never read the file back:
    every sequence has a document. *)
Definition writeOnlyJSON : JSON :=
  {| Marshal _ := Some "[...]"; Unmarshal _ := None |}.

Definition exampleSystem : System :=
  mkSystem
    (mkQueue [exampleItem "a" StatusQueued; exampleItem "b" StatusQueued]
       (NewStatePersistence "queue.json"))
    (mkWorld ∅ []) NewWorker Idle.

Definition exampleWorld : World :=
  mkWorld {["queue.json" := "[{a: encoding}, {b: complete}]"]} [].

End Encode.


(** * internal/encode/handbrake.go: the HandBrake supervisor *)

Module HandBrake.
Import GoStrings.

(** ** The reader of the pseudo-terminal

    The goroutine in [Encode] reads HandBrake's output one byte at a time
    and works on a line whenever a line feed or a carriage return arrives
    and the line gathered so far is not empty.  [readLines currentLine
    input] is the sequence of lines it works on, for the bytes [input] up to
    the end of the output and a context that is not cancelled meanwhile. *)
Definition isDelimiter (b : ascii) : bool :=
  Ascii.eqb b "010" || Ascii.eqb b "013".

Fixpoint readLines (currentLine : string) (input : string) : list string :=
  match input with
  | EmptyString => []
  | String b input' =>
      if isDelimiter b then
        let line := currentLine in
        if negb (String.eqb line EmptyString)
        then line :: readLines EmptyString input'
        else readLines EmptyString input'
      else readLines (String.append currentLine (String b EmptyString)) input'
  end.

(** Whether a string holds a line feed or a carriage return. *)
Definition hasDelimiter (s : string) : bool :=
  hasByte "010" s || hasByte "013" s.

(** Whether the reader passes a line on to the log channel. *)
Definition logged (line : string) : bool :=
  negb (HasPrefix line "Encoding:") && negb (HasPrefix line "Progress:").

(** Lines [line] each followed by one delimiter [d]. *)
Fixpoint terminated (ls : list (string * ascii)) : string :=
  match ls with
  | [] => EmptyString
  | (line, d) :: ls' =>
      String.append line (String d (terminated ls'))
  end.

(** ** Pause, Resume and Cancel

    [hb.cmd] is nil until the first [Encode]; [Encode] stores a new command,
    whose [Process] is nil until [pty.Start] has started it. *)
Inductive Cmd := CmdNil | CmdCreated | CmdStarted.

Record HandBrake := mkHandBrake {
  cmd : Cmd;
  paused : bool
}.

Definition NewHandBrake : HandBrake := mkHandBrake CmdNil false.

Inductive Signal := SIGSTOP | SIGCONT | SIGKILL.

(** [hb.cmd != nil && hb.cmd.Process != nil] *)
Definition hasProcess (hb : HandBrake) : bool :=
  match cmd hb with
  | CmdStarted => true
  | _ => false
  end.

Definition Pause (hb : HandBrake) : HandBrake * option Signal :=
  if hasProcess hb && negb (paused hb)
  then (mkHandBrake (cmd hb) true, Some SIGSTOP)
  else (hb, None).

Definition Resume (hb : HandBrake) : HandBrake * option Signal :=
  if hasProcess hb && paused hb
  then (mkHandBrake (cmd hb) false, Some SIGCONT)
  else (hb, None).

Definition Cancel (hb : HandBrake) : HandBrake * option Signal :=
  if hasProcess hb then (hb, Some SIGKILL) else (hb, None).

(** What happens to a [HandBrake] value: [Encode] stores the command, then
    [pty.Start] starts it (or fails, and the command stays without a
    process); the worker calls [Pause], [Resume] and [Cancel] from its own
    goroutine at any moment. *)
Inductive Op := OpCommand | OpStart | OpPause | OpResume | OpCancel.

Definition step (hb : HandBrake) (op : Op) : HandBrake * option Signal :=
  match op with
  | OpCommand => (mkHandBrake CmdCreated (paused hb), None)
  | OpStart =>
      match cmd hb with
      | CmdCreated => (mkHandBrake CmdStarted (paused hb), None)
      | _ => (hb, None)
      end
  | OpPause => Pause hb
  | OpResume => Resume hb
  | OpCancel => Cancel hb
  end.

(** The signals sent along [ops], oldest first, and the final state. *)
Fixpoint steps (hb : HandBrake) (ops : list Op) : HandBrake * list Signal :=
  match ops with
  | [] => (hb, [])
  | op :: ops' =>
      let '(hb1, sig) := step hb op in
      let '(hb2, sigs) := steps hb1 ops' in
      (hb2, match sig with Some s => s :: sigs | None => sigs end)
  end.

(** SIGSTOP and SIGCONT take turns in [sigs]; [stopped] tells whether the
    last one before [sigs] was a SIGSTOP. *)
Fixpoint alternate (stopped : bool) (sigs : list Signal) : bool :=
  match sigs with
  | [] => true
  | SIGSTOP :: sigs' => negb stopped && alternate true sigs'
  | SIGCONT :: sigs' => stopped && alternate false sigs'
  | SIGKILL :: sigs' => alternate stopped sigs'
  end.

End HandBrake.

(** * internal/ui: the model of the terminal interface

    Of the fields of [Model], those that the handling of keys reads or
    writes, and the log; the progress, ETA, size and error fields are left
    out. *)

Module UI.
Import GoStrings.

Inductive RipState :=
| StateWaiting
| StateScanning
| StateSelectingTitles
| StateRipping
| StateComplete
| StateError.

(** A title offered for selection. *)
Record Title := mkTitle {
  ID : Z;
  Name : string;
  Duration : string;
  Size : string;
  Selected : bool
}.

Definition setSelected (b : bool) (t : Title) : Title :=
  mkTitle (ID t) (Name t) (Duration t) (Size t) b.

Record Model := mkModel {
  ripState : RipState;
  ripStatus : string;
  ripPaused : bool;
  availableTitles : list Title;
  selectedCursor : Z;
  currentEncode : option Encode.QueueItem;
  encodePaused : bool;
  showLogs : bool;
  logLines : list string;
  maxLogs : Z
}.

Definition NewModel : Model :=
  mkModel StateWaiting EmptyString false [] 0 None false false [] 500.

Definition setRipState (v : RipState) (m : Model) : Model :=
  mkModel v (ripStatus m) (ripPaused m) (availableTitles m)
    (selectedCursor m) (currentEncode m) (encodePaused m) (showLogs m)
    (logLines m) (maxLogs m).

Definition setRipStatus (v : string) (m : Model) : Model :=
  mkModel (ripState m) v (ripPaused m) (availableTitles m)
    (selectedCursor m) (currentEncode m) (encodePaused m) (showLogs m)
    (logLines m) (maxLogs m).

Definition setRipPaused (v : bool) (m : Model) : Model :=
  mkModel (ripState m) (ripStatus m) v (availableTitles m)
    (selectedCursor m) (currentEncode m) (encodePaused m) (showLogs m)
    (logLines m) (maxLogs m).

Definition setAvailableTitles (v : list Title) (m : Model) : Model :=
  mkModel (ripState m) (ripStatus m) (ripPaused m) v
    (selectedCursor m) (currentEncode m) (encodePaused m) (showLogs m)
    (logLines m) (maxLogs m).

Definition setSelectedCursor (v : Z) (m : Model) : Model :=
  mkModel (ripState m) (ripStatus m) (ripPaused m) (availableTitles m)
    v (currentEncode m) (encodePaused m) (showLogs m)
    (logLines m) (maxLogs m).

Definition setCurrentEncode (v : option Encode.QueueItem) (m : Model)
  : Model :=
  mkModel (ripState m) (ripStatus m) (ripPaused m) (availableTitles m)
    (selectedCursor m) v (encodePaused m) (showLogs m)
    (logLines m) (maxLogs m).

Definition setEncodePaused (v : bool) (m : Model) : Model :=
  mkModel (ripState m) (ripStatus m) (ripPaused m) (availableTitles m)
    (selectedCursor m) (currentEncode m) v (showLogs m)
    (logLines m) (maxLogs m).

Definition setShowLogs (v : bool) (m : Model) : Model :=
  mkModel (ripState m) (ripStatus m) (ripPaused m) (availableTitles m)
    (selectedCursor m) (currentEncode m) (encodePaused m) v
    (logLines m) (maxLogs m).

Definition setLogLines (v : list string) (m : Model) : Model :=
  mkModel (ripState m) (ripStatus m) (ripPaused m) (availableTitles m)
    (selectedCursor m) (currentEncode m) (encodePaused m) (showLogs m)
    v (maxLogs m).

(** The messages of [Update].  [EncodeProgressMsg] carries, besides its
    two fields, what [GetCurrent] answers after the handler's
    [UpdateProgress]; [RipProgressMsg], [QueueUpdateMsg] and
    [tea.WindowSizeMsg] only touch fields that are left out. *)
Inductive Msg :=
| KeyMsg (key : string)
| DiskInsertedMsg
| StatusUpdateMsg (status : string)
| ScanCompleteMsg
| ShowTitleSelectionMsg (titles : list Title)
| RipProgressMsg
| RipCompleteMsg
| EncodeProgressMsg (itemID : string) (progress : spec_float)
    (current : option Encode.QueueItem)
| EncodeCompleteMsg
| ErrorMsg
| QueueUpdateMsg
| LogMsg (line : string)
| CancelAndEjectMsg
| ScanForMissingMsg
| WindowSizeMsg.

(** What a handler does besides changing the model. *)
Inductive Effect :=
| Quit                                       (* tea.Quit *)
| Command (msg : Msg)                        (* a tea.Cmd that yields msg *)
| SendSelection (selectedIDs : list Z)       (* m.titleSelectionCh <- ids *)
| SendControl (ctrl : Encode.WorkerControl)  (* m.workerControl <- ctrl *)
| QueueUpdateProgress (itemID : string) (progress : spec_float)
| QueueClearCompleted
| QueueRetryFailed
| CancelRip                                  (* m.cancelRipCh <- struct{}{} *)
| ScanRequest                                (* m.scanRequestCh <- struct{}{} *).

(** [m.availableTitles[i].Selected = !m.availableTitles[i].Selected];
    [None] when the index is out of range, where Go panics. *)
Definition toggle (i : Z) (titles : list Title) : option (list Title) :=
  if i <? 0 then None
  else match titles !! Z.to_nat i with
       | Some t =>
           Some (<[Z.to_nat i := setSelected (negb (Selected t)) t]> titles)
       | None => None
       end.

(** [handleKeyPress]; [key] is [msg.String()].  [None] is a run-time
    panic. *)
Definition handleKeyPress (key : string) (m : Model)
  : option (Model * list Effect) :=
  match ripState m with
  | StateSelectingTitles =>
      if String.eqb key "q" || String.eqb key "ctrl+c" then Some (m, [Quit])
      else if String.eqb key "up" || String.eqb key "k" then
        Some (if 0 <? selectedCursor m
              then setSelectedCursor (selectedCursor m - 1) m
              else m, [])
      else if String.eqb key "down" || String.eqb key "j" then
        Some (if selectedCursor m
                 <? Z.of_nat (length (availableTitles m)) - 1
              then setSelectedCursor (selectedCursor m + 1) m
              else m, [])
      else if String.eqb key " " then
        if selectedCursor m <? Z.of_nat (length (availableTitles m)) then
          match toggle (selectedCursor m) (availableTitles m) with
          | Some titles => Some (setAvailableTitles titles m, [])
          | None => None
          end
        else Some (m, [])
      else if String.eqb key "a" then
        Some (setAvailableTitles
                (map (setSelected true) (availableTitles m)) m, [])
      else if String.eqb key "n" then
        Some (setAvailableTitles
                (map (setSelected false) (availableTitles m)) m, [])
      else if String.eqb key "enter" then
        let selectedIDs :=
          map ID (List.filter Selected (availableTitles m)) in
        if 0 <? Z.of_nat (length selectedIDs)
        then Some (setRipState StateRipping m, [SendSelection selectedIDs])
        else Some (m, [])
      else Some (m, [])
  | _ =>
      if String.eqb key "q" || String.eqb key "ctrl+c" then Some (m, [Quit])
      else if String.eqb key "x" || String.eqb key "e" then
        match ripState m with
        | StateScanning | StateRipping | StateSelectingTitles =>
            Some (m, [Command CancelAndEjectMsg])
        | _ => Some (m, [])
        end
      else if String.eqb key "p" then Some (setRipPaused true m, [])
      else if String.eqb key "r" then Some (setRipPaused false m, [])
      else if String.eqb key " " then
        match currentEncode m with
        | Some _ =>
            if encodePaused m
            then Some (setEncodePaused false m,
                       [SendControl Encode.WorkerResume])
            else Some (setEncodePaused true m,
                       [SendControl Encode.WorkerPause])
        | None => Some (m, [])
        end
      else if String.eqb key "s" then
        match currentEncode m with
        | Some _ =>
            Some (setEncodePaused false m, [SendControl Encode.WorkerStop])
        | None => Some (m, [])
        end
      else if String.eqb key "d" then
        match currentEncode m with
        | Some _ =>
            Some (setEncodePaused false m, [SendControl Encode.WorkerDelete])
        | None => Some (m, [])
        end
      else if String.eqb key "c" then Some (m, [QueueClearCompleted])
      else if String.eqb key "l" then
        Some (setShowLogs (negb (showLogs m)) m, [])
      else if String.eqb key "t" then Some (m, [QueueRetryFailed])
      else if String.eqb key "a" then Some (m, [Command ScanForMissingMsg])
      else Some (m, [])
  end.

(** The [LogMsg] case: append, then keep the last [maxLogs] lines. *)
Definition appendLog (line : string) (m : Model) : Model :=
  let lines := logLines m ++ [line] in
  if maxLogs m <? Z.of_nat (length lines)
  then setLogLines
         (List.skipn (Z.to_nat (Z.of_nat (length lines) - maxLogs m)) lines) m
  else setLogLines lines m.

Definition Update (msg : Msg) (m : Model) : option (Model * list Effect) :=
  match msg with
  | KeyMsg key => handleKeyPress key m
  | DiskInsertedMsg =>
      Some (setRipStatus "Initializing scan..." (setRipState StateScanning m),
            [])
  | StatusUpdateMsg status => Some (setRipStatus status m, [])
  | ScanCompleteMsg =>
      Some (setRipStatus EmptyString (setRipState StateRipping m), [])
  | ShowTitleSelectionMsg titles =>
      Some (setRipState StateSelectingTitles
              (setSelectedCursor 0 (setAvailableTitles titles m)), [])
  | RipProgressMsg => Some (m, [])
  | RipCompleteMsg => Some (setRipState StateComplete m, [])
  | EncodeProgressMsg itemID progress current =>
      Some (setCurrentEncode current m, [QueueUpdateProgress itemID progress])
  | EncodeCompleteMsg => Some (setCurrentEncode None m, [])
  | ErrorMsg => Some (setRipState StateError m, [])
  | QueueUpdateMsg => Some (m, [])
  | LogMsg line => Some (appendLog line m, [])
  | CancelAndEjectMsg =>
      Some (setRipStatus EmptyString (setRipState StateWaiting m),
            [CancelRip])
  | ScanForMissingMsg => Some (m, [ScanRequest])
  | WindowSizeMsg => Some (m, [])
  end.

(** The program's loop: the messages in the order they arrive, the effects
    in the order they happen. *)
Fixpoint updates (msgs : list Msg) (m : Model)
  : option (Model * list Effect) :=
  match msgs with
  | [] => Some (m, [])
  | msg :: msgs' =>
      match Update msg m with
      | None => None
      | Some (m1, effects1) =>
          match updates msgs' m1 with
          | None => None
          | Some (m2, effects2) => Some (m2, effects1 ++ effects2)
          end
      end
  end.

(** The commands the interface sent to the worker. *)
Definition controlsOf (effects : list Effect) : list Encode.WorkerControl :=
  omap (fun e => match e with SendControl c => Some c | _ => None end)
    effects.

(** What every key press keeps, and what it can send: [m] before, [m'] and
    [effects] after. *)
Definition keeps (m m' : Model) (effects : list Effect) : Prop :=
  0 <= selectedCursor m' /\
  map ID (availableTitles m') = map ID (availableTitles m) /\
  logLines m' = logLines m /\ maxLogs m' = maxLogs m /\
  Forall (fun e =>
            match e with
            | SendSelection ids =>
                ids <> [] /\
                ids = map ID (List.filter Selected (availableTitles m))
            | _ => True
            end) effects /\
  forall wk : Encode.Worker,
    (encodePaused m = true -> Encode.paused wk = true) ->
    encodePaused m' = true ->
    Encode.paused (Encode.handleControls wk (controlsOf effects)) = true.

(** The lines the interface was asked to log. *)
Definition loggedLines (msgs : list Msg) : list string :=
  omap (fun msg => match msg with LogMsg line => Some line | _ => None end)
    msgs.

End UI.

(** * internal/app: how [processDisc] uses the scan and the selection *)

Module App.
Import GoStrings.

(** ** [formatSize]

    The text is [fmt.Sprintf("%d B", bytes)] below 1024 bytes, and otherwise
    [fmt.Sprintf("%.1f %cB", float64(bytes)/float64(div), "KMGTPE"[exp])]
    for the [div] and [exp] that the loop finds.  The model stops before the
    floating-point division: it gives the text of the first kind, or the
    divisor and the unit letter of the second. *)
Inductive Size :=
| SizeBytes (text : string)
| SizeScaled (bytes div : Z) (unit : ascii).

(** [for n := bytes / unit; n >= unit; n /= unit { div *= unit; exp++ }];
    [None] when the fuel runs out. *)
Fixpoint sizeLoop (fuel : nat) (n div exp : Z) : option (Z * Z) :=
  if 1024 <=? n then
    match fuel with
    | O => None
    | S fuel' =>
        sizeLoop fuel' (Z.quot n 1024) (Makemkv.mul64 div 1024) (exp + 1)
    end
  else Some (div, exp).

(** [None] when the loop does not end within the fuel, or when the index
    into "KMGTPE" is out of range, where Go panics. *)
Definition formatSize (bytes : Z) : option Size :=
  if bytes <? 1024 then Some (SizeBytes (String.append (Itoa bytes) " B"))
  else
    match sizeLoop 64 (Z.quot bytes 1024) 1024 0 with
    | None => None
    | Some (div, exp) =>
        if exp <? 0 then None
        else match String.get (Z.to_nat exp) "KMGTPE" with
             | Some unit => Some (SizeScaled bytes div unit)
             | None => None
             end
    end.

Section Formats.
(** [formatDuration] and [formatSize] go through floating point and [fmt];
    the texts they produce are only shown, so any two functions stand for
    them here. *)
Variables (formatDuration formatSize : Z -> string).

(** The titles [processDisc] offers for manual selection. *)
Definition uiTitles (titles : list Makemkv.Title) : list UI.Title :=
  map (fun t =>
         UI.mkTitle (Makemkv.ID t) (Makemkv.Name t)
           (formatDuration (Makemkv.Duration t)) (formatSize (Makemkv.Size t))
           false)
    titles.

End Formats.

(** What one id adds in the loop below. *)
Definition pick (titles : list Makemkv.Title) (id : Z)
  : list Makemkv.Title :=
  match List.find (fun t => Makemkv.ID t =? id) titles with
  | Some t => [t]
  | None => []
  end.

(** The loop [for _, id := range selectedIDs] of [processDisc]: for each
    id, the first title that carries it, if any. *)
Definition selectedTitlesOf (selectedIDs : list Z)
    (titles : list Makemkv.Title) : list Makemkv.Title :=
  fold_left
    (fun selectedTitles id =>
       match List.find (fun t => Makemkv.ID t =? id) titles with
       | Some t => selectedTitles ++ [t]
       | None => selectedTitles
       end)
    selectedIDs [].

(** ** [scanForMissingEncodes]

    What the directory listing and the file system answer is input of the
    model.  For a file of a raw folder: its name, whether it is a directory,
    whether its lowered name ends in ".mkv", its size, whether [os.Stat]
    finds the encoded file, and, should the file be added, the UUID drawn
    for the item and the outcome of the save. *)
Record RawFile := mkRawFile {
  fileName : string;
  fileIsDir : bool;
  fileIsMKV : bool;
  fileSize : Z;
  encodedExists : bool;
  newID : string;
  saveFault : Encode.SaveFault
}.

(** An entry of the output directory; [rawFiles] is [None] when the raw
    folder does not exist or cannot be read. *)
Record DiscDir := mkDiscDir {
  dirName : string;
  dirIsDir : bool;
  rawFiles : option (list RawFile)
}.

Section Scan.
Context `{Encode.JSON}.
(** [filepath.Join] of two elements. *)
Variable Join : string -> string -> string.

(** The loop state: the queue, the files, [addedCount]. *)
Definition ScanState : Type := Encode.Queue * Encode.World * Z.

Definition scanFile (outputDir : string) (dir : DiscDir) (st : ScanState)
    (rawFile : RawFile) : ScanState :=
  let '(q, w, addedCount) := st in
  let discFolder := Join outputDir (dirName dir) in
  let rawFolder := Join discFolder "raw" in
  let encodedFolder := Join discFolder "encoded" in
  if fileIsDir rawFile || negb (fileIsMKV rawFile) then st
  else
    let sourcePath := Join rawFolder (fileName rawFile) in
    let destPath := Join encodedFolder (fileName rawFile) in
    if encodedExists rawFile then st
    else if Encode.HasSourcePath sourcePath q then st
    else
      let discType :=
        if 8 * 1024 * 1024 * 1024 <? fileSize rawFile
        then Disk.DiscTypeBluRay else Disk.DiscTypeDVD in
      let item :=
        Encode.mkQueueItem (newID rawFile) sourcePath destPath discType
          (dirName dir) (fileName rawFile) Encode.StatusQueued Encode.zero
          0 None None EmptyString in
      match Encode.Add item (saveFault rawFile) q w with
      | (q, w, Some _) => (q, w, addedCount)
      | (q, w, None) => (q, w, addedCount + 1)
      end.

Definition scanDir (outputDir : string) (st : ScanState) (dir : DiscDir)
  : ScanState :=
  if negb (dirIsDir dir) then st
  else match rawFiles dir with
       | None => st
       | Some files => fold_left (scanFile outputDir dir) files st
       end.

(** [scanForMissingEncodes] once the output directory has been read. *)
Definition scanForMissingEncodes (outputDir : string) (dirs : list DiscDir)
    (q : Encode.Queue) (w : Encode.World) : ScanState :=
  fold_left (scanDir outputDir) dirs (q, w, 0).

(** A file that the scan wants in the queue: a regular file with an MKV
    name that has no encoded version. *)
Definition wanted (rawFile : RawFile) : bool :=
  negb (fileIsDir rawFile) && fileIsMKV rawFile
  && negb (encodedExists rawFile).

(** The source path of a raw file, and the item the scan builds for it. *)
Definition scanSource (outputDir : string) (dir : DiscDir)
    (rawFile : RawFile) : string :=
  Join (Join (Join outputDir (dirName dir)) "raw") (fileName rawFile).

Definition scanItem (outputDir : string) (dir : DiscDir)
    (rawFile : RawFile) : Encode.QueueItem :=
  Encode.mkQueueItem (newID rawFile) (scanSource outputDir dir rawFile)
    (Join (Join (Join outputDir (dirName dir)) "encoded") (fileName rawFile))
    (if 8 * 1024 * 1024 * 1024 <? fileSize rawFile
     then Disk.DiscTypeBluRay else Disk.DiscTypeDVD)
    (dirName dir) (fileName rawFile) Encode.StatusQueued Encode.zero
    0 None None EmptyString.

(** Whether [Save] of [its] returns nil under [fault]. *)
Definition saveSucceeds (its : list Encode.QueueItem)
    (fault : Encode.SaveFault) : bool :=
  match fault, Encode.Marshal its with
  | Encode.NoFault, Some _ => true
  | _, _ => false
  end.

(** How many of the items [added] one after the other to the items [its],
    each under its own outcome of the file system, were saved. *)
Fixpoint savedCount (its : list Encode.QueueItem)
    (added : list (Encode.QueueItem * Encode.SaveFault)) : Z :=
  match added with
  | [] => 0
  | (item, fault) :: added' =>
      (if saveSucceeds (its ++ [item]) fault then 1 else 0)
      + savedCount (its ++ [item]) added'
  end.

(** A raw file of the listing [dirs] that the scan wants. *)
Definition listed (dirs : list DiscDir) (entry : DiscDir * RawFile) : Prop :=
  fst entry ∈ dirs /\ dirIsDir (fst entry) = true /\
  exists files,
    rawFiles (fst entry) = Some files /\ snd entry ∈ files /\
    wanted (snd entry) = true.

(** What the scan has done so far: [added] are the files whose items it
    appended to the queue [q0] it started with, in order. *)
Definition scanning (outputDir : string) (q0 : Encode.Queue)
    (dirs : list DiscDir) (st : ScanState)
    (added : list (DiscDir * RawFile)) : Prop :=
  Encode.items (fst (fst st))
  = Encode.items q0
    ++ map (fun e => scanItem outputDir (fst e) (snd e)) added /\
  snd st
  = savedCount (Encode.items q0)
      (map (fun e => (scanItem outputDir (fst e) (snd e), saveFault (snd e)))
         added) /\
  Forall (listed dirs) added /\
  (NoDup (map Encode.SourcePath (Encode.items q0)) ->
   NoDup (map Encode.SourcePath (Encode.items (fst (fst st))))).

End Scan.

End App.

(** * internal/disk/detector.go: polling the drive *)

Module Detector.

Definition CDS_NO_INFO : Z := 0.
Definition CDS_NO_DISC : Z := 1.
Definition CDS_TRAY_OPEN : Z := 2.
Definition CDS_DRIVE_NOT_READY : Z := 3.
Definition CDS_DISC_OK : Z := 4.

(** What [checkDriveStatus] returns: [None] for an error, which comes with
    the status [CDS_NO_INFO]. *)
Definition Check := option Z.

(** One tick of the loop in [Start]: [first] is the check of the tick,
    [second] the check made two seconds later if a disc seems to have been
    inserted.  The result is the new [lastStatus] and whether a disc was
    sent on the channel. *)
Definition tick (lastStatus : Z) (first second : Check) : Z * bool :=
  match first with
  | None => (lastStatus, false)
  | Some status =>
      if negb (lastStatus =? CDS_DISC_OK) && (status =? CDS_DISC_OK) then
        match second with
        | Some status => (status, status =? CDS_DISC_OK)
        | None => (CDS_NO_INFO, false)
        end
      else (status, false)
  end.

(** The loop: the final [lastStatus] and, for every tick, whether it sent a
    disc. *)
Fixpoint ticks (lastStatus : Z) (checks : list (Check * Check))
  : Z * list bool :=
  match checks with
  | [] => (lastStatus, [])
  | (first, second) :: checks' =>
      let '(lastStatus, sent) := tick lastStatus first second in
      let '(final, sents) := ticks lastStatus checks' in
      (final, sent :: sents)
  end.

Definition Start (checks : list (Check * Check)) : Z * list bool :=
  ticks CDS_NO_DISC checks.

(** A tick that does not see the disc go: its check fails or reads
    [CDS_DISC_OK]. *)
Definition discStays (c : Check * Check) : bool :=
  match fst c with
  | None => true
  | Some status => status =? CDS_DISC_OK
  end.

End Detector.

(** * Properties

    The claims C1 to C10 of the specification, each settled against the
    definitions above. *)

(** ** SanitizeFilename *)

Section SanitizeFilenameProperties.
Import GoStrings Disk.

Lemma replaceByte_clean (c : ascii) : replaceByte replacer c ∉ problematic.
Proof.
  destruct c as [[] [] [] [] [] [] [] []]; vm_compute;
    intros Hin; repeat (apply elem_of_cons in Hin as [Hin | Hin]; [discriminate Hin|]);
    by apply elem_of_nil in Hin.
Qed.

Lemma Replace_clean (s : string) (c : ascii) :
  c ∈ bytes (Replace replacer s) -> c ∉ problematic.
Proof.
  induction s as [|a s IH]; cbn.
  - by intros ?%elem_of_nil.
  - intros [-> | Hin]%elem_of_cons; [apply replaceByte_clean | by apply IH].
Qed.

Lemma TrimLeftBy_incl f (s : string) (c : ascii) :
  c ∈ bytes (TrimLeftBy f s) -> c ∈ bytes s.
Proof.
  induction s as [|a s IH]; cbn; [done|].
  destruct (f a); cbn; [|done].
  intros Hin. apply elem_of_cons. right. by apply IH.
Qed.

Lemma TrimRightBy_incl f (s : string) (c : ascii) :
  c ∈ bytes (TrimRightBy f s) -> c ∈ bytes s.
Proof.
  revert c. induction s as [|a s IH]; cbn; [done|]. intros c.
  destruct (TrimRightBy f s) as [|b r] eqn:E.
  - destruct (f a); cbn; [by intros ?%elem_of_nil|].
    intros [-> | ?%elem_of_nil]%elem_of_cons; [|done]. apply elem_of_cons; auto.
  - cbn. intros [-> | Hin]%elem_of_cons; apply elem_of_cons; [auto|].
    right. apply IH. exact Hin.
Qed.

Lemma TrimLeftBy_head f (s : string) (c : ascii) :
  head (bytes (TrimLeftBy f s)) = Some c -> f c = false.
Proof.
  induction s as [|a s IH]; cbn; [done|].
  destruct (f a) eqn:E; cbn; [done|]. by intros [= <-].
Qed.

Lemma TrimRightBy_head f (s : string) (c : ascii) :
  head (bytes (TrimRightBy f s)) = Some c -> head (bytes s) = Some c.
Proof.
  destruct s as [|a s]; cbn; [done|].
  destruct (TrimRightBy f s); [destruct (f a)|]; cbn; done.
Qed.

Lemma TrimRightBy_last f (s : string) (c : ascii) :
  last (bytes (TrimRightBy f s)) = Some c -> f c = false.
Proof.
  induction s as [|a s IH]; cbn; [done|].
  destruct (TrimRightBy f s) as [|b r] eqn:E.
  - destruct (f a) eqn:Ea; cbn; [done|]. by intros [= <-].
  - cbn in *. exact IH.
Qed.

(** C10.  For every input, [SanitizeFilename] returns a non-empty string
    that contains none of the characters / \ : * ? < > |, double quote and
    space, and that neither begins nor ends with an underscore or a dot;
    when replacing and trimming leave nothing, it returns "Unnamed_Disc". *)
Theorem SanitizeFilename_postcondition (name : string) :
  let result := SanitizeFilename name in
  result <> EmptyString /\
  (forall c, c ∈ bytes result -> c ∉ problematic) /\
  (forall c, head (bytes result) = Some c -> c <> "_"%char /\ c <> "."%char) /\
  (forall c, last (bytes result) = Some c -> c <> "_"%char /\ c <> "."%char) /\
  (Trim (Replace replacer name) "_." = EmptyString ->
   result = "Unnamed_Disc").
Proof.
  cbn zeta. unfold SanitizeFilename.
  assert (Hcut : forall c, inCutset "_." c = false ->
                           c <> "_"%char /\ c <> "."%char).
  { intros c Hc. split; intros ->; discriminate Hc. }
  destruct (String.eqb_spec (Trim (Replace replacer name) "_.") EmptyString)
    as [E | E].
  - split; [done|]. split; [|split; [|split]].
    + intros c Hc. vm_compute in Hc.
      repeat (apply elem_of_cons in Hc as [-> | Hc];
              [intros Hp;
               repeat (apply elem_of_cons in Hp as [Hp | Hp];
                       [discriminate Hp|]);
               by apply elem_of_nil in Hp|]).
      by apply elem_of_nil in Hc.
    + intros c [= <-]. by split.
    + intros c [= <-]. by split.
    + done.
  - split; [done|]. split; [|split; [|split]].
    + intros c Hin. eapply Replace_clean.
      by eapply TrimLeftBy_incl, TrimRightBy_incl.
    + intros c Hc. by eapply Hcut, TrimLeftBy_head, TrimRightBy_head.
    + intros c Hc. by eapply Hcut, TrimRightBy_last.
    + done.
Qed.

Lemma SanitizeFilename_postcondition_witness :
  let result := SanitizeFilename "..My Disc: 1?_" in
  result <> EmptyString /\
  (forall c, c ∈ bytes result -> c ∉ problematic) /\
  (forall c, head (bytes result) = Some c -> c <> "_"%char /\ c <> "."%char) /\
  (forall c, last (bytes result) = Some c -> c <> "_"%char /\ c <> "."%char) /\
  (Trim (Replace replacer "..My Disc: 1?_") "_." = EmptyString ->
   result = "Unnamed_Disc").
Proof. exact (SanitizeFilename_postcondition "..My Disc: 1?_"). Defined.

Example SanitizeFilename_disc : SanitizeFilename "..My Disc: 1?_" = "My_Disc__1".
Proof. reflexivity. Qed.

Example SanitizeFilename_nothing_left : SanitizeFilename "_. ._" = "Unnamed_Disc".
Proof. reflexivity. Qed.

End SanitizeFilenameProperties.

(** ** Title selection *)

Section SelectTitlesProperties.
Import Makemkv.

Lemma maxDuration_fold (titles : list Title) (acc : Z) :
  let m :=
    fold_left
      (fun maxDuration title =>
         if maxDuration <? Duration title then Duration title
         else maxDuration)
      titles acc in
  acc <= m /\
  Forall (fun t => Duration t <= m) titles /\
  (m = acc \/ exists t, t ∈ titles /\ Duration t = m).
Proof.
  revert acc. induction titles as [|t titles IH]; intros acc; cbn.
  - split; [lia|]. split; [constructor | by left].
  - destruct (IH (if acc <? Duration t then Duration t else acc))
      as (Hle & Hall & Hwit).
    destruct (Z.ltb_spec acc (Duration t)) as [Hlt | Hge].
    + split; [lia|]. split; [by constructor|].
      right. destruct Hwit as [-> | (u & Hu & <-)].
      * exists t. split; [apply elem_of_cons; auto | done].
      * exists u. split; [apply elem_of_cons; auto | done].
    + split; [lia|]. split; [constructor; [lia | done]|].
      destruct Hwit as [-> | (u & Hu & <-)]; [by left|].
      right. exists u. split; [apply elem_of_cons; auto | done].
Qed.

Lemma episode_fold (episodeThreshold : Z) (titles acc : list Title) :
  fold_left
    (fun selected title =>
       if episodeThreshold <=? Duration title
       then selected ++ [title] else selected)
    titles acc
  = acc ++ List.filter (fun t => episodeThreshold <=? Duration t) titles.
Proof.
  revert acc. induction titles as [|t titles IH]; intros acc; cbn.
  - by rewrite app_nil_r.
  - rewrite IH. destruct (episodeThreshold <=? Duration t); [|done].
    by rewrite <- app_assoc.
Qed.

(** The loop of [findLongestTitle] keeps the first title of maximal
    duration: everything before it is strictly shorter, nothing after it is
    longer. *)
Lemma longest_fold (rest pre mid : list Title) (cur : Title) :
  Forall (fun u => Duration u < Duration cur) pre ->
  Forall (fun u => Duration u <= Duration cur) mid ->
  exists pre' t post',
    fold_left
      (fun longest title =>
         if Duration longest <? Duration title then title else longest)
      rest cur = t /\
    pre ++ cur :: mid ++ rest = pre' ++ t :: post' /\
    Forall (fun u => Duration u < Duration t) pre' /\
    Forall (fun u => Duration u <= Duration t) post'.
Proof.
  revert pre mid cur. induction rest as [|x rest IH]; intros pre mid cur Hpre Hmid.
  - exists pre, cur, mid. by rewrite app_nil_r.
  - cbn. destruct (Z.ltb_spec (Duration cur) (Duration x)) as [Hlt | Hge].
    + destruct (IH (pre ++ cur :: mid) [] x) as (pre' & t & post' & Ht & Heq & H1 & H2).
      * apply Forall_app. split; [|constructor; [done|]].
        -- eapply Forall_impl; [exact Hpre|]. cbn. lia.
        -- eapply Forall_impl; [exact Hmid|]. cbn. lia.
      * constructor.
      * exists pre', t, post'. split; [done|]. split; [|done].
        rewrite <- Heq. cbn. by rewrite <- app_assoc.
    + destruct (IH pre (mid ++ [x]) cur) as (pre' & t & post' & Ht & Heq & H1 & H2).
      * done.
      * apply Forall_app. split; [done|]. constructor; [lia | constructor].
      * exists pre', t, post'. split; [done|]. split; [|done].
        rewrite <- Heq. by rewrite <- app_assoc.
Qed.

Lemma findLongestTitle_first_max (t0 : Title) (titles : list Title) :
  exists pre t post,
    findLongestTitle (t0 :: titles) = t /\
    t0 :: titles = pre ++ t :: post /\
    Forall (fun u => Duration u < Duration t) pre /\
    Forall (fun u => Duration u <= Duration t) post.
Proof.
  destruct (longest_fold titles [] [] t0) as (pre & t & post & H1 & H2 & H3 & H4);
    [constructor | constructor |].
  exists pre, t, post. done.
Qed.

(** What [SelectTitles] returns, for all titles and thresholds.  It is in
    movie mode when the running maximum, which starts from zero, reaches the
    movie threshold: that is when some title reaches the threshold, and
    also when the threshold is zero or negative and no title reaches it. *)
Lemma SelectTitles_rule
    (titles : list Title) (movieThreshold episodeThreshold : Z) :
  (titles = [] -> SelectTitles titles movieThreshold episodeThreshold = []) /\
  ((exists t, t ∈ titles /\ movieThreshold <= Duration t) \/
   (titles <> [] /\ movieThreshold <= 0) ->
   exists pre t post,
     titles = pre ++ t :: post /\
     SelectTitles titles movieThreshold episodeThreshold = [t] /\
     Forall (fun u => Duration u < Duration t) pre /\
     Forall (fun u => Duration u <= Duration t) post) /\
  ((forall t, t ∈ titles -> Duration t < movieThreshold) ->
   0 < movieThreshold ->
   SelectTitles titles movieThreshold episodeThreshold
   = List.filter (fun t => episodeThreshold <=? Duration t) titles).
Proof.
  split; [by intros ->|].
  destruct titles as [|t0 titles].
  { split; [|done]. by intros [(t & ?%elem_of_nil & _) | [? _]]. }
  unfold SelectTitles.
  pose proof (maxDuration_fold (t0 :: titles) 0) as Hmax; cbn zeta in Hmax.
  destruct Hmax as (H0 & Hall & Hwit).
  set (maxDuration := fold_left _ (t0 :: titles) 0) in *.
  split.
  - intros Hmode.
    assert (movieThreshold <= maxDuration) as Hmovie.
    { destruct Hmode as [(t & Hin & Ht) | [_ Hle]]; [|lia].
      rewrite Forall_forall in Hall. specialize (Hall t Hin).
      cbn beta in Hall. lia. }
    destruct (Z.leb_spec movieThreshold maxDuration); [|lia].
    destruct (findLongestTitle_first_max t0 titles)
      as (pre & l & post & Hl & Heq & Hpre & Hpost).
    exists pre, l, post. by rewrite Hl.
  - intros Hshort Hpos.
    assert (maxDuration < movieThreshold) as Hepisode.
    { destruct Hwit as [-> | (u & Hu & <-)]; [done | by apply Hshort]. }
    destruct (Z.leb_spec movieThreshold maxDuration); [lia|].
    apply episode_fold.
Qed.


Example SelectTitles_movie :
  map ID (SelectTitles
            [mkTitle 0 (70 * Minute) EmptyString 0 0;
             mkTitle 1 (5 * Minute) EmptyString 0 0]
            (60 * Minute) (18 * Minute)) = [0].
Proof. reflexivity. Qed.

Example SelectTitles_episodes :
  map ID (SelectTitles
            [mkTitle 0 (30 * Minute) EmptyString 0 0;
             mkTitle 1 (25 * Minute) EmptyString 0 0;
             mkTitle 2 (10 * Minute) EmptyString 0 0]
            (60 * Minute) (18 * Minute)) = [0; 1].
Proof. reflexivity. Qed.

Example SelectTitles_tie :
  map ID (SelectTitles
            [mkTitle 0 (30 * Minute) EmptyString 0 0;
             mkTitle 1 (90 * Minute) EmptyString 0 0;
             mkTitle 2 (90 * Minute) EmptyString 0 0]
            (60 * Minute) (18 * Minute)) = [1].
Proof. reflexivity. Qed.

End SelectTitlesProperties.

(** ** Progress percentage *)

Section CalculatePercentageProperties.
Import Makemkv.

(** C7.  For every progress triplet: when [max > 0] the percentage is
    current / max * 100 (in binary64), the total field does not affect the
    result, and when [max = 0] the result is 0. *)
Theorem CalculatePercentage_formula (current total max : Z) :
  (0 < max ->
   CalculatePercentage current total max = percentageFormula current max) /\
  (forall total',
     CalculatePercentage current total' max
     = CalculatePercentage current total max) /\
  (max = 0 -> CalculatePercentage current total max = S754_zero false).
Proof.
  unfold CalculatePercentage, percentageFormula. split; [|split].
  - intros Hmax. destruct (Z.eqb_spec max 0); [lia | done].
  - done.
  - by intros ->.
Qed.

Lemma CalculatePercentage_formula_witness :
  (0 < 65536 ->
   CalculatePercentage 32768 7 65536 = percentageFormula 32768 65536) /\
  (forall total',
     CalculatePercentage 32768 total' 65536
     = CalculatePercentage 32768 7 65536) /\
  (65536 = 0 -> CalculatePercentage 32768 7 65536 = S754_zero false).
Proof. apply (CalculatePercentage_formula 32768 7 65536). Defined.

Example CalculatePercentage_half :
  CalculatePercentage 32768 0 65536 = float64 50.
Proof. reflexivity. Qed.

Example CalculatePercentage_full :
  CalculatePercentage 65536 65536 65536 = float64 100.
Proof. reflexivity. Qed.

Example CalculatePercentage_no_max :
  CalculatePercentage 12 34 0 = float64 0.
Proof. reflexivity. Qed.

End CalculatePercentageProperties.

(** ** The encode queue and its persistence *)

Section QueueProperties.
Import GoStrings Encode.
Context `{JSON}.

Lemma items_saved (q : Queue) (its : list QueueItem) fault (w : World) :
  items (queueOf (saved q its fault w)) = its.
Proof. unfold saved, queueOf. by destruct (Save _ _ _ _). Qed.

Lemma updateFirst_unknown (id : string) f (its : list QueueItem) :
  (forall item, item ∈ its -> ID item <> id) -> updateFirst id f its = None.
Proof.
  induction its as [|item its IH]; intros Hid; cbn; [done|].
  destruct (String.eqb_spec (ID item) id) as [E | _].
  - exfalso. apply (Hid item); [apply elem_of_cons; auto | done].
  - rewrite IH; [done|]. intros x Hx. apply Hid, elem_of_cons. auto.
Qed.

(** C9.  For a queue and an id carried by none of its items,
    [UpdateProgress], [SetStatus] and [Fail] return nil and leave the queue
    (its items and their order) and the world (its files, and its trace of
    system calls: nothing is written) as they were. *)
Theorem unknown_id_is_noop
    (q : Queue) (w : World) (id : string) (fault : SaveFault) :
  (forall item, item ∈ items q -> ID item <> id) ->
  (forall progress, UpdateProgress id progress fault q w = (q, w, None)) /\
  (forall status now, SetStatus id status now fault q w = (q, w, None)) /\
  (forall err now, Fail id err now fault q w = (q, w, None)).
Proof.
  intros Hid. unfold UpdateProgress, SetStatus, Fail, update.
  repeat split; intros; by rewrite updateFirst_unknown.
Qed.

Lemma retry_retried (item : QueueItem) : retried item (retry item).
Proof.
  unfold retried, retry.
  destruct (Z.eqb_spec (Status item) StatusFailed) as [Ef | Ef];
    [|destruct (Z.eqb_spec (Status item) StatusEncoding) as [Ee | Ee]]; cbn;
    repeat split; try done; try tauto.
Qed.

(** C4.  After [RetryFailed] the queue holds the same items in the same
    order, position by position; every item that was Failed or Encoding is
    Queued with progress 0, empty error text and no start or completion
    time; every other item is unchanged. *)
Theorem RetryFailed_resets (q : Queue) (w : World) (fault : SaveFault) :
  Forall2 retried (items q) (items (queueOf (RetryFailed fault q w))).
Proof.
  unfold RetryFailed. rewrite items_saved.
  induction (items q) as [|item its IH]; cbn; constructor;
    [apply retry_retried | exact IH].
Qed.

Lemma resetStuck_recovered (item : QueueItem) :
  recovered item (resetStuck item).
Proof.
  unfold recovered, resetStuck.
  destruct (Z.eqb_spec (Status item) StatusEncoding); cbn; by repeat split.
Qed.

Lemma nonNil_Some (its : list QueueItem) : nonNil (map Some its) = Some its.
Proof. induction its as [|item its IH]; cbn; [done|]. by rewrite IH. Qed.

(** C3.  When the state file holds a document that reads back as the item
    sequence [persisted], [LoadState] returns nil and leaves the queue
    holding those items in the same order: every item persisted as Encoding
    is that item with status Queued, progress 0 and no start time, its other
    fields as persisted, and every other item is as persisted. *)
Theorem LoadState_recovers (q : Queue) (w : World) (fault : SaveFault)
    (data : string) (persisted : list QueueItem) :
  files w !! filePath (persistence q) = Some data ->
  Unmarshal data = Some (map Some persisted) ->
  exists r,
    LoadState false fault q w = Some r /\
    snd r = None /\
    Forall2 recovered persisted (items (queueOf r)) /\
    items (queueOf r) = map resetStuck persisted.
Proof.
  intros Hfile Hjson. unfold LoadState, Load. cbn. rewrite Hfile, Hjson.
  rewrite nonNil_Some.
  pose proof (items_saved q (map resetStuck persisted) fault
                (sys (SysReadFile (filePath (persistence q))) w)) as Hits.
  destruct (saved _ _ _ _) as [[q' w'] e]. cbn in *.
  eexists. split; [reflexivity|]. cbn. split; [done|]. split; [|done].
  rewrite Hits. clear.
  induction persisted; cbn; constructor; [apply resetStuck_recovered | done].
Qed.

(** What [Save] and [Load] add to [encoding/json]: after a [Save] in which
    no system call fails, the state file holds the document of the items,
    and [Load] returns whatever [json.Unmarshal] makes of that document. *)
Lemma Load_after_Save (sp : StatePersistence)
    (its : list QueueItem) (data : string) (w : World) :
  Marshal its = Some data ->
  exists w',
    Save sp its NoFault w = (w', None) /\
    files w' !! filePath sp = Some data /\
    snd (Load sp false w')
    = match Unmarshal data with
      | Some items => (items, None)
      | None => ([], Some "failed to unmarshal queue state")
      end.
Proof.
  intros Hm. unfold Save. rewrite Hm. eexists. split; [reflexivity|].
  unfold Load. cbn. rewrite lookup_insert_eq. split; [done|].
  by destruct (Unmarshal data).
Qed.

End QueueProperties.

Section QueueExamples.
Import GoStrings Encode.
#[local] Existing Instance exampleJSON.

Lemma unknown_id_is_noop_witness :
  let q := mkQueue exampleItems (NewStatePersistence "queue.json") in
  (forall item, item ∈ items q -> ID item <> "c") /\
  ((forall progress,
      UpdateProgress "c" progress NoFault q exampleWorld
      = (q, exampleWorld, None)) /\
   (forall status now,
      SetStatus "c" status now NoFault q exampleWorld
      = (q, exampleWorld, None)) /\
   (forall err now,
      Fail "c" err now NoFault q exampleWorld = (q, exampleWorld, None))).
Proof.
  cbn zeta.
  assert (forall item,
            item ∈ exampleItems -> ID item <> "c") as Hid.
  { intros item Hin. unfold exampleItems in Hin.
    repeat (apply elem_of_cons in Hin as [-> | Hin]; [discriminate|]).
    by apply elem_of_nil in Hin. }
  split; [exact Hid|].
  apply (unknown_id_is_noop
           (mkQueue exampleItems (NewStatePersistence "queue.json"))
           exampleWorld "c" NoFault Hid).
Defined.

Lemma LoadState_recovers_witness :
  let q := NewQueue "queue.json" in
  files exampleWorld !! filePath (persistence q)
  = Some "[{a: encoding}, {b: complete}]" /\
  Unmarshal "[{a: encoding}, {b: complete}]" = Some (map Some exampleItems) /\
  exists r,
    LoadState false NoFault q exampleWorld = Some r /\
    snd r = None /\
    Forall2 recovered exampleItems (items (queueOf r)) /\
    items (queueOf r) = map resetStuck exampleItems.
Proof.
  cbn zeta. split; [reflexivity|]. split; [reflexivity|].
  apply (LoadState_recovers (NewQueue "queue.json") exampleWorld NoFault
           "[{a: encoding}, {b: complete}]" exampleItems);
    reflexivity.
Defined.

Example Load_after_Save_example :
  exists w',
    Save (NewStatePersistence "queue.json") exampleItems NoFault
      (mkWorld ∅ []) = (w', None) /\
    snd (Load (NewStatePersistence "queue.json") false w')
    = (map Some exampleItems, None).
Proof. eexists. split; reflexivity. Qed.

Example LoadState_example :
  option_map (fun r => map (fun item => (ID item, Status item))
                         (items (queueOf r)))
    (LoadState false NoFault (NewQueue "queue.json") exampleWorld)
  = Some [("a", StatusQueued); ("b", StatusComplete)].
Proof. reflexivity. Qed.

(** A null element in the state file: [LoadState] does not return. *)
Example LoadState_null_example :
  LoadState false NoFault (NewQueue "queue.json")
    (mkWorld {["queue.json" := "[null]"]} [])
  = None.
Proof. reflexivity. Qed.

End QueueExamples.

(** ** The worker's disposition of a finished encode *)

Section WorkerProperties.
Import GoStrings Encode.
Context `{JSON}.

Lemma handleControls_shouldDelete (ctrls : list WorkerControl) (wk : Worker) :
  shouldDeleteCurrent (handleControls wk ctrls)
  = deleteRequested (shouldDeleteCurrent wk) ctrls.
Proof.
  unfold handleControls. revert wk.
  induction ctrls as [|c ctrls IH]; intros wk; [done|].
  cbn [fold_left]. rewrite IH. by destruct c.
Qed.

Lemma lookupID_updateFirst (id : string) f (its : list QueueItem) :
  (forall item, ID (f item) = ID item) ->
  match updateFirst id f its with
  | Some its' => lookupID id its' = option_map f (lookupID id its)
  | None => lookupID id its = None
  end.
Proof.
  intros Hf. induction its as [|item its IH]; cbn; [done|].
  destruct (String.eqb (ID item) id) eqn:E.
  - cbn. by rewrite Hf, E.
  - destruct (updateFirst id f its); cbn; by rewrite ?E.
Qed.

Lemma lookupID_update (id : string) f fault (q : Queue) (w : World) :
  (forall item, ID (f item) = ID item) ->
  lookupID id (items (queueOf (update id f fault q w)))
  = option_map f (lookupID id (items q)).
Proof.
  intros Hf. unfold update.
  pose proof (lookupID_updateFirst id f (items q) Hf) as Hl.
  destruct (updateFirst id f (items q)) as [its'|].
  - by rewrite items_saved.
  - cbn. by rewrite Hl.
Qed.

Lemma Remove_gone (id : string) fault (q : Queue) (w : World) :
  forall item, item ∈ items (queueOf (Remove id fault q w)) -> ID item <> id.
Proof.
  intros item. unfold Remove. rewrite items_saved.
  rewrite list_elem_of_In, filter_In. intros [_ Hne] E.
  apply negb_true_iff, String.eqb_neq in Hne. done.
Qed.

(** C8, amended.  When HandBrake returns to the worker, which has handled
    the control commands [ctrls] since its state [wk]: a nil error marks the
    item Complete; an error classified as termination by signal or kill
    removes the item from the queue (and clears the request) when the most
    recent Stop or Delete command was a Delete (Pause and Resume do not
    count), and otherwise marks the item Failed with the reason "cancelled
    by user"; any other error marks the item Failed with the error's text.
    The item is the one the queue finds under the worker's item's ID. *)
Theorem handleResult_disposition
    (item : QueueItem) (err : error) (now : Time) (fault : SaveFault)
    (wk : Worker) (ctrls : list WorkerControl) (q : Queue) (w : World) :
  let r := handleResult item err now fault (handleControls wk ctrls) q w in
  let before := lookupID (ID item) (items q) in
  let after := lookupID (ID item) (items (snd (fst r))) in
  (err = None ->
   after = option_map
             (fun i => setCompletedAt (Some now) (setStatus StatusComplete i))
             before) /\
  (forall errStr, err = Some errStr -> killedBySignal errStr = true ->
   deleteRequested (shouldDeleteCurrent wk) ctrls = true ->
   (forall i, i ∈ items (snd (fst r)) -> ID i <> ID item) /\
   shouldDeleteCurrent (fst (fst r)) = false) /\
  (forall errStr, err = Some errStr -> killedBySignal errStr = true ->
   deleteRequested (shouldDeleteCurrent wk) ctrls = false ->
   after = option_map
             (fun i => setCompletedAt (Some now)
                         (setError "cancelled by user"
                            (setStatus StatusFailed i)))
             before) /\
  (forall errStr, err = Some errStr -> killedBySignal errStr = false ->
   after = option_map
             (fun i => setCompletedAt (Some now)
                         (setError errStr (setStatus StatusFailed i)))
             before).
Proof.
  cbn zeta. unfold handleResult, killedBySignal.
  rewrite handleControls_shouldDelete.
  split; [|split; [|split]].
  - intros ->. unfold Complete, SetStatus.
    pose proof (lookupID_update (ID item)
      (fun i => let i := setStatus StatusComplete i in
                if StatusComplete =? StatusEncoding
                then setStartedAt (Some now) i
                else if (StatusComplete =? StatusComplete)
                        || (StatusComplete =? StatusFailed)
                     then setCompletedAt (Some now) i else i)
      fault q w ltac:(done)) as Hl.
    unfold queueOf in Hl. destruct (update _ _ _ _ _) as [[q' w'] e].
    exact Hl.
  - intros errStr -> -> ->.
    pose proof (Remove_gone (ID item) fault q w) as Hg. unfold queueOf in Hg.
    destruct (Remove _ _ _ _) as [[q' w'] e]. by split.
  - intros errStr -> -> ->. unfold Fail.
    pose proof (lookupID_update (ID item)
      (fun i => setCompletedAt (Some now)
                  (setError "cancelled by user" (setStatus StatusFailed i)))
      fault q w ltac:(done)) as Hl.
    unfold queueOf in Hl. destruct (update _ _ _ _ _) as [[q' w'] e].
    exact Hl.
  - intros errStr -> ->. unfold Fail.
    pose proof (lookupID_update (ID item)
      (fun i => setCompletedAt (Some now)
                  (setError errStr (setStatus StatusFailed i)))
      fault q w ltac:(done)) as Hl.
    unfold queueOf in Hl. destruct (update _ _ _ _ _) as [[q' w'] e].
    exact Hl.
Qed.

End WorkerProperties.

Section WorkerExamples.
Import GoStrings Encode.
#[local] Existing Instance writeOnlyJSON.

(** C8, as stated, fails when a Pause follows the Delete: the last control
    command is then not Delete, yet the killed encode's item is removed
    rather than marked Failed. *)
Lemma Delete_then_Pause_removes :
  let item := exampleItem "a" StatusEncoding in
  let q := mkQueue [item] (NewStatePersistence "queue.json") in
  let ctrls := [WorkerDelete; WorkerPause] in
  let wk := handleControls NewWorker ctrls in
  last ctrls <> Some WorkerDelete /\
  killedBySignal "signal: killed" = true /\
  items (snd (fst (handleResult item
                     (Some "signal: killed") 0 NoFault wk q
                     (mkWorld ∅ [])))) = [].
Proof. cbn zeta. split; [discriminate|]. split; reflexivity. Qed.

Lemma handleResult_disposition_witness :
  let item := exampleItem "a" StatusEncoding in
  let q := mkQueue [item] (NewStatePersistence "queue.json") in
  let w := mkWorld ∅ [] in
  let ctrls := [WorkerDelete; WorkerStop; WorkerPause] in
  let err := Some "signal: killed" in
  let r := handleResult item err 7 NoFault
             (handleControls NewWorker ctrls) q w in
  let before := lookupID (ID item) (items q) in
  let after := lookupID (ID item) (items (snd (fst r))) in
  (err = None ->
   after = option_map
             (fun i => setCompletedAt (Some 7) (setStatus StatusComplete i))
             before) /\
  (forall errStr, err = Some errStr -> killedBySignal errStr = true ->
   deleteRequested (shouldDeleteCurrent NewWorker) ctrls = true ->
   (forall i, i ∈ items (snd (fst r)) -> ID i <> ID item) /\
   shouldDeleteCurrent (fst (fst r)) = false) /\
  (forall errStr, err = Some errStr -> killedBySignal errStr = true ->
   deleteRequested (shouldDeleteCurrent NewWorker) ctrls = false ->
   after = option_map
             (fun i => setCompletedAt (Some 7)
                         (setError "cancelled by user"
                            (setStatus StatusFailed i)))
             before) /\
  (forall errStr, err = Some errStr -> killedBySignal errStr = false ->
   after = option_map
             (fun i => setCompletedAt (Some 7)
                         (setError errStr (setStatus StatusFailed i)))
             before).
Proof.
  exact (handleResult_disposition (exampleItem "a" StatusEncoding)
           (Some "signal: killed") 7 NoFault NewWorker
           [WorkerDelete; WorkerStop; WorkerPause]
           (mkQueue [exampleItem "a" StatusEncoding]
              (NewStatePersistence "queue.json"))
           (mkWorld ∅ [])).
Defined.

(** A Stop after the Delete: the killed encode's item is kept, Failed. *)
Example Delete_then_Stop_fails :
  let item := exampleItem "a" StatusEncoding in
  let q := mkQueue [item] (NewStatePersistence "queue.json") in
  let wk := handleControls NewWorker [WorkerDelete; WorkerStop; WorkerPause] in
  map (fun i => (ID i, Status i, Error i))
    (items (snd (fst (handleResult item (Some "signal: killed") 7 NoFault
                        wk q (mkWorld ∅ [])))))
  = [("a", StatusFailed, "cancelled by user")].
Proof. reflexivity. Qed.

Example other_error_fails :
  let item := exampleItem "a" StatusEncoding in
  let q := mkQueue [item] (NewStatePersistence "queue.json") in
  map (fun i => (ID i, Status i, Error i))
    (items (snd (fst (handleResult item (Some "exit status 3") 7 NoFault
                        NewWorker q (mkWorld ∅ [])))))
  = [("a", StatusFailed, "exit status 3")].
Proof. reflexivity. Qed.

Example success_completes :
  let item := exampleItem "a" StatusEncoding in
  let q := mkQueue [item] (NewStatePersistence "queue.json") in
  map (fun i => (ID i, Status i, CompletedAt i))
    (items (snd (fst (handleResult item None 7 NoFault
                        NewWorker q (mkWorld ∅ [])))))
  = [("a", StatusComplete, Some 7)].
Proof. reflexivity. Qed.

(** A whole [encodeItem]: the item is marked Encoding, a Delete arrives
    while HandBrake runs, HandBrake is killed, and the item is gone. *)
Example encodeItem_deleted :
  let item := exampleItem "a" StatusQueued in
  let q := mkQueue [item; exampleItem "b" StatusQueued]
             (NewStatePersistence "queue.json") in
  let '(wk, q', _) :=
    encodeItem item [WorkerDelete] (Some "signal: killed") 1 2
      NoFault NoFault NewWorker q (mkWorld ∅ []) in
  map (fun i => (ID i, Status i)) (items q') = [("b", StatusQueued)] /\
  shouldDeleteCurrent wk = false.
Proof. split; reflexivity. Qed.

End WorkerExamples.

(** ** At most one item is Encoding *)

Section SingleEncoding.
Import GoStrings Encode.
Context `{JSON}.

Lemma settled_others (id : string) (its : list QueueItem) :
  settled its -> settled (others id its).
Proof.
  unfold settled. induction 1 as [|item its Hi Hs IH]; cbn; [constructor|].
  destruct (String.eqb (ID item) id); [done | by constructor].
Qed.

Lemma settled_filter (p : QueueItem -> bool) (its : list QueueItem) :
  settled its -> settled (List.filter p its).
Proof.
  unfold settled. induction 1 as [|item its Hi Hs IH]; cbn; [constructor|].
  destruct (p item); [by constructor | done].
Qed.

Lemma others_count (id : string) (its : list QueueItem) :
  settled (others id its) -> (length (List.filter isEncoding its) <= 1)%nat.
Proof.
  unfold settled. induction its as [|item its IH]; cbn; [lia|].
  destruct (String.eqb (ID item) id).
  - intros Hs. assert (List.filter isEncoding its = []) as ->.
    { clear IH. induction Hs as [|x l Hx _ IHl]; cbn; [done|].
      cbn beta in Hx. by rewrite Hx. }
    destruct (isEncoding item); cbn; lia.
  - intros [Hi Hs]%Forall_cons. rewrite Hi. by apply IH.
Qed.

Lemma settled_count (its : list QueueItem) :
  length (List.filter isEncoding its) = 0%nat -> settled its.
Proof.
  unfold settled. induction its as [|item its IH]; cbn; [constructor|].
  destruct (isEncoding item) eqn:E; cbn; [lia|].
  intros Hl. constructor; [done | by apply IH].
Qed.

Lemma updateFirst_settled (id : string) f (its its' : list QueueItem) :
  harmless f -> updateFirst id f its = Some its' ->
  settled its -> settled its'.
Proof.
  intros Hf. unfold settled. revert its'.
  induction its as [|item its IH]; intros its'; cbn; [done|].
  destruct (String.eqb (ID item) id).
  - intros [= <-] [Hi Hs]%Forall_cons. constructor; [by apply Hf | done].
  - destruct (updateFirst id f its) as [rest|]; [|done].
    intros [= <-] [Hi Hs]%Forall_cons. constructor; [done | by apply IH].
Qed.

Lemma updateFirst_others (id id' : string) f (its its' : list QueueItem) :
  harmless f -> updateFirst id' f its = Some its' ->
  settled (others id its) -> settled (others id its').
Proof.
  intros Hf. revert its'.
  induction its as [|item its IH]; intros its'; cbn; [done|].
  destruct (String.eqb (ID item) id') eqn:E'.
  - intros [= <-]. cbn. rewrite (proj1 (Hf item)).
    destruct (String.eqb (ID item) id); [done|].
    intros [Hi Hs]%Forall_cons. constructor; [by apply Hf | done].
  - destruct (updateFirst id' f its) as [rest|] eqn:Er; [|done].
    intros [= <-]. cbn. destruct (String.eqb (ID item) id).
    + by apply (updateFirst_settled id' f).
    + intros [Hi Hs]%Forall_cons. constructor; [done | by apply IH].
Qed.

Lemma filter_others (id : string) (p : QueueItem -> bool)
    (its : list QueueItem) :
  settled (others id its) -> settled (others id (List.filter p its)).
Proof.
  induction its as [|item its IH]; cbn; [done|].
  destruct (p item); cbn; destruct (String.eqb (ID item) id) eqn:E.
  - apply settled_filter.
  - intros [Hi Hs]%Forall_cons. constructor; [done | by apply IH].
  - intros Hs. by apply settled_others, settled_filter.
  - intros [Hi Hs]%Forall_cons. by apply IH.
Qed.

Lemma retry_settled (its : list QueueItem) : settled (map retry its).
Proof.
  unfold settled. induction its as [|item its IH]; cbn; constructor; [|done].
  unfold retry, isEncoding.
  destruct (Z.eqb_spec (Status item) StatusFailed) as [Ef|Ef]; [done|].
  destruct (Z.eqb_spec (Status item) StatusEncoding) as [Ee|Ee]; [done|].
  cbn. by apply Z.eqb_neq.
Qed.

Lemma append_others (id : string) (item : QueueItem) (its : list QueueItem) :
  isEncoding item = false ->
  settled (others id its) -> settled (others id (its ++ [item])).
Proof.
  intros Hi. induction its as [|x its IH]; cbn.
  - intros _. destruct (String.eqb (ID item) id); [constructor|].
    by repeat constructor.
  - destruct (String.eqb (ID x) id).
    + intros Hs. apply Forall_app. split; [done | by repeat constructor].
    + intros [Hx Hs]%Forall_cons. constructor; [done | by apply IH].
Qed.

(** Marking the first item under [id] as Encoding leaves the others alone. *)
Lemma updateFirst_same_others (id : string) f (its its' : list QueueItem) :
  (forall i, ID (f i) = ID i) -> updateFirst id f its = Some its' ->
  others id its' = others id its.
Proof.
  intros Hf. revert its'. induction its as [|item its IH]; intros its'; cbn; [done|].
  destruct (String.eqb (ID item) id) eqn:E.
  - intros [= <-]. cbn. by rewrite Hf, E.
  - destruct (updateFirst id f its) as [rest|]; [|done].
    intros [= <-]. cbn. rewrite E. f_equal. by apply IH.
Qed.

(** Finishing the first item under [id] settles the queue. *)
Lemma updateFirst_finish (id : string) f (its : list QueueItem) :
  (forall i, isEncoding (f i) = false) ->
  settled (others id its) ->
  settled (default its (updateFirst id f its)).
Proof.
  intros Hf. unfold settled. induction its as [|item its IH]; cbn; [done|].
  destruct (String.eqb (ID item) id).
  - intros Hs. cbn. by constructor.
  - intros [Hi Hs]%Forall_cons. specialize (IH Hs).
    destruct (updateFirst id f its) as [rest|]; cbn in *; by constructor.
Qed.

Lemma remove_finish (id : string) (its : list QueueItem) :
  settled (others id its) ->
  settled (List.filter (fun i => negb (String.eqb (ID i) id)) its).
Proof.
  unfold settled. induction its as [|item its IH]; cbn; [done|].
  destruct (String.eqb (ID item) id); cbn.
  - intros Hs. by apply settled_filter.
  - intros [Hi Hs]%Forall_cons. constructor; [done | by apply IH].
Qed.

Lemma items_update (id : string) f fault (q : Queue) (w : World) :
  items (queueOf (update id f fault q w))
  = default (items q) (updateFirst id f (items q)).
Proof.
  unfold update. destruct (updateFirst id f (items q)); cbn; [|done].
  apply items_saved.
Qed.

Lemma harmless_setProgress progress : harmless (setProgress progress).
Proof. by intros i. Qed.

Lemma harmless_SetStatus status now :
  status <> StatusEncoding ->
  harmless
    (fun item =>
       let item := setStatus status item in
       if status =? StatusEncoding then setStartedAt (Some now) item
       else if (status =? StatusComplete) || (status =? StatusFailed)
            then setCompletedAt (Some now) item
            else item).
Proof.
  intros Hs i. apply Z.eqb_neq in Hs as Hs'. cbn zeta. rewrite Hs'.
  destruct ((status =? StatusComplete) || (status =? StatusFailed));
    by split.
Qed.

Lemma harmless_Fail err now :
  harmless
    (fun item =>
       setCompletedAt (Some now) (setError err (setStatus StatusFailed item))).
Proof. by intros i. Qed.

(** A disciplined call from outside the worker keeps the invariant, in
    either phase of the worker. *)
Lemma call_others (c : Call) (id : string) (q : Queue) (w : World) :
  match c with
  | CallSetStatus _ status _ _ => status <> StatusEncoding
  | CallAdd item _ => isEncoding item = false
  | _ => True
  end ->
  settled (others id (items q)) ->
  settled (others id (items (fst (call c q w)))).
Proof.
  intros Hc Hs.
  assert (forall id' f fault, harmless f ->
            settled (others id (items (queueOf (update id' f fault q w)))))
    as Hupd.
  { intros id' f fault Hf. rewrite items_update.
    destruct (updateFirst id' f (items q)) as [its'|] eqn:E; cbn; [|done].
    by eapply updateFirst_others. }
  destruct c; cbn -[others].
  - change (settled (others id (items (queueOf (Add item fault q w))))).
    unfold Add. rewrite items_saved. by apply append_others.
  - done.
  - apply Hupd, harmless_setProgress.
  - by apply Hupd, harmless_SetStatus.
  - by apply Hupd, harmless_SetStatus.
  - apply Hupd, harmless_Fail.
  - change (settled (others id (items (queueOf (ClearCompleted fault q w))))).
    unfold ClearCompleted. rewrite items_saved. by apply filter_others.
  - change (settled (others id (items (queueOf (RetryFailed fault q w))))).
    unfold RetryFailed. rewrite items_saved.
    apply settled_others, retry_settled.
  - change (settled (others id (items (queueOf (Remove id0 fault q w))))).
    unfold Remove. rewrite items_saved. by apply filter_others.
Qed.

Lemma call_settled (c : Call) (q : Queue) (w : World) :
  match c with
  | CallSetStatus _ status _ _ => status <> StatusEncoding
  | CallAdd item _ => isEncoding item = false
  | _ => True
  end ->
  settled (items q) -> settled (items (fst (call c q w))).
Proof.
  intros Hc Hs.
  assert (forall id' f fault, harmless f ->
            settled (items (queueOf (update id' f fault q w)))) as Hupd.
  { intros id' f fault Hf. rewrite items_update.
    destruct (updateFirst id' f (items q)) as [its'|] eqn:E; cbn; [|done].
    by eapply updateFirst_settled. }
  destruct c; cbn.
  - change (settled (items (queueOf (Add item fault q w)))).
    unfold Add. rewrite items_saved. apply Forall_app.
    split; [done | by repeat constructor].
  - done.
  - apply Hupd, harmless_setProgress.
  - by apply Hupd, harmless_SetStatus.
  - by apply Hupd, harmless_SetStatus.
  - apply Hupd, harmless_Fail.
  - change (settled (items (queueOf (ClearCompleted fault q w)))).
    unfold ClearCompleted. rewrite items_saved. by apply settled_filter.
  - change (settled (items (queueOf (RetryFailed fault q w)))).
    unfold RetryFailed. rewrite items_saved. apply retry_settled.
  - change (settled (items (queueOf (Remove id fault q w)))).
    unfold Remove. rewrite items_saved. by apply settled_filter.
Qed.

Lemma markEncoding_others (item : QueueItem) now fault (q : Queue) (w : World) :
  settled (items q) ->
  settled (others (ID item)
             (items (fst (fst (markEncoding item now fault q w))))).
Proof.
  intros Hs. unfold markEncoding, SetStatus.
  pose proof (items_update (ID item)
    (fun item =>
       let item := setStatus StatusEncoding item in
       if StatusEncoding =? StatusEncoding then setStartedAt (Some now) item
       else if (StatusEncoding =? StatusComplete)
               || (StatusEncoding =? StatusFailed)
            then setCompletedAt (Some now) item
            else item) fault q w) as Hi.
  unfold queueOf in Hi. destruct (update _ _ _ _ _) as [[q' w'] [e|]]; cbn in *;
    rewrite Hi; clear Hi.
  all: destruct (updateFirst _ _ (items q)) as [its'|] eqn:E; cbn;
    [erewrite updateFirst_same_others; [| |exact E]; [|done]|];
    by apply settled_others.
Qed.

Lemma handleResult_settled (item : QueueItem) err now fault
    (wk : Worker) (q : Queue) (w : World) :
  settled (others (ID item) (items q)) ->
  settled (items (snd (fst (handleResult item err now fault wk q w)))).
Proof.
  intros Hs.
  assert (forall f fault, (forall i, isEncoding (f i) = false) ->
            settled (items (queueOf (update (ID item) f fault q w)))) as Hupd.
  { intros f fault' Hf. rewrite items_update. by apply updateFirst_finish. }
  unfold handleResult. destruct err as [errStr|].
  - destruct (Contains errStr "killed" || Contains errStr "signal").
    + destruct (shouldDeleteCurrent wk).
      * pose proof (remove_finish (ID item) (items q) Hs) as Hr.
        unfold Remove.
        pose proof (items_saved q
          (List.filter (fun i => negb (String.eqb (ID i) (ID item))) (items q))
          fault w) as Hi.
        unfold queueOf in Hi. destruct (saved _ _ _ _) as [[q' w'] e].
        cbn in *. by rewrite Hi.
      * specialize (Hupd
          (fun i => setCompletedAt (Some now)
                      (setError "cancelled by user" (setStatus StatusFailed i)))
          fault ltac:(done)).
        unfold Fail, queueOf in *. by destruct (update _ _ _ _ _) as [[q' w'] e].
    + specialize (Hupd
        (fun i => setCompletedAt (Some now)
                    (setError errStr (setStatus StatusFailed i)))
        fault ltac:(done)).
      unfold Fail, queueOf in *. by destruct (update _ _ _ _ _) as [[q' w'] e].
  - specialize (Hupd
      (fun item =>
         let item := setStatus StatusComplete item in
         if StatusComplete =? StatusEncoding then setStartedAt (Some now) item
         else if (StatusComplete =? StatusComplete)
                 || (StatusComplete =? StatusFailed)
              then setCompletedAt (Some now) item
              else item) fault ltac:(done)).
    unfold Complete, SetStatus, queueOf in *.
    by destruct (update _ _ _ _ _) as [[q' w'] e].
Qed.

Lemma resetStuck_settled (its : list QueueItem) : settled (map resetStuck its).
Proof.
  unfold settled. induction its as [|item its IH]; cbn; constructor; [|done].
  unfold resetStuck, isEncoding.
  destruct (Z.eqb_spec (Status item) StatusEncoding); [done|].
  by apply Z.eqb_neq.
Qed.

(** [LoadState] on a new queue, when it returns, leaves no item Encoding:
    the program starts in an initial state. *)
Lemma LoadState_settled readFails fault (statePath : string) (w : World)
    (r : Result) :
  LoadState readFails fault (NewQueue statePath) w = Some r ->
  settled (items (queueOf r)).
Proof.
  unfold LoadState.
  destruct (Load _ readFails w) as [w1 [its [e|]]].
  { intros [= <-]. constructor. }
  destruct (nonNil its) as [items|]; [|done].
  pose proof (items_saved (NewQueue statePath) (map resetStuck items) fault w1)
    as Hi.
  unfold queueOf in *. destruct (saved _ _ _ _) as [[q' w'] e]. cbn in *.
  intros [= <-]. cbn. rewrite Hi. apply resetStuck_settled.
Qed.

Lemma exec_singleConsumer (e : Event) (s : System) :
  singleConsumer s -> disciplined e s = true -> singleConsumer (exec e s).
Proof.
  unfold singleConsumer. intros Hinv Hd. destruct e as [c|ctrl|now fault|err now fault].
  - assert (match c with
            | CallSetStatus _ status _ _ => status <> StatusEncoding
            | CallAdd item _ => isEncoding item = false
            | _ => True
            end) as Hc.
    { destruct c; cbn in Hd; try done.
      - by apply negb_true_iff.
      - by apply negb_true_iff, Z.eqb_neq in Hd. }
    cbn. pose proof (call_settled c (queue s) (world s) Hc) as H1.
    pose proof (fun id => call_others c id (queue s) (world s) Hc) as H2.
    destruct (call c (queue s) (world s)) as [q' w']. cbn in *.
    destruct (phase s); [by apply H1 | by apply H2].
  - done.
  - cbn in *. destruct (phase s) eqn:Ep; [|by rewrite Ep].
    destruct (paused (worker s)); [by rewrite Ep|].
    destruct (GetNext (queue s)) as [item|]; [|by rewrite Ep].
    pose proof (markEncoding_others item now fault (queue s) (world s) Hinv)
      as Hm.
    destruct (markEncoding _ _ _ _ _) as [[q' w'] [|]]; [|done]. exact Hm.
  - cbn. destruct (phase s) as [|item] eqn:Ep; [by rewrite Ep|].
    pose proof (handleResult_settled item err now fault (worker s) (queue s)
                  (world s) Hinv) as Hr.
    destruct (handleResult _ _ _ _ _ _ _) as [[wk q'] w']. exact Hr.
Qed.

Lemma reachable_singleConsumer (s : System) :
  reachable s -> singleConsumer s.
Proof.
  induction 1 as [s [Hp Hc]|s e _ IH Hd].
  - unfold singleConsumer. rewrite Hp. by apply settled_count.
  - by apply exec_singleConsumer.
Qed.

(** C2, amended.  In every state reachable from a queue without Encoding
    items and an idle worker, by any interleaving of calls of the queue
    methods from outside the worker (Add of an item that is not Encoding,
    GetNext, UpdateProgress, SetStatus to a status other than Encoding,
    Complete, Fail, RetryFailed, ClearCompleted, Remove), control commands,
    and the worker's ticks and encode completions, where the worker's own
    SetStatus to Encoding reports no error, at most one item has status
    Encoding. *)
Theorem single_encoding (s : System) :
  reachable s -> (encodingCount (queue s) <= 1)%nat.
Proof.
  intros Hr%reachable_singleConsumer. unfold singleConsumer in Hr.
  unfold encodingCount. destruct (phase s) as [|item].
  - by eapply others_count, (settled_others EmptyString).
  - by eapply others_count.
Qed.

End SingleEncoding.

Section SingleEncodingExamples.
Import GoStrings Encode.
#[local] Existing Instance writeOnlyJSON.

(** C2, as stated, fails.  The queue methods themselves let two items be
    Encoding at once; and with the worker as their only caller, a failed
    write in the worker's [SetStatus] makes [encodeItem] return with the item
    left Encoding, so that the next tick marks a second one. *)
Lemma SetStatus_twice_two_encoding :
  let cs :=
    [CallAdd (exampleItem "a" StatusQueued) NoFault;
     CallAdd (exampleItem "b" StatusQueued) NoFault;
     CallSetStatus "a" StatusEncoding 1 NoFault;
     CallSetStatus "b" StatusEncoding 2 NoFault] in
  encodingCount (fst (calls cs (NewQueue "queue.json") (mkWorld ∅ [])))
  = 2%nat /\
  encodingCount
    (queue (run [EvTick 1 WriteFails; EvTick 2 NoFault] exampleSystem))
  = 2%nat.
Proof. split; reflexivity. Qed.

(** The worker picks the first queued item; a retry and a second tick arrive
    while it encodes; the encode completes; the next tick picks the item
    again. *)
Lemma single_encoding_witness :
  let s :=
    run [EvTick 1 NoFault; EvCall (CallRetryFailed NoFault);
         EvTick 2 NoFault; EvEncodeDone None 3 NoFault; EvTick 4 NoFault]
      exampleSystem in
  reachable s /\ (encodingCount (queue s) <= 1)%nat.
Proof.
  cbn zeta.
  assert (reachable
            (run [EvTick 1 NoFault; EvCall (CallRetryFailed NoFault);
                  EvTick 2 NoFault; EvEncodeDone None 3 NoFault;
                  EvTick 4 NoFault] exampleSystem)) as Hr.
  { unfold run. cbn [fold_left].
    repeat (apply reachable_exec; [|reflexivity]).
    apply reachable_initial. split; reflexivity. }
  split; [exact Hr | exact (single_encoding _ Hr)].
Defined.

(** After start-up the system is in an initial state: [LoadState] on a
    new queue leaves no item Encoding, whatever the state file holds. *)
Example LoadState_initial_example :
  match LoadState (H := exampleJSON) false NoFault (NewQueue "queue.json")
          exampleWorld with
  | Some (q, w, _) => initial (mkSystem q w NewWorker Idle)
  | None => False
  end.
Proof. split; reflexivity. Qed.

End SingleEncodingExamples.

(** ** The order of the scanned titles *)

Section ParseInfoProperties.
Import GoStrings Makemkv.

Lemma descending_goRange : goRange descending.
Proof. intros m. apply merge_sort_Permutation. Qed.

(** C6, as stated, fails: on a scan output that mentions title 0 and then
    title 1, a map range that visits key 1 first makes [ParseInfo] return
    title 1 before title 0. *)
Lemma ParseInfo_not_in_scan_order :
  goRange descending /\
  scanOrder exampleScan = [0; 1] /\
  map ID (scanTitles exampleScan) = [0; 1] /\
  map ID (Titles (ParseInfo descending exampleScan)) = [1; 0].
Proof.
  split; [apply descending_goRange|]. repeat split; by vm_compute.
Qed.

Lemma firstOccurrences_elem (ids seen : list Z) (x : Z) :
  x ∈ firstOccurrences seen ids <-> x ∈ ids /\ x ∉ seen.
Proof.
  revert seen. induction ids as [|id ids IH]; intros seen; cbn.
  - split; [by intros ?%elem_of_nil | by intros [?%elem_of_nil _]].
  - case_bool_decide as Hseen.
    + rewrite IH, elem_of_cons. split; [tauto|].
      intros [[-> | Hin] Hx]; [done | tauto].
    + rewrite elem_of_cons, IH, not_elem_of_cons, elem_of_cons.
      destruct (decide (x = id)) as [-> | Hne]; tauto.
Qed.

Lemma firstOccurrences_NoDup (ids seen : list Z) :
  NoDup (firstOccurrences seen ids).
Proof.
  revert seen. induction ids as [|id ids IH]; intros seen; cbn.
  - constructor.
  - case_bool_decide; [apply IH|]. constructor; [|apply IH].
    rewrite firstOccurrences_elem, not_elem_of_cons. tauto.
Qed.

Lemma parseTitleInfo_keys (line : string) (m : gmap Z Title) (k : Z) :
  is_Some (parseTitleInfo line m !! k)
  <-> is_Some (m !! k) \/ tinfoID line = Some k.
Proof.
  unfold parseTitleInfo, tinfoID.
  destruct (SplitN (drop 6 line) "," 4) as [|p0 [|p1 [|p2 [|p3 [|? ?]]]]];
    try (split; [tauto | by intros [? | ?]]).
  destruct (Atoi p0) as [titleID [|]];
    [|split; [tauto | by intros [? | ?]]].
  destruct (Atoi p1) as [attributeID [|]];
    [|split; [tauto | by intros [? | ?]]].
  rewrite lookup_insert_is_Some.
  destruct (decide (titleID = k)) as [-> | Hne].
  - split; [by right | by left].
  - split; [intros [? | [_ ?]]; [done | by left]|].
    intros [? | [= ?]]; [by right | done].
Qed.

Lemma parseLine_keys (st : string * string * gmap Z Title) (line : string)
    (k : Z) :
  is_Some (snd (parseLine st line) !! k)
  <-> is_Some (snd st !! k) \/ recordID line = Some k.
Proof.
  destruct st as [[discName discType] m]. unfold parseLine, recordID. cbn zeta.
  destruct (String.eqb (TrimSpace line) EmptyString);
    [split; [tauto | by intros [? | ?]]|].
  cbn. destruct (HasPrefix (TrimSpace line) "TINFO:").
  - apply parseTitleInfo_keys.
  - split; [tauto | by intros [? | ?]].
Qed.

Lemma parseLines_keys (lines : list string)
    (st : string * string * gmap Z Title) (k : Z) :
  is_Some (snd (fold_left parseLine lines st) !! k)
  <-> is_Some (snd st !! k) \/ k ∈ omap recordID lines.
Proof.
  revert st. induction lines as [|line lines IH]; intros st; cbn.
  - split; [tauto | by intros [? | ?%elem_of_nil]].
  - rewrite IH, parseLine_keys. destruct (recordID line) as [id|].
    + rewrite elem_of_cons. split.
      * intros [[? | [= ->]] | ?]; auto.
      * intros [? | [-> | ?]]; auto.
    + split; [intros [[? | ?] | ?]; [auto | done | auto] | tauto].
Qed.

Lemma titleMapOf_keys (output : string) (k : Z) :
  k ∈ scanOrder output <-> is_Some (titleMapOf output !! k).
Proof.
  unfold scanOrder, titleMapOf. rewrite firstOccurrences_elem, parseLines_keys.
  cbn. rewrite lookup_empty, is_Some_alt.
  split; [tauto | intros [[] | ?]; split; [done | by intros ?%elem_of_nil]].
Qed.

Lemma omap_delete (ids : list Z) (id : Z) (m : gmap Z Title) :
  id ∉ ids ->
  omap (fun k => delete id m !! k) ids = omap (fun k => m !! k) ids.
Proof.
  induction ids as [|k ids IH]; [done|].
  intros [Hk Hids]%not_elem_of_cons. cbn.
  rewrite lookup_delete_ne by done. by rewrite IH.
Qed.

(** The values of a map, listed along any duplicate-free enumeration of its
    keys, are the values [map_to_list] lists, up to order. *)
Lemma map_values_by_keys (ids : list Z) (m : gmap Z Title) :
  NoDup ids -> (forall k, k ∈ ids <-> is_Some (m !! k)) ->
  (map_to_list m).*2 ≡ₚ omap (fun id => m !! id) ids.
Proof.
  revert m. induction ids as [|id ids IH]; intros m Hnd Hkeys.
  - assert (m = ∅) as ->; [|by rewrite map_to_list_empty].
    apply map_empty. intros k. apply eq_None_not_Some.
    rewrite <- Hkeys. by intros ?%elem_of_nil.
  - apply NoDup_cons in Hnd as [Hid Hnd].
    destruct (proj1 (Hkeys id) ltac:(apply elem_of_cons; auto)) as [v Hv].
    cbn. rewrite Hv.
    rewrite <- (insert_delete_id m id v Hv) at 1.
    rewrite map_to_list_insert by apply lookup_delete_eq. cbn.
    apply Permutation_skip.
    rewrite (IH (delete id m) Hnd).
    + by rewrite omap_delete.
    + intros k. rewrite lookup_delete_is_Some, <- Hkeys, elem_of_cons.
      split.
      * intros Hk. split; [by intros -> | by right].
      * by intros [Hne [-> | Hk]].
Qed.

Lemma titles_fold (l : list (Z * Title)) (acc : list Title) :
  fold_left
    (fun acc (kv : Z * Title) =>
       if 0 <? Duration (snd kv) then acc ++ [snd kv] else acc)
    l acc
  = acc ++ filter (fun t => 0 < Duration t) (l.*2).
Proof.
  revert acc. induction l as [|kv l IH]; intros acc; cbn [fold_left].
  - by rewrite app_nil_r.
  - rewrite IH, fmap_cons, filter_cons.
    destruct (Z.ltb_spec 0 (Duration (snd kv))); case_decide; try lia;
      [by rewrite <- app_assoc | done].
Qed.

Lemma ParseInfo_Titles (range : rangeOrder) (output : string) :
  Titles (ParseInfo range output)
  = filter (fun t => 0 < Duration t) ((range (titleMapOf output)).*2).
Proof.
  unfold ParseInfo, titleMapOf.
  destruct (fold_left parseLine _ _) as [[discName discType] m]. cbn.
  apply titles_fold.
Qed.

(** Every title sits in the map under its own id. *)
Lemma parseTitleInfo_ID (line : string) (m : gmap Z Title) :
  (forall k t, m !! k = Some t -> ID t = k) ->
  forall k t, parseTitleInfo line m !! k = Some t -> ID t = k.
Proof.
  intros Hm. unfold parseTitleInfo.
  destruct (SplitN (drop 6 line) "," 4) as [|p0 [|p1 [|p2 [|p3 [|? ?]]]]];
    try exact Hm.
  destruct (Atoi p0) as [titleID [|]]; [|exact Hm].
  destruct (Atoi p1) as [attributeID [|]]; [|exact Hm].
  intros k t. rewrite lookup_insert_Some. intros [[<- <-] | [_ Hk]]; [|eauto].
  assert (ID match m !! titleID with
             | Some t => t
             | None => mkTitle titleID 0 EmptyString 0 0
             end = titleID) as Hid.
  { destruct (m !! titleID) as [t'|] eqn:E; [by apply Hm | done]. }
  repeat case_match; exact Hid.
Qed.

Lemma titleMapOf_ID (output : string) (k : Z) (t : Title) :
  titleMapOf output !! k = Some t -> ID t = k.
Proof.
  unfold titleMapOf. revert k t.
  assert (forall lines (st : string * string * gmap Z Title),
            (forall k t, snd st !! k = Some t -> ID t = k) ->
            forall k t, snd (fold_left parseLine lines st) !! k = Some t ->
                        ID t = k) as Hfold.
  { induction lines as [|line lines IH]; intros st Hst; [exact Hst|].
    cbn [fold_left]. apply IH. destruct st as [[discName discType] m].
    unfold parseLine. cbn zeta.
    destruct (String.eqb (TrimSpace line) EmptyString); [exact Hst|]. cbn.
    destruct (HasPrefix (TrimSpace line) "TINFO:"); [|exact Hst].
    by apply parseTitleInfo_ID. }
  apply Hfold. cbn. intros k t. by rewrite lookup_empty.
Qed.

(** [scanTitles] lists title ids in scan order: its ids are a subsequence of
    [scanOrder]. *)
Lemma scanTitles_in_scan_order (output : string) :
  sublist (map ID (scanTitles output)) (scanOrder output).
Proof.
  unfold scanTitles. induction (scanOrder output) as [|id ids IH]; [done|].
  cbn [omap list_omap]. destruct (titleMapOf output !! id) as [t|] eqn:E.
  - rewrite filter_cons. case_decide.
    + cbn. rewrite (titleMapOf_ID output id t E). by constructor.
    + by constructor.
  - by constructor.
Qed.

Lemma scanTitles_ids_NoDup (output : string) :
  NoDup (map ID (scanTitles output)).
Proof.
  eapply sublist_NoDup; [|apply scanTitles_in_scan_order].
  apply firstOccurrences_NoDup.
Qed.

(** C6, amended.  For every scan output and every order the map range may
    take, the Titles of the ScanResult are the titles of positive duration,
    one per title id, in some order: a permutation of their scan order. *)
Theorem ParseInfo_permutes_scan_order (range : rangeOrder) (output : string) :
  goRange range ->
  Titles (ParseInfo range output) ≡ₚ scanTitles output.
Proof.
  intros Hrange. rewrite ParseInfo_Titles. unfold scanTitles.
  apply filter_Permutation.
  rewrite (Hrange (titleMapOf output)).
  apply map_values_by_keys.
  - apply firstOccurrences_NoDup.
  - apply titleMapOf_keys.
Qed.

Lemma ParseInfo_permutes_scan_order_witness :
  goRange descending /\
  Titles (ParseInfo descending exampleScan) ≡ₚ scanTitles exampleScan.
Proof.
  split; [apply descending_goRange|].
  apply (ParseInfo_permutes_scan_order descending exampleScan
           descending_goRange).
Defined.

End ParseInfoProperties.

(** ** Decimal numbers: Itoa against Atoi *)

Section DecimalProperties.
Import GoStrings Makemkv.

Lemma digits_acc (d : Decimal.uint) (p : positive) :
  digits (Z.pos p) (DecimalString.NilEmpty.string_of_uint d)
  = Some (Z.pos (Pos.of_uint_acc d p)).
Proof.
  revert p.
  induction d; intros p;
    cbn [DecimalString.NilEmpty.string_of_uint Pos.of_uint_acc digits];
    [done|..];
    match goal with
    | |- context [digit ?c] =>
        let k := eval vm_compute in (digit c) in change (digit c) with k
    end;
    cbv iota beta; rewrite <- IHd; f_equal; lia.
Qed.

Lemma digits_uint (d : Decimal.uint) :
  digits 0 (DecimalString.NilEmpty.string_of_uint d)
  = Some (Z.of_N (Pos.of_uint d)).
Proof.
  induction d;
    cbn [DecimalString.NilEmpty.string_of_uint Pos.of_uint digits]; [done|..];
    match goal with
    | |- context [digit ?c] =>
        let k := eval vm_compute in (digit c) in change (digit c) with k
    end;
    cbv iota beta; [exact IHd|..];
    cbn [Z.of_N]; rewrite <- digits_acc; f_equal.
Qed.

Lemma digits_N (n : N) :
  digits 0 (DecimalString.NilEmpty.string_of_uint (N.to_uint n))
  = Some (Z.of_N n).
Proof.
  rewrite digits_uint. f_equal. f_equal. apply DecimalN.Unsigned.of_to.
Qed.

Lemma uintString_allDigits (d : Decimal.uint) :
  allDigits (DecimalString.NilEmpty.string_of_uint d) = true.
Proof. induction d; cbn; done. Qed.

Lemma N_to_uint_cons (n : N) :
  exists c s,
    DecimalString.NilEmpty.string_of_uint (N.to_uint n) = String c s /\
    isDigit c = true.
Proof.
  assert (forall d, d <> Decimal.Nil ->
            exists c s,
              DecimalString.NilEmpty.string_of_uint d = String c s /\
              isDigit c = true) as Hd.
  { intros [] Hne; [done|..]; cbn; eauto. }
  apply Hd. destruct n as [|p]; [done|].
  apply DecimalPos.Unsigned.to_uint_nonnil.
Qed.

Lemma ParseInt_unsigned (s : string) (v : Z) :
  (exists c s', s = String c s' /\ isDigit c = true) ->
  digits 0 s = Some v -> 0 <= v < 2^63 -> ParseInt s = (v, true).
Proof.
  intros (c & s' & -> & Hc) Hd Hv. unfold ParseInt.
  assert (match String c s' with
          | String "-" s'' => (true, s'')
          | String "+" s'' => (false, s'')
          | _ => (false, String c s')
          end = (false, String c s')) as ->.
  { destruct c as [[] [] [] [] [] [] [] []]; try discriminate Hc; done. }
  cbv iota beta. rewrite Hd.
  destruct (Z.ltb_spec v (- 2^63)); [lia|].
  destruct (Z.ltb_spec (2^63 - 1) v); [lia | done].
Qed.

Lemma ParseInt_negative (s : string) (v : Z) :
  s <> EmptyString ->
  digits 0 s = Some v -> 0 < v <= 2^63 ->
  ParseInt (String "-" s) = (- v, true).
Proof.
  intros Hs Hd Hv. unfold ParseInt. cbv iota beta.
  destruct s as [|c s']; [done|]. rewrite Hd.
  destruct (Z.ltb_spec (- v) (- 2^63)); [lia|].
  destruct (Z.ltb_spec (2^63 - 1) (- v)); [lia | done].
Qed.

(** [Atoi] reads back what [Itoa] writes, over the whole [int64] range. *)
Lemma Atoi_Itoa (n : Z) : - 2^63 <= n < 2^63 -> Atoi (Itoa n) = (n, true).
Proof.
  intros Hn. unfold Atoi, Itoa. destruct (Z.ltb_spec n 0) as [Hneg | Hpos].
  - replace n with (- Z.of_N (Z.abs_N n)) at 2 by lia.
    apply ParseInt_negative; [|apply digits_N|lia].
    destruct (N_to_uint_cons (Z.abs_N n)) as (c & s & -> & _). done.
  - replace n with (Z.of_N (Z.to_N n)) at 2 by lia.
    apply ParseInt_unsigned; [apply N_to_uint_cons|apply digits_N|lia].
Qed.

Lemma digits_zeros (k : nat) (s : string) :
  digits 0 (String.append (zeros k) s) = digits 0 s.
Proof. induction k as [|k IH]; [done|]. cbn. exact IH. Qed.

(** Leading zeros do not change what [Atoi] reads. *)
Lemma Atoi_padded (k : nat) (n : Z) :
  0 <= n < 2^63 -> Atoi (padded k n) = (n, true).
Proof.
  intros Hn. unfold Atoi, padded, Itoa.
  destruct (Z.ltb_spec n 0) as [Hneg | _]; [lia|].
  apply ParseInt_unsigned; [| |done].
  - destruct k as [|k]; [apply N_to_uint_cons|]. cbn. eauto.
  - rewrite digits_zeros, digits_N. f_equal. lia.
Qed.

Lemma allDigits_hasByte (s : string) (sep : ascii) :
  allDigits s = true -> isDigit sep = false -> hasByte sep s = false.
Proof.
  intros Hs Hsep. induction s as [|c s IH]; [done|].
  cbn [allDigits hasByte] in *.
  apply andb_true_iff in Hs as [Hc Hs]. rewrite (IH Hs), orb_false_r.
  destruct (Ascii.eqb_spec c sep) as [-> | _]; [congruence | done].
Qed.

Lemma allDigits_append (s t : string) :
  allDigits s = true -> allDigits t = true ->
  allDigits (String.append s t) = true.
Proof.
  intros Hs Ht. induction s as [|c s IH]; [done|].
  simpl in *.
  apply andb_true_iff in Hs as [Hc Hs].
  apply andb_true_iff. split; [done | by apply IH].
Qed.

Lemma zeros_allDigits (k : nat) : allDigits (zeros k) = true.
Proof. induction k; cbn; done. Qed.

Lemma Itoa_hasByte (n : Z) (sep : ascii) :
  isDigit sep = false -> sep <> "-"%char -> hasByte sep (Itoa n) = false.
Proof.
  intros Hsep Hminus. unfold Itoa. destruct (n <? 0).
  - cbn [hasByte]. destruct (Ascii.eqb_spec "-" sep) as [E | _]; [congruence|].
    by apply allDigits_hasByte; [apply uintString_allDigits|].
  - by apply allDigits_hasByte; [apply uintString_allDigits|].
Qed.

Lemma hasByte_append (sep : ascii) (s t : string) :
  hasByte sep (String.append s t) = hasByte sep s || hasByte sep t.
Proof.
  induction s as [|c s IH]; [done|]. simpl.
  by rewrite IH, orb_assoc.
Qed.

Lemma padded_hasByte (k : nat) (n : Z) (sep : ascii) :
  isDigit sep = false -> sep <> "-"%char -> hasByte sep (padded k n) = false.
Proof.
  intros Hsep Hminus. unfold padded. rewrite hasByte_append.
  rewrite Itoa_hasByte by done.
  by rewrite allDigits_hasByte; [|apply zeros_allDigits|].
Qed.

Lemma Split_whole (s : string) (sep : ascii) :
  hasByte sep s = false -> Split s sep = [s].
Proof.
  induction s as [|c s IH]; [done|]. simpl.
  intros [Hc Hs]%orb_false_iff. rewrite Hc, (IH Hs). done.
Qed.

Lemma Split_append (a b : string) (sep : ascii) :
  hasByte sep a = false ->
  Split (String.append a (String sep b)) sep = a :: Split b sep.
Proof.
  induction a as [|c a IH]; simpl.
  - intros _. by rewrite Ascii.eqb_refl.
  - intros [Hc Ha]%orb_false_iff. rewrite Hc, (IH Ha). done.
Qed.

End DecimalProperties.

(** ** The line parsers of the scan and rip output *)

Section ParserProperties.
Import GoStrings Makemkv.

Lemma append_cons (c : ascii) (s t : string) :
  String.append (String c s) t = String c (String.append s t).
Proof. reflexivity. Qed.

Lemma append_empty_r (s : string) : String.append s EmptyString = s.
Proof. induction s as [|c s IH]; [done|]. by rewrite append_cons, IH. Qed.

Lemma append_assoc (a b c : string) :
  String.append (String.append a b) c = String.append a (String.append b c).
Proof. induction a as [|x a IH]; [done|]. by rewrite !append_cons, IH. Qed.

Lemma length_append (a b : string) :
  String.length (String.append a b) = (String.length a + String.length b)%nat.
Proof.
  induction a as [|x a IH]; [done|]. rewrite append_cons. simpl. by rewrite IH.
Qed.

Lemma HasPrefix_append (p s : string) : HasPrefix (String.append p s) p = true.
Proof.
  induction p as [|c p IH]; [by destruct s|].
  rewrite append_cons. simpl. by rewrite Ascii.eqb_refl.
Qed.

Lemma drop_append (p s : string) :
  drop (String.length p) (String.append p s) = s.
Proof.
  induction p as [|c p IH]; [by destruct s|]. rewrite append_cons. exact IH.
Qed.

(** X1.  [ParseProgress] reads back every progress triplet written in
    decimal, over the whole [int64] range, and ignores any further
    comma-separated fields after the third. *)
Theorem ParseProgress_reads_back (current total max : Z) (tail : string) :
  - 2^63 <= current < 2^63 ->
  - 2^63 <= total < 2^63 ->
  - 2^63 <= max < 2^63 ->
  tail = EmptyString \/ (exists rest, tail = String "," rest) ->
  ParseProgress (progressLine current total max tail)
  = (current, total, max, true).
Proof.
  intros Hc Ht Hm Htail. unfold ParseProgress, progressLine.
  rewrite HasPrefix_append. cbn [negb].
  change 5%nat with (String.length "PRGV:"). rewrite drop_append.
  assert (isDigit "," = false) as Hd by done.
  assert (","%char <> "-"%char) as Hminus by done.
  rewrite Split_append by (by apply Itoa_hasByte).
  rewrite Split_append by (by apply Itoa_hasByte).
  assert (exists more,
            Split (String.append (Itoa max) tail) "," = Itoa max :: more)
    as [more ->].
  { destruct Htail as [-> | [rest ->]].
    - exists []. rewrite append_empty_r.
      by apply Split_whole, Itoa_hasByte.
    - eexists. by apply Split_append, Itoa_hasByte. }
  by rewrite !Atoi_Itoa.
Qed.

Lemma ParseProgress_reads_back_witness :
  (- 2^63 <= 32768 < 2^63) /\ (- 2^63 <= 0 < 2^63) /\
  (- 2^63 <= 65536 < 2^63) /\
  (EmptyString = EmptyString \/ (exists rest, EmptyString = String "," rest)) /\
  ParseProgress (progressLine 32768 0 65536 EmptyString)
  = (32768, 0, 65536, true).
Proof.
  assert (- 2^63 <= 32768 < 2^63) as H1 by lia.
  assert (- 2^63 <= 0 < 2^63) as H2 by lia.
  assert (- 2^63 <= 65536 < 2^63) as H3 by lia.
  split; [exact H1|]. split; [exact H2|]. split; [exact H3|].
  split; [by left|].
  exact (ParseProgress_reads_back 32768 0 65536 EmptyString H1 H2 H3
           (or_introl eq_refl)).
Defined.

Example ParseProgress_example :
  ParseProgress "PRGV:32768,0,65536" = (32768, 0, 65536, true) /\
  ParseProgress "PRGV:1,2" = (0, 0, 0, false) /\
  ParseProgress "PRGV:1,x,3" = (0, 0, 0, false) /\
  ParseProgress "PRGC:1,2,3" = (0, 0, 0, false).
Proof. repeat split; reflexivity. Qed.

Lemma wrap64_small (z : Z) : - 2^63 <= z < 2^63 -> wrap64 z = z.
Proof.
  intros Hz. unfold wrap64. rewrite Z.mod_small; lia.
Qed.

(** X2.  [parseDuration] reads "H:MM:SS", with or without leading zeros,
    as H hours, MM minutes and SS seconds, whenever that duration fits
    [int64] nanoseconds. *)
Theorem parseDuration_reads (kh km ks : nat) (h m s : Z) :
  0 <= h -> 0 <= m -> 0 <= s ->
  h * Hour + m * Minute + s * Second < 2^63 ->
  parseDuration (durationText kh km ks h m s)
  = h * Hour + m * Minute + s * Second.
Proof.
  intros Hh Hm Hs Hfit. unfold parseDuration, durationText.
  assert (isDigit ":" = false) as Hd by done.
  assert (":"%char <> "-"%char) as Hminus by done.
  rewrite Split_append by (by apply padded_hasByte).
  rewrite Split_append by (by apply padded_hasByte).
  rewrite Split_whole by (by apply padded_hasByte).
  unfold Hour, Minute, Second in *.
  rewrite !Atoi_padded by lia. cbn [fst].
  unfold add64, mul64.
  rewrite (wrap64_small (h * _)) by lia.
  rewrite (wrap64_small (m * _)) by lia.
  rewrite (wrap64_small (s * _)) by lia.
  rewrite (wrap64_small (h * _ + m * _)) by lia.
  apply wrap64_small. lia.
Qed.

Lemma parseDuration_reads_witness :
  0 <= 1 /\ 0 <= 45 /\ 0 <= 32 /\
  1 * Hour + 45 * Minute + 32 * Second < 2^63 /\
  parseDuration (durationText 0 0 0 1 45 32)
  = 1 * Hour + 45 * Minute + 32 * Second.
Proof.
  assert (0 <= 1) as H1 by lia. assert (0 <= 45) as H2 by lia.
  assert (0 <= 32) as H3 by lia.
  assert (1 * Hour + 45 * Minute + 32 * Second < 2^63) as H4 by reflexivity.
  split; [exact H1|]. split; [exact H2|]. split; [exact H3|].
  split; [exact H4|].
  exact (parseDuration_reads 0 0 0 1 45 32 H1 H2 H3 H4).
Defined.

Example parseDuration_example :
  parseDuration "0:05:09" = 5 * Minute + 9 * Second /\
  parseDuration "1:45" = 0 /\
  parseDuration "1:xx:30" = Hour + 30 * Second.
Proof. repeat split; reflexivity. Qed.

Lemma len_cons (c : ascii) (s : string) : len (String c s) = 1 + len s.
Proof. unfold len. simpl. lia. Qed.

Lemma len_nonneg (s : string) : 0 <= len s.
Proof. unfold len. lia. Qed.

Lemma IndexByte_none (c : ascii) (s : string) :
  hasByte c s = false -> IndexByte s c = -1.
Proof.
  induction s as [|a s IH]; [done|]. simpl.
  intros [Ha Hs]%orb_false_iff. by rewrite Ha, (IH Hs).
Qed.

Lemma LastIndexByte_none (c : ascii) (s : string) :
  hasByte c s = false -> LastIndexByte s c = -1.
Proof.
  induction s as [|a s IH]; [done|]. simpl.
  intros [Ha Hs]%orb_false_iff. by rewrite Ha, (IH Hs).
Qed.

Lemma IndexByte_first (c : ascii) (pre rest : string) :
  hasByte c pre = false ->
  IndexByte (String.append pre (String c rest)) c = len pre.
Proof.
  induction pre as [|a pre IH]; rewrite ?append_cons; simpl.
  - intros _. by rewrite Ascii.eqb_refl.
  - intros [Ha Hpre]%orb_false_iff. rewrite Ha, (IH Hpre), len_cons.
    pose proof (len_nonneg pre). destruct (Z.ltb_spec (len pre) 0); lia.
Qed.

Lemma LastIndexByte_last (c : ascii) (before post : string) :
  hasByte c post = false ->
  LastIndexByte (String.append before (String c post)) c = len before.
Proof.
  intros Hpost. induction before as [|a before IH]; rewrite ?append_cons; simpl.
  - by rewrite (LastIndexByte_none c post Hpost), Ascii.eqb_refl.
  - rewrite IH, len_cons. pose proof (len_nonneg before).
    destruct (Z.leb_spec 0 (len before)); lia.
Qed.

Lemma substring_skip (pre s : string) (n k : nat) :
  String.substring (String.length pre + n) k (String.append pre s)
  = String.substring n k s.
Proof. induction pre as [|a pre IH]; [done|]. rewrite append_cons. exact IH. Qed.

Lemma substring_prefix (v rest : string) :
  String.substring 0 (String.length v) (String.append v rest) = v.
Proof.
  induction v as [|a v IH]; [by destruct rest|].
  rewrite append_cons. simpl. by rewrite IH.
Qed.

(** X3.  [extractQuotedValue] returns what stands between the first and
    the last double quote of its argument, further quotes included, and
    the empty string when there are fewer than two quotes. *)
Theorem extractQuotedValue_between (pre value post : string) :
  hasByte quote pre = false -> hasByte quote post = false ->
  extractQuotedValue (quoted pre value post) = value /\
  extractQuotedValue (String.append pre (String quote post)) = EmptyString /\
  extractQuotedValue pre = EmptyString.
Proof.
  intros Hpre Hpost. unfold extractQuotedValue. split; [|split].
  - unfold quoted. rewrite IndexByte_first by done.
    replace (String.append pre
               (String quote (String.append value (String quote post))))
      with (String.append (String.append pre (String quote value))
              (String quote post))
      by (by rewrite append_assoc).
    rewrite LastIndexByte_last by done.
    rewrite append_assoc, append_cons.
    assert (len (String.append pre (String quote value)) = len pre + 1 + len value)
      as ->.
    { unfold len. rewrite length_append. simpl. lia. }
    pose proof (len_nonneg pre). pose proof (len_nonneg value).
    destruct (Z.eqb_spec (len pre) (-1)); [lia|].
    destruct (Z.eqb_spec (len pre + 1 + len value) (-1)); [lia|].
    destruct (Z.ltb_spec (len pre) (len pre + 1 + len value)); [|lia].
    cbn [negb andb]. unfold slice, len.
    replace (Z.to_nat (Z.of_nat (String.length pre) + 1))
      with (String.length pre + 1)%nat by lia.
    replace (Z.to_nat _) with (String.length value) by lia.
    rewrite substring_skip. simpl. apply substring_prefix.
  - rewrite IndexByte_first, LastIndexByte_last by done.
    pose proof (len_nonneg pre).
    destruct (Z.ltb_spec (len pre) (len pre)); [lia|].
    by rewrite andb_false_r.
  - by rewrite IndexByte_none.
Qed.

Lemma extractQuotedValue_between_witness :
  hasByte quote "TINFO:0,2,0," = false /\ hasByte quote EmptyString = false /\
  extractQuotedValue (quoted "TINFO:0,2,0," "Main, Title" EmptyString)
  = "Main, Title" /\
  extractQuotedValue
    (String.append "TINFO:0,2,0," (String quote EmptyString)) = EmptyString /\
  extractQuotedValue "TINFO:0,2,0," = EmptyString.
Proof.
  split; [reflexivity|]. split; [reflexivity|].
  exact (extractQuotedValue_between "TINFO:0,2,0," "Main, Title" EmptyString
           eq_refl eq_refl).
Defined.

(** X4.  [ParseStatusMessage] returns the quoted message of a PRGC or PRGT
    line, whatever the fields before it, and never reports success with an
    empty message. *)
Theorem ParseStatusMessage_reads (kind fields message post line : string) :
  kind = "PRGC:" \/ kind = "PRGT:" ->
  hasByte quote fields = false -> hasByte quote post = false ->
  message <> EmptyString ->
  ParseStatusMessage (String.append kind (quoted fields message post))
  = (message, true) /\
  (snd (ParseStatusMessage line) = true ->
   fst (ParseStatusMessage line) <> EmptyString) /\
  (snd (ParseStatusMessage line) = false ->
   fst (ParseStatusMessage line) = EmptyString).
Proof.
  intros Hkind Hfields Hpost Hmsg. split; [|split].
  - unfold ParseStatusMessage.
    assert (negb (HasPrefix (String.append kind (quoted fields message post))
                    "PRGC:")
            && negb (HasPrefix (String.append kind
                                  (quoted fields message post)) "PRGT:")
            = false) as ->.
    { destruct Hkind as [-> | ->]; by rewrite HasPrefix_append, ?andb_false_r. }
    assert (String.append kind (quoted fields message post)
            = quoted (String.append kind fields) message post) as ->.
    { unfold quoted. by rewrite append_assoc. }
    destruct (extractQuotedValue_between (String.append kind fields) message post)
      as [-> _]; [|done|].
    + rewrite hasByte_append, Hfields. by destruct Hkind as [-> | ->].
    + by apply String.eqb_neq in Hmsg as ->.
  - unfold ParseStatusMessage. destruct (negb _ && negb _); [done|].
    destruct (String.eqb_spec (extractQuotedValue line) EmptyString); done.
  - unfold ParseStatusMessage. destruct (negb _ && negb _); [done|].
    destruct (String.eqb_spec (extractQuotedValue line) EmptyString); done.
Qed.

Lemma ParseStatusMessage_reads_witness :
  ("PRGC:" = "PRGC:" \/ "PRGC:" = "PRGT:") /\
  hasByte quote "3400,7," = false /\ hasByte quote EmptyString = false /\
  "Scanning contents" <> EmptyString /\
  ParseStatusMessage
    (String.append "PRGC:" (quoted "3400,7," "Scanning contents" EmptyString))
  = ("Scanning contents", true).
Proof.
  assert ("Scanning contents" <> EmptyString) as Hne by discriminate.
  split; [by left|]. split; [reflexivity|]. split; [reflexivity|].
  split; [exact Hne|].
  exact (proj1 (ParseStatusMessage_reads "PRGC:" "3400,7,"
                  "Scanning contents" EmptyString EmptyString
                  (or_introl eq_refl) eq_refl eq_refl Hne)).
Defined.

End ParserProperties.

(** ** What a scan yields *)

Section ScanProperties.
Import GoStrings Makemkv.

Lemma map_to_list_ids (output : string) (l : list (Z * Title)) :
  l ≡ₚ map_to_list (titleMapOf output) ->
  ID <$> l.*2 = l.*1.
Proof.
  intros Hl. rewrite <- list_fmap_compose. apply list_fmap_ext.
  intros i [k t] Hi. cbn. eapply titleMapOf_ID.
  apply elem_of_map_to_list. rewrite <- Hl. by eapply list_elem_of_lookup_2.
Qed.

(** X5.  Whatever order the map range takes, [ParseInfo] returns exactly
    the titles of the title map that have a positive duration, each under
    its own id, and no title id twice. *)
Theorem ParseInfo_titles (range : rangeOrder) (output : string) :
  goRange range ->
  (forall t, t ∈ Titles (ParseInfo range output) <->
             titleMapOf output !! ID t = Some t /\ 0 < Duration t) /\
  NoDup (ID <$> Titles (ParseInfo range output)).
Proof.
  intros Hrange. rewrite ParseInfo_Titles. split.
  - intros t. rewrite list_elem_of_filter, (Hrange (titleMapOf output)).
    rewrite list_elem_of_fmap. split.
    + intros [Hpos ([k t'] & -> & Hin%elem_of_map_to_list)]. cbn in *.
      by rewrite (titleMapOf_ID _ _ _ Hin).
    + intros [Hin Hpos]. split; [done|]. exists (ID t, t).
      split; [done|]. by apply elem_of_map_to_list.
  - eapply sublist_NoDup; [|apply fmap_sublist, sublist_filter].
    rewrite (map_to_list_ids output) by apply Hrange.
    rewrite (Hrange (titleMapOf output)). apply NoDup_fst_map_to_list.
Qed.

Lemma ParseInfo_titles_witness :
  goRange descending /\
  (forall t, t ∈ Titles (ParseInfo descending exampleScan) <->
             titleMapOf exampleScan !! ID t = Some t /\ 0 < Duration t) /\
  NoDup (ID <$> Titles (ParseInfo descending exampleScan)).
Proof.
  split; [apply descending_goRange|].
  exact (ParseInfo_titles descending exampleScan descending_goRange).
Defined.

(** X6.  On the titles of a scan, [SelectTitles] follows its rule for all
    thresholds, zero and negative ones included: if some title reaches the
    movie threshold it returns the first title of maximal duration alone,
    otherwise the titles that reach the episode threshold, in order. *)
Theorem SelectTitles_of_scan (range : rangeOrder) (output : string)
    (movieThreshold episodeThreshold : Z) :
  let titles := Titles (ParseInfo range output) in
  ((exists t, t ∈ titles /\ movieThreshold <= Duration t) ->
   exists pre t post,
     titles = pre ++ t :: post /\
     SelectTitles titles movieThreshold episodeThreshold = [t] /\
     Forall (fun u => Duration u < Duration t) pre /\
     Forall (fun u => Duration u <= Duration t) post) /\
  ((forall t, t ∈ titles -> Duration t < movieThreshold) ->
   SelectTitles titles movieThreshold episodeThreshold
   = List.filter (fun t => episodeThreshold <=? Duration t) titles).
Proof.
  cbn zeta.
  assert (forall t, t ∈ Titles (ParseInfo range output) -> 0 < Duration t)
    as Hpos.
  { intros t. rewrite ParseInfo_Titles, list_elem_of_filter. tauto. }
  destruct (Titles (ParseInfo range output)) as [|t0 titles].
  { split; [|done]. by intros (t & ?%elem_of_nil & _). }
  unfold SelectTitles.
  pose proof (maxDuration_fold (t0 :: titles) 0) as Hmax; cbn zeta in Hmax.
  destruct Hmax as (H0 & Hall & Hwit).
  set (maxDuration := fold_left _ (t0 :: titles) 0) in *.
  split.
  - intros (t & Hin & Ht).
    assert (movieThreshold <= maxDuration) as Hmovie.
    { rewrite Forall_forall in Hall. specialize (Hall t Hin).
      cbn beta in Hall. lia. }
    destruct (Z.leb_spec movieThreshold maxDuration); [|lia].
    destruct (findLongestTitle_first_max t0 titles)
      as (pre & l & post & Hl & Heq & Hpre & Hpost).
    exists pre, l, post. by rewrite Hl.
  - intros Hshort.
    assert (maxDuration < movieThreshold) as Hepisode.
    { destruct Hwit as [-> | (u & Hu & <-)]; [|by apply Hshort].
      specialize (Hshort t0 ltac:(apply elem_of_cons; auto)).
      specialize (Hpos t0 ltac:(apply elem_of_cons; auto)). lia. }
    destruct (Z.leb_spec movieThreshold maxDuration); [lia|].
    apply episode_fold.
Qed.

Lemma parseLine_discType (discName discType : string) (m : gmap Z Title)
    (line : string) :
  snd (fst (parseLine (discName, discType, m) line))
  = if bluRayMarker (TrimSpace line) then "Blu-ray"
    else if Contains (ToLower (TrimSpace line)) "dvd"
         then (if String.eqb discType EmptyString then "DVD" else discType)
         else discType.
Proof.
  unfold parseLine. cbn zeta.
  destruct (String.eqb_spec (TrimSpace line) EmptyString) as [-> | _]; done.
Qed.

(** The disc type after the loop over [lines], started with [discType]. *)
Lemma parseLines_discType (lines : list string)
    (st : string * string * gmap Z Title) :
  snd (fst st) = EmptyString \/ snd (fst st) = "DVD"
  \/ snd (fst st) = "Blu-ray" ->
  let discType' := snd (fst (fold_left parseLine lines st)) in
  if existsb (fun line => bluRayMarker (TrimSpace line)) lines
  then discType' = "Blu-ray"
  else if String.eqb (snd (fst st)) "Blu-ray" then discType' = "Blu-ray"
       else discType' = EmptyString \/ discType' = "DVD".
Proof.
  revert st. induction lines as [|line lines IH]; intros st Hdt; cbn zeta.
  - cbn. destruct Hdt as [-> | [-> | ->]]; cbn; auto.
  - cbn [fold_left existsb].
    destruct st as [[discName discType] m]. cbn [fst snd] in *.
    pose proof (parseLine_discType discName discType m line) as Hstep.
    specialize (IH (parseLine (discName, discType, m) line)). cbn zeta in IH.
    destruct (bluRayMarker (TrimSpace line)); cbn [orb].
    + rewrite Hstep in IH. specialize (IH ltac:(auto)).
      by destruct (existsb _ lines).
    + rewrite Hstep in IH.
      destruct (Contains (ToLower (TrimSpace line)) "dvd");
        destruct Hdt as [-> | [-> | ->]]; cbn in IH |- *; apply IH; auto.
Qed.

(** X7.  The disc type of a scan is "Blu-ray" exactly when some line, with
    its surrounding white space trimmed, contains "blu-ray" or "bd-rom" in
    any letter case, and "DVD" otherwise: no "dvd" marker, before or after,
    overrides it.  [DetectDiscTypeFromInfo] maps the two to the Blu-ray and
    the DVD kind. *)
Theorem ParseInfo_DiscType (range : rangeOrder) (output : string) :
  DiscType (ParseInfo range output)
  = (if anyBluRay output then "Blu-ray" else "DVD") /\
  DiskInfo.DetectDiscTypeFromInfo (DiscType (ParseInfo range output))
  = (if anyBluRay output then Disk.DiscTypeBluRay else Disk.DiscTypeDVD).
Proof.
  assert (DiscType (ParseInfo range output)
          = if anyBluRay output then "Blu-ray" else "DVD") as ->.
  { unfold ParseInfo, anyBluRay.
    pose proof (parseLines_discType (Split output "010")
                  (EmptyString, EmptyString, ∅) ltac:(auto)) as H.
    cbn zeta in H.
    destruct (fold_left parseLine _ _) as [[discName discType] m].
    cbn in *. destruct (existsb _ _).
    - by rewrite H.
    - by destruct H as [-> | ->]. }
  split; [done|]. by destruct (anyBluRay output).
Qed.

Example ParseInfo_DiscType_example :
  DiscType (ParseInfo descending
              (String.append "DRV:0,2,999,1,BD-ROM drive"
                 (String "010" "MSG:1005,0,1,dvd compatible"))) = "Blu-ray" /\
  DiscType (ParseInfo descending "MSG:1005,0,1,dvd compatible") = "DVD" /\
  DiscType (ParseInfo descending EmptyString) = "DVD".
Proof. repeat split; vm_compute; reflexivity. Qed.

End ScanProperties.

(** ** SanitizeFilename, applied twice *)

Section SanitizeTwice.
Import GoStrings Disk.

Lemma replaceByte_fixed (c : ascii) :
  c ∉ problematic -> replaceByte replacer c = c.
Proof.
  intros Hc. destruct c as [[] [] [] [] [] [] [] []];
    first [reflexivity
          | exfalso; apply Hc; rewrite list_elem_of_In; cbn; tauto].
Qed.

Lemma Replace_fixed (s : string) :
  (forall c, c ∈ bytes s -> c ∉ problematic) -> Replace replacer s = s.
Proof.
  induction s as [|a s IH]; intros Hs; [done|].
  change (Replace replacer (String a s))
    with (String (replaceByte replacer a) (Replace replacer s)).
  rewrite replaceByte_fixed, IH; [done| |].
  - intros c Hc. apply Hs. simpl. apply elem_of_cons. by right.
  - apply Hs. simpl. apply elem_of_cons. by left.
Qed.

Lemma TrimLeftBy_fixed f (s : string) :
  (forall c, head (bytes s) = Some c -> f c = false) -> TrimLeftBy f s = s.
Proof.
  destruct s as [|a s]; [done|]. simpl. intros Hs. by rewrite (Hs a).
Qed.

Lemma TrimRightBy_fixed f (s : string) :
  (forall c, last (bytes s) = Some c -> f c = false) -> TrimRightBy f s = s.
Proof.
  induction s as [|a s IH]; [done|]. simpl. intros Hs.
  destruct s as [|b s].
  - simpl. by rewrite (Hs a).
  - rewrite IH; [done|]. exact Hs.
Qed.

(** X8.  [SanitizeFilename] is idempotent: a sanitized name is left as it
    is. *)
Theorem SanitizeFilename_idempotent (name : string) :
  SanitizeFilename (SanitizeFilename name) = SanitizeFilename name.
Proof.
  unfold SanitizeFilename at 2 3.
  destruct (String.eqb_spec (Trim (Replace replacer name) "_.") EmptyString)
    as [E | E]; [reflexivity|].
  set (t := Trim (Replace replacer name) "_.") in *.
  assert (Replace replacer t = t) as Hr.
  { apply Replace_fixed. intros c Hc. eapply Replace_clean.
    by eapply TrimLeftBy_incl, TrimRightBy_incl. }
  assert (Trim t "_." = t) as Ht.
  { unfold Trim. rewrite (TrimLeftBy_fixed _ t).
    - apply TrimRightBy_fixed. intros c Hc. by eapply TrimRightBy_last.
    - intros c Hc. by eapply TrimLeftBy_head, TrimRightBy_head. }
  unfold SanitizeFilename. rewrite Hr, Ht.
  by apply String.eqb_neq in E as ->.
Qed.

End SanitizeTwice.

(** ** More of the queue *)

Section QueueMore.
Import GoStrings Encode.
Context `{JSON}.

(** X9.  [ClearCompleted] keeps exactly the items that are neither Complete
    nor Failed, in their order, and clearing again changes nothing. *)
Theorem ClearCompleted_keeps (q : Queue) (w w' : World)
    (fault fault' : SaveFault) :
  let q1 := queueOf (ClearCompleted fault q w) in
  sublist (items q1) (items q) /\
  (forall item, item ∈ items q1 <->
     item ∈ items q /\ Status item <> StatusComplete
     /\ Status item <> StatusFailed) /\
  items (queueOf (ClearCompleted fault' q1 w')) = items q1.
Proof.
  cbn zeta. unfold ClearCompleted. rewrite !items_saved.
  split; [|split].
  - induction (items q) as [|x l IH]; cbn; [done|].
    destruct (_ && _); by constructor.
  - intros item. rewrite list_elem_of_In, filter_In, <- list_elem_of_In.
    rewrite andb_true_iff, !negb_true_iff, !Z.eqb_neq. tauto.
  - induction (items q) as [|x l IH]; cbn; [done|].
    destruct (_ && _) eqn:E; cbn; [|done]. by rewrite E, IH.
Qed.

(** X10.  [Remove] deletes every item carrying the id, duplicates
    included, and keeps the others in their order; for an id that no item
    carries the items stay as they are, but the state is still saved. *)
Theorem Remove_removes (id : string) (fault : SaveFault)
    (q : Queue) (w : World) :
  let r := Remove id fault q w in
  sublist (items (queueOf r)) (items q) /\
  (forall item, item ∈ items (queueOf r) <->
     item ∈ items q /\ ID item <> id) /\
  ((forall item, item ∈ items q -> ID item <> id) ->
   items (queueOf r) = items q /\
   exists calls, calls <> [] /\ trace (snd (fst r)) = trace w ++ calls).
Proof.
  cbn zeta. unfold Remove. rewrite !items_saved. split; [|split].
  - induction (items q) as [|x l IH]; cbn; [done|].
    destruct (negb _); by constructor.
  - intros item. rewrite list_elem_of_In, filter_In, <- list_elem_of_In.
    rewrite negb_true_iff, String.eqb_neq. tauto.
  - intros Hid. split.
    + induction (items q) as [|x l IH]; cbn; [done|].
      destruct (String.eqb_spec (ID x) id) as [E | _]; cbn.
      * exfalso. apply (Hid x); [apply elem_of_cons; auto | done].
      * rewrite IH; [done|]. intros y Hy. apply Hid, elem_of_cons. auto.
    + unfold saved, Save.
      destruct fault; cbn; repeat case_match; simplify_eq; cbn;
        rewrite <- ?app_assoc; eexists; (split; [|reflexivity]); done.
Qed.

(** X11.  [GetNext] returns the first Queued item in queue order, and nil
    exactly when no item is Queued. *)
Theorem GetNext_first_queued (q : Queue) :
  (forall item, GetNext q = Some item <->
     exists pre post,
       items q = pre ++ item :: post /\ Status item = StatusQueued /\
       Forall (fun x => Status x <> StatusQueued) pre) /\
  (GetNext q = None <-> Forall (fun x => Status x <> StatusQueued) (items q)).
Proof.
  unfold GetNext. induction (items q) as [|x l [IHs IHn]]; cbn.
  - split; [|done]. intros item. split; [done|].
    by intros ([|??] & post & ? & _).
  - destruct (Z.eqb_spec (Status x) StatusQueued) as [E | E].
    + split.
      * intros item. split.
        -- intros [= <-]. exists [], l. by repeat split.
        -- intros ([|y pre] & post & Heq & Hq & Hpre); simplify_eq/=; [done|].
           by apply Forall_cons in Hpre as [? _].
      * split; [done|]. by intros [? _]%Forall_cons.
    + split.
      * intros item. rewrite IHs. split.
        -- intros (pre & post & -> & Hq & Hpre). exists (x :: pre), post.
           repeat split; [done|]. by constructor.
        -- intros ([|y pre] & post & Heq & Hq & Hpre); simplify_eq/=;
             try done.
           apply Forall_cons in Hpre as [_ Hpre]. by exists pre, post.
      * rewrite IHn. split; [by constructor | by intros [_ ?]%Forall_cons].
Qed.

Lemma updateFirst_touchedFirstOnly (id : string) f (its its' : list QueueItem) :
  (forall x, ID (f x) = ID x) ->
  updateFirst id f its = Some its' -> touchedFirstOnly id its its'.
Proof.
  intros Hf. revert its'.
  induction its as [|a its IH]; intros its'; cbn; [done|].
  destruct (String.eqb_spec (ID a) id) as [E | E].
  - intros [= <-]. split; [cbn; by rewrite Hf|].
    intros [|i] x x' Hx Hx' Hne; simplify_eq/=.
    split; [done|]. intros j y Hj. lia.
  - destruct (updateFirst id f its) as [rest|]; [|done].
    intros [= <-]. destruct (IH rest eq_refl) as [Hids Hfirst].
    split; [cbn; by rewrite Hids|].
    intros [|i] x x' Hx Hx' Hne; simplify_eq/=; try done.
    destruct (Hfirst i x x' Hx Hx' Hne) as [Hid Hbefore].
    split; [done|]. intros [|j] y Hj Hy; simplify_eq/=; try done.
    apply (Hbefore j y); [lia | done].
Qed.

Lemma update_touchedFirstOnly (id : string) f fault (q : Queue) (w : World) :
  (forall x, ID (f x) = ID x) ->
  touchedFirstOnly id (items q) (items (queueOf (update id f fault q w))).
Proof.
  intros Hf. rewrite items_update.
  destruct (updateFirst id f (items q)) as [its'|] eqn:E; cbn.
  - by eapply updateFirst_touchedFirstOnly.
  - split; [done|]. intros i x x' Hx Hx' Hne. congruence.
Qed.

(** X12.  [UpdateProgress], [SetStatus] and [Fail] never add, remove or
    reorder items, and change at most the first item that carries the id:
    a second item with the same id is never touched. *)
Theorem update_by_id_touches_first_only (id : string) (q : Queue) (w : World)
    (fault : SaveFault) (progress : spec_float) (status : ItemStatus)
    (err : string) (now : Time) :
  touchedFirstOnly id (items q)
    (items (queueOf (UpdateProgress id progress fault q w))) /\
  touchedFirstOnly id (items q)
    (items (queueOf (SetStatus id status now fault q w))) /\
  touchedFirstOnly id (items q)
    (items (queueOf (Fail id err now fault q w))).
Proof.
  unfold UpdateProgress, SetStatus, Fail.
  split; [|split]; apply update_touchedFirstOnly; intros x; [done| |done].
  cbn zeta. by repeat case_match.
Qed.

End QueueMore.

Section QueueMoreExamples.
Import GoStrings Encode.
#[local] Existing Instance writeOnlyJSON.

Lemma Remove_removes_witness :
  let q := mkQueue exampleItems (NewStatePersistence "queue.json") in
  let r := Remove "c" NoFault q exampleWorld in
  (forall item, item ∈ items q -> ID item <> "c") /\
  items (queueOf r) = items q /\
  exists calls, calls <> [] /\ trace (snd (fst r)) = trace exampleWorld ++ calls.
Proof.
  cbn zeta.
  assert (forall item, item ∈ exampleItems -> ID item <> "c") as Hid.
  { intros item Hin. unfold exampleItems in Hin.
    repeat (apply elem_of_cons in Hin as [-> | Hin]; [discriminate|]).
    by apply elem_of_nil in Hin. }
  split; [exact Hid|].
  exact (proj2 (proj2 (Remove_removes "c" NoFault
                         (mkQueue exampleItems
                            (NewStatePersistence "queue.json"))
                         exampleWorld)) Hid).
Defined.

Example duplicate_id_untouched :
  map (fun i => (ID i, Status i))
    (items (queueOf (Fail "a" "boom" 1 NoFault
                       (mkQueue [exampleItem "a" StatusEncoding;
                                 exampleItem "a" StatusQueued]
                          (NewStatePersistence "queue.json"))
                       (mkWorld ∅ []))))
  = [("a", StatusFailed); ("a", StatusQueued)].
Proof. reflexivity. Qed.

End QueueMoreExamples.

(** ** More of the persistence layer *)

Section StateMore.
Import GoStrings Encode.
Context `{JSON}.

Lemma tmpPath_fresh (p : string) : String.append p ".tmp" <> p.
Proof.
  intros E. apply (f_equal String.length) in E.
  rewrite length_append in E. cbn in E. lia.
Qed.

(** X13.  [Save] is all or nothing on the state file: when it returns nil
    no system call failed, the state file holds the document of the items
    and the temporary file is gone; when it returns an error the state file
    reads as it did before the call. *)
Theorem Save_all_or_nothing (sp : StatePersistence) (its : list QueueItem)
    (fault : SaveFault) (w : World) :
  let r := Save sp its fault w in
  match snd r with
  | None =>
      fault = NoFault /\
      (exists data, Marshal its = Some data /\
                    files (fst r) !! filePath sp = Some data) /\
      files (fst r) !! String.append (filePath sp) ".tmp" = None
  | Some _ => files (fst r) !! filePath sp = files w !! filePath sp
  end.
Proof.
  pose proof (tmpPath_fresh (filePath sp)) as Hfresh.
  cbn zeta. unfold Save.
  destruct fault, (Marshal its) as [data|]; cbn; try done.
  - split; [done|]. split.
    + exists data. split; [done|]. by rewrite lookup_insert_eq.
    + rewrite lookup_insert_ne by done. by rewrite lookup_delete_eq.
  - by rewrite lookup_insert_ne.
Qed.

(** X14.  A failed save rolls nothing back: the items a queue method leaves
    in memory are the same under every outcome of the file system. *)
Theorem memory_ignores_save_faults (c : Call) (fault : SaveFault)
    (q : Queue) (w : World) :
  items (fst (call (setFault fault c) q w)) = items (fst (call c q w)).
Proof.
  assert (forall id f f1 f2,
            items (queueOf (update id f f1 q w))
            = items (queueOf (update id f f2 q w))) as Hupd.
  { intros id f f1 f2. by rewrite !items_update. }
  assert (forall its f1 f2,
            items (queueOf (saved q its f1 w))
            = items (queueOf (saved q its f2 w))) as Hsaved.
  { intros its f1 f2. by rewrite !items_saved. }
  unfold queueOf in Hupd, Hsaved.
  destruct c; cbn [setFault call]; try done;
    unfold Add, UpdateProgress, SetStatus, Complete, Fail, ClearCompleted,
      RetryFailed, Remove;
    first [ apply Hupd | apply Hsaved ].
Qed.

Lemma nonNil_None (its : list (option QueueItem)) :
  nonNil its = None <-> None ∈ its.
Proof.
  induction its as [|[item|] its IH]; cbn.
  - split; [done | by intros ?%elem_of_nil].
  - destruct (nonNil its) as [items|].
    + split; [done|]. intros [?|Hin]%elem_of_cons; [done|].
      by apply IH in Hin.
    + split; [|done]. intros _. right. by apply IH.
  - split; [|done]. intros _. by left.
Qed.

(** X15.  [LoadState] without a usable state file.  When the file does not
    exist ([os.ReadFile] fails with "not exist") the queue is emptied,
    whatever it held, and the empty state is saved.  When [os.ReadFile]
    fails in another way, or the document cannot be decoded, the queue is
    left as it was and no file is written.  Whenever [LoadState] returns it
    returns nil, these cases included; it does not return (a nil pointer is
    dereferenced) exactly when the file is read and its document decodes to
    a slice with a null element. *)
Theorem LoadState_without_state (readFails : bool) (fault : SaveFault)
    (q : Queue) (w : World) :
  let path := filePath (persistence q) in
  let w1 := sys (SysReadFile path) w in
  (readFails = false -> files w !! path = None ->
   LoadState readFails fault q w
   = Some (mkQueue [] (persistence q),
           fst (Save (persistence q) [] fault w1), None)) /\
  (readFails = true \/
   (exists data, files w !! path = Some data /\ Unmarshal data = None) ->
   LoadState readFails fault q w = Some (q, w1, None)) /\
  (forall r, LoadState readFails fault q w = Some r -> snd r = None) /\
  (LoadState readFails fault q w = None <->
   readFails = false /\
   exists data its,
     files w !! path = Some data /\ Unmarshal data = Some its /\ None ∈ its).
Proof.
  cbn zeta. unfold LoadState, Load, saved. cbn.
  split; [|split; [|split]].
  - intros -> ->. cbn. by destruct (Save _ _ _ _).
  - intros [-> | (data & -> & ->)]; [done|]. by destruct readFails.
  - intros r. repeat case_match; simplify_eq/=; by intros [= <-].
  - destruct readFails; [split; [done | by intros [? _]]|].
    destruct (files w !! filePath (persistence q)) as [data|] eqn:Efile.
    2:{ cbn. destruct (Save _ _ _ _). split; [done|].
        by intros (_ & ? & ? & ? & _). }
    destruct (Unmarshal data) as [its|] eqn:Edec.
    2:{ split; [done|]. intros (_ & ? & ? & [= <-] & ? & _). congruence. }
    destruct (nonNil its) as [items|] eqn:Enil.
    + destruct (Save _ _ _ _). split; [done|].
      intros (_ & ? & its' & [= <-] & Hdec & Hin).
      rewrite Edec in Hdec. injection Hdec as <-.
      apply nonNil_None in Hin. congruence.
    + split; [|done]. intros _. split; [done|].
      exists data, its. repeat split; try done. by apply nonNil_None.
Qed.

(** X16.  The state in which the worker starts: [App.Run] calls [LoadState]
    on the new queue before the worker goroutine exists.  Whatever the state
    file holds and whatever fails, if [LoadState] returns then no item is
    Encoding; and it fails to return, so that the worker never starts, only
    when the document of the state file has a null element. *)
Theorem start_state_initial (readFails : bool) (fault : SaveFault)
    (statePath : string) (w : World) :
  match LoadState readFails fault (NewQueue statePath) w with
  | Some r =>
      initial (mkSystem (queueOf r) (snd (fst r)) NewWorker Idle) /\
      GetCurrent (queueOf r) = None
  | None =>
      readFails = false /\
      exists data its,
        files w !! statePath = Some data /\
        Unmarshal data = Some its /\ None ∈ its
  end.
Proof.
  destruct (LoadState readFails fault (NewQueue statePath) w) as [r|] eqn:E.
  - pose proof (LoadState_settled readFails fault statePath w r E) as Hs.
    unfold initial, encodingCount, GetCurrent. cbn [phase queue].
    unfold settled in Hs.
    induction Hs as [|x l Hx _ [[_ IHc] IHg]]; cbn; [done|].
    rewrite Hx. unfold isEncoding in Hx. by rewrite Hx.
  - by apply (proj2 (proj2 (proj2
               (LoadState_without_state readFails fault
                  (NewQueue statePath) w)))) in E.
Qed.

(** X17.  After [Add], [HasSourcePath] finds the added item's source path,
    also when the save failed; for every other path its answer is as
    before. *)
Theorem Add_HasSourcePath (item : QueueItem) (fault : SaveFault)
    (q : Queue) (w : World) (sourcePath : string) :
  HasSourcePath sourcePath (queueOf (Add item fault q w))
  = HasSourcePath sourcePath q || String.eqb (SourcePath item) sourcePath.
Proof.
  unfold HasSourcePath, Add. rewrite items_saved.
  induction (items q) as [|x l IH]; cbn.
  - by rewrite orb_false_r.
  - rewrite IH. by rewrite orb_assoc.
Qed.

(** X18.  The queue is first in, first out: after [Add], [GetNext] still
    returns the item it returned before; when there was none it returns the
    added item if that is Queued, and nil otherwise. *)
Theorem Add_GetNext (item : QueueItem) (fault : SaveFault)
    (q : Queue) (w : World) :
  GetNext (queueOf (Add item fault q w))
  = match GetNext q with
    | Some next => Some next
    | None => if Status item =? StatusQueued then Some item else None
    end.
Proof.
  unfold GetNext, Add. rewrite items_saved.
  induction (items q) as [|x l IH]; cbn; [done|].
  by destruct (Status x =? StatusQueued).
Qed.

End StateMore.

Section StateMoreExamples.
Import GoStrings Encode.
#[local] Existing Instance writeOnlyJSON.

Lemma LoadState_without_state_witness :
  let q := mkQueue exampleItems (NewStatePersistence "other.json") in
  LoadState false NoFault q exampleWorld
  = Some (mkQueue [] (persistence q),
          fst (Save (persistence q) [] NoFault
                 (sys (SysReadFile "other.json") exampleWorld)), None).
Proof.
  cbn zeta.
  apply (proj1 (LoadState_without_state false NoFault
                  (mkQueue exampleItems (NewStatePersistence "other.json"))
                  exampleWorld));
    reflexivity.
Defined.

End StateMoreExamples.

(** ** More of the worker *)

Section WorkerMore.
Import GoStrings Encode.
Context `{JSON}.

Lemma settled_GetCurrent (its : list QueueItem) :
  settled its -> List.find (fun item => Status item =? StatusEncoding) its = None.
Proof.
  unfold settled. induction 1 as [|x l Hx _ IH]; cbn; [done|].
  unfold isEncoding in Hx. by rewrite Hx.
Qed.

Lemma others_GetCurrent (id : string) (its : list QueueItem) (x : QueueItem) :
  settled (others id its) ->
  List.find (fun item => Status item =? StatusEncoding) its = Some x ->
  lookupID id its = Some x.
Proof.
  unfold lookupID. induction its as [|a its IH]; cbn; [done|].
  destruct (String.eqb (ID a) id).
  - intros Hs. destruct (Status a =? StatusEncoding); [done|].
    intros Hx. by rewrite (settled_GetCurrent its Hs) in Hx.
  - intros [Ha Hs]%Forall_cons. unfold isEncoding in Ha. rewrite Ha. by apply IH.
Qed.

(** X19.  In every reachable state [GetCurrent] tells what the worker is
    doing: it returns nil while the worker is idle, and while the worker
    encodes an item it can only return the item the queue holds under that
    item's ID. *)
Theorem GetCurrent_is_the_workers_item (s : System) :
  reachable s ->
  match phase s with
  | Idle => GetCurrent (queue s) = None
  | Busy item =>
      forall x, GetCurrent (queue s) = Some x ->
                lookupID (ID item) (items (queue s)) = Some x
  end.
Proof.
  intros Hs%reachable_singleConsumer. unfold singleConsumer in Hs.
  unfold GetCurrent. destruct (phase s) as [|item].
  - by apply settled_GetCurrent.
  - intros x. by apply others_GetCurrent.
Qed.

Lemma handleControls_paused (ctrls : list WorkerControl) (wk : Worker) :
  paused (handleControls wk ctrls) = pauseRequested (paused wk) ctrls.
Proof.
  unfold handleControls. revert wk.
  induction ctrls as [|c ctrls IH]; intros wk; [done|].
  cbn [fold_left]. rewrite IH. by destruct c.
Qed.

Lemma handleResult_paused (item : QueueItem) err now fault
    (wk : Worker) (q : Queue) (w : World) :
  paused (fst (fst (handleResult item err now fault wk q w))) = paused wk.
Proof.
  unfold handleResult.
  repeat first [ case_match | destruct (Remove _ _ _ _) as [[??]?]
               | destruct (Fail _ _ _ _ _ _) as [[??]?]
               | destruct (Complete _ _ _ _ _) as [[??]?] ];
    simplify_eq/=; done.
Qed.

(** X20.  One whole [encodeItem] that got past its first [SetStatus]: if no
    item was Encoding before, none is Encoding afterwards, whatever
    HandBrake returned and whether or not the later saves failed; and the
    worker comes out paused exactly when the most recent Pause or Resume it
    received meanwhile was a Pause.  Stop and Delete do not touch the pause
    flag, so a paused encode that is stopped leaves the worker paused. *)
Theorem encodeItem_finishes (item : QueueItem) (ctrls : list WorkerControl)
    (err : error) (now1 now2 : Time) (fault1 fault2 : SaveFault)
    (wk : Worker) (q : Queue) (w : World) :
  settled (items q) ->
  snd (markEncoding item now1 fault1 q w) = true ->
  let r := encodeItem item ctrls err now1 now2 fault1 fault2 wk q w in
  settled (items (snd (fst r))) /\
  paused (fst (fst r)) = pauseRequested (paused wk) ctrls.
Proof.
  intros Hs Hmark. cbn zeta. unfold encodeItem.
  pose proof (markEncoding_others item now1 fault1 q w Hs) as Ho.
  destruct (markEncoding item now1 fault1 q w) as [[q1 w1] ok].
  cbn in Hmark, Ho. subst ok. split.
  - by apply handleResult_settled.
  - rewrite handleResult_paused. apply handleControls_paused.
Qed.

(** X21.  A paused, idle worker starts nothing: along any events without a
    Resume command (ticks, Stop, Delete and further Pause commands, calls
    of queue methods by others) it stays idle and paused, and the queue and
    the files are what the other callers' calls alone make them. *)
Theorem paused_worker_starts_nothing (es : list Event) (s : System) :
  phase s = Idle -> paused (worker s) = true ->
  forallb notResume es = true ->
  phase (run es s) = Idle /\ paused (worker (run es s)) = true /\
  (queue (run es s), world (run es s))
  = calls (outsideCalls es) (queue s) (world s).
Proof.
  unfold run, calls. revert s.
  induction es as [|e es IH]; intros s Hidle Hpaused Hes; [done|].
  cbn [forallb] in Hes. apply andb_true_iff in Hes as [He Hes].
  cbn [fold_left].
  destruct e as [c|ctrl|now fault|err now fault].
  - cbn [exec outsideCalls omap fold_left fst snd].
    destruct (call c (queue s) (world s)) as [q1 w1] eqn:Ec.
    specialize (IH (mkSystem q1 w1 (worker s) (phase s)) Hidle Hpaused Hes).
    cbn [queue world] in IH. cbn. by rewrite Ec.
  - specialize (IH (exec (EvControl ctrl) s)). cbn in IH |- *.
    apply IH; [done| |done]. by destruct ctrl.
  - replace (exec (EvTick now fault) s) with s; [by apply IH|].
    cbn. by rewrite Hidle, Hpaused.
  - replace (exec (EvEncodeDone err now fault) s) with s; [by apply IH|].
    cbn. by rewrite Hidle.
Qed.

End WorkerMore.

Section WorkerMoreExamples.
Import GoStrings Encode.
#[local] Existing Instance writeOnlyJSON.

Lemma GetCurrent_is_the_workers_item_witness :
  reachable exampleSystem /\ GetCurrent (queue exampleSystem) = None.
Proof.
  assert (reachable exampleSystem) as Hr.
  { apply reachable_initial. split; reflexivity. }
  split; [exact Hr|].
  exact (GetCurrent_is_the_workers_item exampleSystem Hr).
Defined.

Lemma encodeItem_finishes_witness :
  let item := exampleItem "a" StatusQueued in
  let r := encodeItem item [WorkerPause; WorkerStop] (Some "signal: killed")
             1 2 NoFault NoFault NewWorker (queue exampleSystem)
             (world exampleSystem) in
  settled (items (snd (fst r))) /\ paused (fst (fst r)) = true.
Proof.
  cbn zeta.
  apply (encodeItem_finishes (exampleItem "a" StatusQueued)
           [WorkerPause; WorkerStop] (Some "signal: killed") 1 2
           NoFault NoFault NewWorker (queue exampleSystem)
           (world exampleSystem)).
  - repeat constructor.
  - reflexivity.
Defined.

Lemma paused_worker_starts_nothing_witness :
  let s := exec (EvControl WorkerPause) exampleSystem in
  let es := [EvTick 1 NoFault; EvControl WorkerStop; EvTick 2 NoFault] in
  phase (run es s) = Idle /\ paused (worker (run es s)) = true /\
  (queue (run es s), world (run es s))
  = calls (outsideCalls es) (queue s) (world s).
Proof.
  cbn zeta.
  apply (paused_worker_starts_nothing
           [EvTick 1 NoFault; EvControl WorkerStop; EvTick 2 NoFault]
           (exec (EvControl WorkerPause) exampleSystem));
    reflexivity.
Defined.

End WorkerMoreExamples.

(** ** The HandBrake supervisor *)

Section HandBrakeProperties.
Import GoStrings HandBrake.

Lemma hasDelimiter_cons (b : ascii) (s : string) :
  hasDelimiter (String b s) = isDelimiter b || hasDelimiter s.
Proof.
  unfold hasDelimiter, isDelimiter. cbn [hasByte].
  destruct (Ascii.eqb b "010"), (Ascii.eqb b "013"), (hasByte "010" s),
    (hasByte "013" s); reflexivity.
Qed.

Lemma hasDelimiter_snoc (s : string) (b : ascii) :
  hasDelimiter (String.append s (String b EmptyString))
  = hasDelimiter s || isDelimiter b.
Proof.
  induction s as [|c s IH].
  - change (String.append EmptyString (String b EmptyString))
      with (String b EmptyString).
    rewrite hasDelimiter_cons. by rewrite orb_comm.
  - rewrite append_cons, !hasDelimiter_cons, IH. by rewrite orb_assoc.
Qed.

Lemma snoc_nonempty (s : string) (b : ascii) :
  String.append s (String b EmptyString) <> EmptyString.
Proof. destruct s; [done|]. by rewrite append_cons. Qed.

Lemma readLines_lines (currentLine input : string) :
  hasDelimiter currentLine = false ->
  Forall (fun line => line <> EmptyString /\ hasDelimiter line = false)
    (readLines currentLine input).
Proof.
  revert currentLine.
  induction input as [|b input IH]; intros cur Hcur; cbn [readLines];
    [constructor|].
  destruct (isDelimiter b) eqn:Eb.
  - destruct (String.eqb_spec cur EmptyString) as [E | E]; cbn [negb].
    + by apply IH.
    + constructor; [done | by apply IH].
  - apply IH. rewrite hasDelimiter_snoc, Hcur, Eb. done.
Qed.

Lemma readLines_tail (currentLine tail : string) :
  hasDelimiter tail = false -> readLines currentLine tail = [].
Proof.
  revert currentLine.
  induction tail as [|b tail IH]; intros cur; [done|].
  rewrite hasDelimiter_cons. intros [Hb Ht]%orb_false_iff.
  cbn [readLines]. rewrite Hb. by apply IH.
Qed.

Lemma readLines_line (currentLine line rest : string) (d : ascii) :
  hasDelimiter line = false -> isDelimiter d = true ->
  String.append currentLine line <> EmptyString ->
  readLines currentLine (String.append line (String d rest))
  = String.append currentLine line :: readLines EmptyString rest.
Proof.
  revert currentLine.
  induction line as [|b line IH]; intros cur Hl Hd Hne.
  - change (String.append EmptyString (String d rest)) with (String d rest).
    rewrite append_empty_r in *. cbn [readLines]. rewrite Hd.
    by destruct (String.eqb_spec cur EmptyString).
  - rewrite hasDelimiter_cons in Hl. apply orb_false_iff in Hl as [Hb Hl].
    rewrite append_cons. cbn [readLines]. rewrite Hb.
    rewrite IH; [|done|done|].
    + rewrite append_assoc. reflexivity.
    + rewrite append_assoc. exact Hne.
Qed.

(** X22.  The reader of HandBrake's output only works on lines that are not
    empty and hold neither a line feed nor a carriage return; and it puts
    lines back together: for non-empty lines, each ended by one line feed or
    carriage return, it works on exactly these lines in their order.  What
    follows the last delimiter when the output ends is dropped. *)
Theorem readLines_reassembles (input : string) (ls : list (string * ascii))
    (tail : string) :
  Forall (fun line => line <> EmptyString /\ hasDelimiter line = false)
    (readLines EmptyString input) /\
  (Forall (fun ld => fst ld <> EmptyString /\ hasDelimiter (fst ld) = false
                     /\ isDelimiter (snd ld) = true) ls ->
   hasDelimiter tail = false ->
   readLines EmptyString (String.append (terminated ls) tail) = map fst ls).
Proof.
  split; [by apply readLines_lines|].
  intros Hls Htail. induction Hls as [|[line d] ls (Hne & Hl & Hd) _ IH].
  - by apply readLines_tail.
  - cbn [terminated map fst snd] in *.
    rewrite append_assoc, append_cons.
    rewrite readLines_line; [|done|done|done].
    by rewrite IH.
Qed.

Lemma alternate_steps (ops : list Op) (hb : HandBrake) :
  alternate (paused hb) (snd (steps hb ops)) = true /\
  (forall sigs' : list Signal,
     alternate (paused (fst (steps hb ops))) sigs' = true ->
     alternate (paused hb) (snd (steps hb ops) ++ sigs') = true).
Proof.
  revert hb. induction ops as [|op ops IH]; intros hb; [done|].
  cbn [steps].
  destruct (step hb op) as [hb1 sig] eqn:Estep.
  destruct (IH hb1) as [IH1 IH2].
  destruct (steps hb1 ops) as [hb2 sigs]. cbn [fst snd] in *.
  assert (match sig with
          | Some SIGSTOP => paused hb = false /\ paused hb1 = true
          | Some SIGCONT => paused hb = true /\ paused hb1 = false
          | _ => paused hb1 = paused hb
          end) as Hsig.
  { destruct hb as [[] []], op; cbn in Estep; by simplify_eq. }
  destruct sig as [[]|]; cbn [alternate app].
  - destruct Hsig as [-> Hp]. rewrite Hp in *. cbn. split; [done|].
    intros sigs' Hs. by apply IH2.
  - destruct Hsig as [-> Hp]. rewrite Hp in *. cbn. split; [done|].
    intros sigs' Hs. by apply IH2.
  - rewrite Hsig in *. split; [done|]. intros sigs' Hs. by apply IH2.
  - rewrite Hsig in *. split; [done|]. intros sigs' Hs. by apply IH2.
Qed.

(** X23.  Whatever the worker asks for and whenever commands are created
    and started, the supervisor sends SIGSTOP and SIGCONT in turns, SIGSTOP
    first: a second Pause sends no second SIGSTOP, and no SIGCONT goes out
    unless a SIGSTOP went before it. *)
Theorem stop_and_continue_alternate (ops : list Op) :
  alternate false (snd (steps NewHandBrake ops)) = true.
Proof. exact (proj1 (alternate_steps ops NewHandBrake)). Qed.

End HandBrakeProperties.

Section HandBrakeExamples.
Import GoStrings HandBrake.

Lemma readLines_reassembles_witness :
  readLines EmptyString
    (String.append
       (terminated [("Encoding: task 1 of 1, 12.50 %", "013"%char);
                    ("x265 [info]: done", "010"%char)])
       "Encode do")
  = ["Encoding: task 1 of 1, 12.50 %"; "x265 [info]: done"].
Proof.
  apply (proj2 (readLines_reassembles EmptyString
                  [("Encoding: task 1 of 1, 12.50 %", "013"%char);
                   ("x265 [info]: done", "010"%char)]
                  "Encode do")).
  - repeat constructor; discriminate.
  - reflexivity.
Defined.

End HandBrakeExamples.

(** ** The interface and the manual selection of titles *)

Section InterfaceProperties.
Import GoStrings UI App.

Lemma List_filter_sublist {A} (p : A -> bool) (l : list A) :
  sublist (List.filter p l) l.
Proof.
  induction l as [|x l IH]; cbn; [done|]. destruct (p x); by constructor.
Qed.

Lemma toggle_ids (i : Z) (titles : list Title) :
  0 <= i < Z.of_nat (length titles) ->
  exists titles', toggle i titles = Some titles' /\
                  map ID titles' = map ID titles.
Proof.
  intros Hi. unfold toggle.
  destruct (Z.ltb_spec i 0) as [?|_]; [lia|].
  destruct (lookup_lt_is_Some_2 titles (Z.to_nat i)) as [t Ht]; [lia|].
  rewrite Ht. eexists. split; [done|].
  change (map ID) with (fmap (M := list) ID).
  rewrite list_fmap_insert. cbn [setSelected ID].
  apply list_insert_id. by rewrite list_lookup_fmap, Ht.
Qed.

Lemma map_setSelected_ids (b : bool) (titles : list Title) :
  map ID (map (setSelected b) titles) = map ID titles.
Proof. induction titles as [|t l IH]; cbn; [done|]. by rewrite IH. Qed.

Lemma handleKeyPress_keeps (key : string) (m : Model) :
  0 <= selectedCursor m ->
  exists m' effects, handleKeyPress key m = Some (m', effects) /\
                     keeps m m' effects.
Proof.
  intros Hc. unfold handleKeyPress, keeps.
  destruct (ripState m) eqn:Estate.
  all: repeat lazymatch goal with
    | |- context [if String.eqb ?s ?k || String.eqb ?s ?k' then _ else _] =>
        destruct (String.eqb s k || String.eqb s k')
    | |- context [if String.eqb ?s ?k then _ else _] =>
        destruct (String.eqb s k)
    end.
  all: try (destruct (currentEncode m); [destruct (encodePaused m) eqn:Ep|]).
  all: try lazymatch goal with
    | |- context [toggle] =>
        destruct (Z.ltb_spec (selectedCursor m)
                    (Z.of_nat (length (availableTitles m)))) as [Hlt|Hge];
        [destruct (toggle_ids (selectedCursor m) (availableTitles m))
           as (titles' & -> & Hids); [lia|] |]
    end.
  all: try lazymatch goal with
    | |- context [if 0 <? selectedCursor ?x then _ else _] =>
        destruct (Z.ltb_spec 0 (selectedCursor x))
    | |- context [if selectedCursor ?x <? ?n then _ else _] =>
        destruct (Z.ltb_spec (selectedCursor x) n)
    | |- context [if 0 <? Z.of_nat (length ?l) then _ else _] =>
        destruct l eqn:El; cbn [length]; [|]
    end.
  all: eexists _, _; (split; [reflexivity|]); cbn;
    rewrite ?map_setSelected_ids;
    repeat split; try done; try lia; try (by repeat constructor).
  all: try (intros wk Hwk Hm; cbn in *; first [by auto | congruence]).
  all: try (constructor; [|constructor]; split; [done|]; by rewrite El).
Qed.

Lemma Update_keeps (msg : Msg) (m : Model) :
  0 <= selectedCursor m ->
  exists m' effects,
    Update msg m = Some (m', effects) /\
    0 <= selectedCursor m' /\ maxLogs m' = maxLogs m /\
    logLines m'
    = match msg with
      | LogMsg line => logLines (appendLog line m)
      | _ => logLines m
      end /\
    forall wk : Encode.Worker,
      (encodePaused m = true -> Encode.paused wk = true) ->
      encodePaused m' = true ->
      Encode.paused (Encode.handleControls wk (controlsOf effects)) = true.
Proof.
  intros Hc. destruct msg; cbn [Update];
    try (eexists _, _; split; [reflexivity|]; cbn;
         repeat split; try done; try lia; intros wk Hwk; by auto).
  - destruct (handleKeyPress_keeps key m Hc)
      as (m' & effects & -> & Hc' & _ & Hlog & Hmax & _ & Hp).
    by eexists _, _.
  - eexists _, _; split; [reflexivity|]. unfold appendLog.
    destruct (_ <? _); cbn; repeat split; try done; intros wk Hwk; by auto.
Qed.

Lemma handleControls_app (wk : Encode.Worker)
    (c1 c2 : list Encode.WorkerControl) :
  Encode.handleControls wk (c1 ++ c2)
  = Encode.handleControls (Encode.handleControls wk c1) c2.
Proof. unfold Encode.handleControls. by rewrite fold_left_app. Qed.

Lemma controlsOf_app (e1 e2 : list Effect) :
  controlsOf (e1 ++ e2) = controlsOf e1 ++ controlsOf e2.
Proof. unfold controlsOf. by rewrite omap_app. Qed.

Lemma updates_paused (msgs : list Msg) (m : Model) (wk : Encode.Worker) :
  0 <= selectedCursor m ->
  (encodePaused m = true -> Encode.paused wk = true) ->
  exists m' effects,
    updates msgs m = Some (m', effects) /\
    (encodePaused m' = true ->
     Encode.paused (Encode.handleControls wk (controlsOf effects)) = true).
Proof.
  revert m wk. induction msgs as [|msg msgs IH]; intros m wk Hc Hp.
  - by exists m, [].
  - destruct (Update_keeps msg m Hc) as (m1 & e1 & E1 & Hc1 & _ & _ & Hp1).
    destruct (IH m1 (Encode.handleControls wk (controlsOf e1)) Hc1)
      as (m2 & e2 & E2 & Hp2).
    { intros Hm1. by apply Hp1. }
    exists m2, (e1 ++ e2). cbn [updates]. rewrite E1, E2. split; [done|].
    by rewrite controlsOf_app, handleControls_app.
Qed.

(** X24.  The interface never shows an encode as paused that the worker
    does not hold paused: from the start of the program, after any keys and
    messages, none of them makes the interface panic, and if the interface's
    pause flag is set then the worker, once it has handled the commands sent
    so far, is paused.  (The converse fails: the keys for Stop and Delete
    clear the interface's flag but not the worker's.) *)
Theorem shown_paused_is_paused (msgs : list Msg) :
  exists m effects,
    updates msgs NewModel = Some (m, effects) /\
    (encodePaused m = true ->
     Encode.paused
       (Encode.handleControls Encode.NewWorker (controlsOf effects)) = true).
Proof. by apply updates_paused. Qed.

Lemma drop_last_lines (n : nat) (prev : list string) (line : string) :
  skipn (List.length (skipn (List.length prev - n) prev ++ [line]) - n)
    (skipn (List.length prev - n) prev ++ [line])
  = skipn (List.length (prev ++ [line]) - n) (prev ++ [line]).
Proof.
  rewrite !length_app, length_drop. cbn [length].
  destruct (decide (List.length prev <= n)%nat) as [Hle | Hgt].
  - replace (List.length prev - n)%nat with 0%nat by lia. cbn [skipn].
    by replace (List.length prev - 0 + 1 - n)%nat
      with (List.length prev + 1 - n)%nat by lia.
  - replace (List.length prev - (List.length prev - n) + 1 - n)%nat with 1%nat by lia.
    replace (List.length prev + 1 - n)%nat with (List.length prev - n + 1)%nat by lia.
    rewrite <- drop_drop. f_equal.
    rewrite drop_app_le; [done|lia].
Qed.

Lemma appendLog_last (line : string) (m : Model) (prev : list string) :
  maxLogs m = 500 ->
  logLines m = skipn (List.length prev - 500) prev ->
  logLines (appendLog line m)
  = skipn (List.length (prev ++ [line]) - 500) (prev ++ [line]).
Proof.
  intros Hmax Hlog. unfold appendLog. rewrite Hmax, Hlog.
  rewrite <- (drop_last_lines 500 prev line).
  set (lines := skipn (List.length prev - 500) prev ++ [line]).
  destruct (Z.ltb_spec 500 (Z.of_nat (List.length lines))) as [Hlt | Hge]; cbn.
  - f_equal. lia.
  - by replace (List.length lines - 500)%nat with 0%nat by lia.
Qed.

Lemma updates_log (msgs : list Msg) (m : Model) (prev : list string) :
  0 <= selectedCursor m -> maxLogs m = 500 ->
  logLines m = skipn (List.length prev - 500) prev ->
  exists m' effects,
    updates msgs m = Some (m', effects) /\
    logLines m'
    = skipn (List.length (prev ++ loggedLines msgs) - 500)
        (prev ++ loggedLines msgs).
Proof.
  revert m prev. induction msgs as [|msg msgs IH]; intros m prev Hc Hmax Hlog.
  - exists m, []. split; [done|]. cbn. by rewrite app_nil_r.
  - destruct (Update_keeps msg m Hc) as (m1 & e1 & E1 & Hc1 & Hmax1 & Hl1 & _).
    destruct (IH m1 (prev ++ loggedLines [msg]) Hc1) as (m2 & e2 & E2 & Hl2).
    { congruence. }
    { rewrite Hl1. destruct msg; cbn; rewrite ?app_nil_r; try done.
      by apply appendLog_last. }
    exists m2, (e1 ++ e2). cbn [updates]. rewrite E1, E2. split; [done|].
    rewrite Hl2. rewrite <- app_assoc.
    by replace (loggedLines [msg] ++ loggedLines msgs)
      with (loggedLines (msg :: msgs)) by (by destruct msg).
Qed.

(** X25.  The log of the interface holds the last 500 lines it was sent, in
    their order, and all of them while there are at most 500. *)
Theorem log_keeps_the_last_lines (msgs : list Msg) :
  exists m effects,
    updates msgs NewModel = Some (m, effects) /\
    logLines m
    = skipn (List.length (loggedLines msgs) - 500) (loggedLines msgs).
Proof. by apply (updates_log msgs NewModel []). Qed.

Lemma find_fresh (id : Z) (pre : list Makemkv.Title) (t : Makemkv.Title)
    (rest : list Makemkv.Title) :
  id ∉ map Makemkv.ID pre -> Makemkv.ID t = id ->
  List.find (fun t => Makemkv.ID t =? id) (pre ++ t :: rest) = Some t.
Proof.
  intros Hpre Ht. induction pre as [|p pre IH]; cbn.
  - by rewrite Ht, Z.eqb_refl.
  - cbn in Hpre. apply not_elem_of_cons in Hpre as [Hp Hpre].
    destruct (Z.eqb_spec (Makemkv.ID p) id); [done|]. by apply IH.
Qed.

Lemma selectedTitlesOf_acc (ids : list Z) (titles acc : list Makemkv.Title) :
  fold_left
    (fun selectedTitles id =>
       match List.find (fun t => Makemkv.ID t =? id) titles with
       | Some t => selectedTitles ++ [t]
       | None => selectedTitles
       end)
    ids acc
  = acc ++ flat_map (pick titles) ids.
Proof.
  revert acc. induction ids as [|id ids IH]; intros acc; cbn [fold_left flat_map].
  - by rewrite app_nil_r.
  - rewrite IH. unfold pick at 2.
    destruct (List.find _ titles); by rewrite <- ?app_assoc.
Qed.

Lemma selectedTitlesOf_pick (ids : list Z) (titles : list Makemkv.Title) :
  selectedTitlesOf ids titles = flat_map (pick titles) ids.
Proof. apply selectedTitlesOf_acc. Qed.

Lemma filter_fresh_id (id : Z) (ids : list Z) (titles : list Makemkv.Title) :
  id ∉ map Makemkv.ID titles ->
  filter (fun t => Makemkv.ID t ∈ id :: ids) titles
  = filter (fun t => Makemkv.ID t ∈ ids) titles.
Proof.
  induction titles as [|t titles IH]; [done|]. cbn [map].
  intros [Ht Hrest]%not_elem_of_cons. rewrite !filter_cons, (IH Hrest).
  destruct (decide (Makemkv.ID t ∈ id :: ids)) as [Hin | Hout];
    destruct (decide (Makemkv.ID t ∈ ids)) as [Hin' | Hout']; try done.
  - apply elem_of_cons in Hin as [E | Hin]; [by symmetry in E | done].
  - exfalso. apply Hout. by right.
Qed.

Lemma pick_sublist (ids : list Z) (pre titles : list Makemkv.Title) :
  NoDup (map Makemkv.ID (pre ++ titles)) ->
  sublist ids (map Makemkv.ID titles) ->
  flat_map (pick (pre ++ titles)) ids
  = filter (fun t => Makemkv.ID t ∈ ids) titles.
Proof.
  revert ids pre. induction titles as [|t titles IH]; intros ids pre Hnd Hsub.
  - apply sublist_nil_r in Hsub as ->. done.
  - assert (NoDup (map Makemkv.ID ((pre ++ [t]) ++ titles))) as Hnd'.
    { by rewrite <- app_assoc. }
    assert ((Makemkv.ID t ∉ map Makemkv.ID pre) /\
            (Makemkv.ID t ∉ map Makemkv.ID titles)) as [Hpre Hrest].
    { rewrite map_app in Hnd. cbn in Hnd.
      apply NoDup_app in Hnd as (_ & Hdis & Ht).
      apply NoDup_cons in Ht as [Ht _]. split; [|done].
      intros Hin. apply (Hdis _ Hin). by left. }
    cbn [map] in Hsub. inversion Hsub as [|x l1 l2 Hs|x l1 l2 Hs]; subst.
    + cbn [flat_map]. unfold pick at 1.
      rewrite (find_fresh (Makemkv.ID t) pre t titles Hpre eq_refl).
      cbn [app]. rewrite filter_cons_True by (by left). f_equal.
      replace (pre ++ t :: titles) with ((pre ++ [t]) ++ titles)
        by (by rewrite <- app_assoc).
      rewrite (IH l1 (pre ++ [t]) Hnd' Hs).
      symmetry. by apply filter_fresh_id.
    + replace (pre ++ t :: titles) with ((pre ++ [t]) ++ titles)
        by (by rewrite <- app_assoc).
      rewrite (IH ids (pre ++ [t]) Hnd' Hs).
      rewrite filter_cons_False; [done|].
      intros Hin. apply Hrest. eapply elem_of_sublist; [exact Hin | exact Hs].
Qed.

Lemma uiTitles_ids fd fs (titles : list Makemkv.Title) :
  map ID (uiTitles fd fs titles) = map Makemkv.ID titles.
Proof. unfold uiTitles. by rewrite map_map. Qed.

Lemma keys_chosenRight (titles : list Makemkv.Title) (keys : list string)
    (m : Model) :
  NoDup (map Makemkv.ID titles) ->
  0 <= selectedCursor m ->
  map ID (availableTitles m) = map Makemkv.ID titles ->
  exists m' effects,
    updates (map KeyMsg keys) m = Some (m', effects) /\
    Forall (fun e =>
              match e with
              | SendSelection ids =>
                  ids <> [] /\ sublist ids (map Makemkv.ID titles) /\
                  selectedTitlesOf ids titles
                  = filter (fun t => Makemkv.ID t ∈ ids) titles
              | _ => True
              end) effects.
Proof.
  intros Hnd. revert m. induction keys as [|key keys IH]; intros m Hc Hids.
  - by exists m, [].
  - destruct (handleKeyPress_keeps key m Hc)
      as (m1 & e1 & E1 & Hc1 & Hids1 & _ & _ & Hsel & _).
    destruct (IH m1 Hc1) as (m2 & e2 & E2 & Hall); [congruence|].
    exists m2, (e1 ++ e2). cbn [map updates Update]. rewrite E1, E2.
    split; [done|]. apply Forall_app. split; [|done].
    eapply Forall_impl; [exact Hsel|]. intros [] He; try done.
    destruct He as [Hne ->]. split; [done|].
    assert (sublist (map ID (List.filter Selected (availableTitles m)))
              (map Makemkv.ID titles)) as Hsub.
    { rewrite <- Hids. apply (fmap_sublist ID), List_filter_sublist. }
    split; [done|].
    rewrite selectedTitlesOf_pick. by apply (pick_sublist _ []).
Qed.

(** X26.  Manual selection, from the interface back to [processDisc].  For
    titles with distinct ids (as [ParseInfo] returns them), once the
    selection is shown no key press makes the interface panic, and every
    selection it sends is not empty, lists ids of the disc's titles in disc
    order, and makes [processDisc] rip exactly the titles with these ids, in
    disc order. *)
Theorem manual_selection_roundtrip (formatDuration formatSize : Z -> string)
    (titles : list Makemkv.Title) (keys : list string) (m : Model) :
  NoDup (map Makemkv.ID titles) ->
  exists m' effects,
    updates (ShowTitleSelectionMsg (uiTitles formatDuration formatSize titles)
             :: map KeyMsg keys) m
    = Some (m', effects) /\
    Forall (fun e =>
              match e with
              | SendSelection ids =>
                  ids <> [] /\ sublist ids (map Makemkv.ID titles) /\
                  selectedTitlesOf ids titles
                  = filter (fun t => Makemkv.ID t ∈ ids) titles
              | _ => True
              end) effects.
Proof.
  intros Hnd. cbn [updates Update].
  destruct (keys_chosenRight titles keys
              (setRipState StateSelectingTitles
                 (setSelectedCursor 0
                    (setAvailableTitles
                       (uiTitles formatDuration formatSize titles) m))) Hnd)
    as (m' & effects & -> & Hall); [done|apply uiTitles_ids|].
  by exists m', effects.
Qed.

End InterfaceProperties.

Section InterfaceExamples.
Import GoStrings UI App.

Lemma manual_selection_roundtrip_witness :
  let titles := [Makemkv.mkTitle 0 (20 * Makemkv.Minute) "a" 1 1;
                 Makemkv.mkTitle 1 (10 * Makemkv.Minute) "b" 1 1;
                 Makemkv.mkTitle 2 (15 * Makemkv.Minute) "c" 1 1] in
  exists m' effects,
    updates (ShowTitleSelectionMsg
               (uiTitles (fun _ => "0:00:00") (fun _ => "1 B") titles)
             :: map KeyMsg [" "; "down"; "down"; " "; "enter"]) NewModel
    = Some (m', effects) /\
    Forall (fun e =>
              match e with
              | SendSelection ids =>
                  ids <> [] /\ sublist ids (map Makemkv.ID titles) /\
                  selectedTitlesOf ids titles
                  = filter (fun t => Makemkv.ID t ∈ ids) titles
              | _ => True
              end) effects.
Proof.
  cbn zeta.
  apply (manual_selection_roundtrip (fun _ => "0:00:00") (fun _ => "1 B")).
  cbn. repeat (apply NoDup_cons; split; [rewrite ?elem_of_cons, elem_of_nil; lia|]).
  apply NoDup_nil_2.
Defined.

Lemma shown_paused_is_paused_witness :
  exists m effects,
    updates [EncodeProgressMsg "a" Encode.zero
               (Some (Encode.exampleItem "a" Encode.StatusEncoding));
             KeyMsg " "] NewModel
    = Some (m, effects) /\
    Encode.paused
      (Encode.handleControls Encode.NewWorker (controlsOf effects)) = true.
Proof.
  destruct (shown_paused_is_paused
              [EncodeProgressMsg "a" Encode.zero
                 (Some (Encode.exampleItem "a" Encode.StatusEncoding));
               KeyMsg " "]) as (m & effects & Hu & Hp).
  exists m, effects. split; [exact Hu|]. apply Hp.
  cbn in Hu. injection Hu as <- _. reflexivity.
Defined.

(** The converse of X24 fails: pausing and then stopping an encode leaves
    the worker paused while the interface shows it running. *)
Example stopped_while_paused :
  let item := Encode.exampleItem "a" Encode.StatusEncoding in
  match updates [EncodeProgressMsg "a" Encode.zero (Some item);
                 KeyMsg " "; KeyMsg "s"] NewModel with
  | Some (m, effects) =>
      encodePaused m = false /\
      Encode.paused
        (Encode.handleControls Encode.NewWorker (controlsOf effects)) = true
  | None => False
  end.
Proof. by vm_compute. Qed.

End InterfaceExamples.

(** ** Scanning: the lines, the drive, the missing encodes *)

Section ScanLines.
Import GoStrings Makemkv.

Lemma Split_Join (lines : list string) :
  lines <> [] ->
  Forall (fun line => hasByte "010" line = false) lines ->
  Split (Join lines (String "010" EmptyString)) "010" = lines.
Proof.
  intros Hne Hall. induction Hall as [|line lines Hline Hall IH]; [done|].
  destruct lines as [|line' lines].
  - cbn [Join]. by apply Split_whole.
  - change (Join (line :: line' :: lines) (String "010" EmptyString))
      with (String.append line
              (String.append (String "010" EmptyString)
                 (Join (line' :: lines) (String "010" EmptyString)))).
    change (String.append (String "010" EmptyString) ?s)
      with (String "010"%char s).
    rewrite Split_append by done. by rewrite IH.
Qed.

(** X27.  [ScanDisc] hands [ParseInfo] the lines it read: joining the lines
    by line feeds and splitting the text again gives the same lines.  So
    the result of [ScanDisc] is the result of [ParseInfo] on any text that
    has these lines, and the loop of [ParseInfo] runs over exactly the lines
    of the scan, in order (for no lines at all it runs over one empty line,
    which it skips). *)
Theorem ScanDisc_parses_the_lines_read (outputLines : list string) :
  Forall (fun line => hasByte "010" line = false) outputLines ->
  (forall (range : rangeOrder) (output : string),
     outputLines <> [] -> Split output "010" = outputLines ->
     ScanDisc range outputLines = ParseInfo range output) /\
  forall st,
    fold_left parseLine
      (Split (Join outputLines (String "010" EmptyString)) "010") st
    = fold_left parseLine outputLines st.
Proof.
  intros Hall. split.
  - intros range output Hne Hsplit. unfold ScanDisc, ParseInfo.
    by rewrite Split_Join, Hsplit.
  - intros st. destruct outputLines as [|line lines].
    + by destruct st as [[??]?].
    + by rewrite Split_Join.
Qed.

Lemma ScanDisc_parses_the_lines_read_witness :
  let outputLines := [tinfo "0" "9" "0:30:00"; tinfo "1" "9" "0:25:00"] in
  fold_left parseLine
    (Split (Join outputLines (String "010" EmptyString)) "010")
    (EmptyString, EmptyString, ∅)
  = fold_left parseLine outputLines (EmptyString, EmptyString, ∅).
Proof.
  cbn zeta.
  apply (ScanDisc_parses_the_lines_read
           [tinfo "0" "9" "0:30:00"; tinfo "1" "9" "0:25:00"]).
  repeat constructor.
Defined.

End ScanLines.

Section DetectorProperties.
Import Detector.

Lemma ticks_disc_stays (checks : list (Check * Check)) :
  forallb discStays checks = true ->
  ticks CDS_DISC_OK checks = (CDS_DISC_OK, map (fun _ => false) checks).
Proof.
  induction checks as [|[first second] checks IH]; [done|].
  cbn [forallb]. intros [Hc Hcs]%andb_true_iff.
  cbn [ticks map]. unfold discStays in Hc. cbn [fst] in Hc.
  destruct first as [status|]; cbn [tick].
  - apply Z.eqb_eq in Hc as ->. cbn. by rewrite (IH Hcs).
  - by rewrite (IH Hcs).
Qed.

(** X28.  A disc is announced once per insertion.  A tick sends a disc only
    when the status read before was not [CDS_DISC_OK], and after it has sent
    one, no later tick sends another for as long as every check fails or
    reads [CDS_DISC_OK]. *)
Theorem disc_announced_once (lastStatus : Z) (first second : Check)
    (checks : list (Check * Check)) :
  snd (tick lastStatus first second) = true ->
  forallb discStays checks = true ->
  lastStatus <> CDS_DISC_OK /\
  ticks (fst (tick lastStatus first second)) checks
  = (CDS_DISC_OK, map (fun _ => false) checks).
Proof.
  intros Hsent Hstays. unfold tick in *.
  destruct first as [status|]; [|done].
  destruct (Z.eqb_spec lastStatus CDS_DISC_OK) as [E | E]; cbn [negb andb] in *;
    [done|].
  destruct (status =? CDS_DISC_OK); [|done].
  destruct second as [status'|]; [|done]. cbn [fst snd] in *.
  apply Z.eqb_eq in Hsent as ->. split; [done|]. by apply ticks_disc_stays.
Qed.

Lemma disc_announced_once_witness :
  let checks := [(Some CDS_DISC_OK, None); (None, None);
                 (Some CDS_DISC_OK, Some CDS_DISC_OK)] in
  CDS_NO_DISC <> CDS_DISC_OK /\
  ticks (fst (tick CDS_NO_DISC (Some CDS_DISC_OK) (Some CDS_DISC_OK))) checks
  = (CDS_DISC_OK, map (fun _ => false) checks).
Proof. cbn zeta. apply disc_announced_once; reflexivity. Defined.

End DetectorProperties.

Section MissingEncodes.
Import GoStrings Encode App.
Context `{JSON}.
Variable Join : string -> string -> string.
Variable outputDir : string.

Lemma HasSourcePath_false (sourcePath : string) (q : Queue) :
  HasSourcePath sourcePath q = false ->
  sourcePath ∉ map SourcePath (items q).
Proof.
  unfold HasSourcePath. induction (items q) as [|x l IH]; cbn.
  - intros _. apply not_elem_of_nil.
  - intros [Hx Hl]%orb_false_iff. apply not_elem_of_cons. split; [|by apply IH].
    apply String.eqb_neq in Hx. congruence.
Qed.

Lemma HasSourcePath_app (sourcePath : string) (q q' : Queue)
    (more : list QueueItem) :
  items q' = items q ++ more ->
  HasSourcePath sourcePath q = true -> HasSourcePath sourcePath q' = true.
Proof.
  unfold HasSourcePath. intros ->. rewrite existsb_app. by intros ->.
Qed.

Lemma Save_saveSucceeds (sp : StatePersistence) (its : list QueueItem)
    (fault : SaveFault) (w : World) :
  match snd (Save sp its fault w) with
  | None => saveSucceeds its fault = true
  | Some _ => saveSucceeds its fault = false
  end.
Proof.
  unfold Save, saveSucceeds. by destruct fault, (Marshal its).
Qed.

(** One file: either it is wanted and not yet queued, and its item is
    appended whatever the save does, or nothing changes. *)
Lemma scanFile_step (dir : DiscDir) (q : Queue) (w : World) (n : Z)
    (rawFile : RawFile) :
  let st := scanFile Join outputDir dir (q, w, n) rawFile in
  (wanted rawFile = true /\ HasSourcePath (scanSource Join outputDir dir rawFile) q = false /\
   items (fst (fst st)) = items q ++ [scanItem Join outputDir dir rawFile] /\
   snd st
   = n + (if saveSucceeds (items q ++ [scanItem Join outputDir dir rawFile]) (saveFault rawFile)
          then 1 else 0)) \/
  ((wanted rawFile = false \/ HasSourcePath (scanSource Join outputDir dir rawFile) q = true) /\
   st = (q, w, n)).
Proof.
  cbn zeta. unfold scanFile, wanted.
  destruct (fileIsDir rawFile); [right; split; [by left | done]|].
  destruct (fileIsMKV rawFile); [|right; split; [by left | done]].
  destruct (encodedExists rawFile); [right; split; [by left | done]|].
  cbn [negb orb andb].
  fold (scanSource Join outputDir dir rawFile).
  destruct (HasSourcePath (scanSource Join outputDir dir rawFile) q) eqn:Ehas;
    [right; split; [by right | done]|].
  left. split; [done|]. split; [done|].
  fold (scanItem Join outputDir dir rawFile). unfold Add, saved.
  pose proof (Save_saveSucceeds (persistence q)
                (items q ++ [scanItem Join outputDir dir rawFile]) (saveFault rawFile) w) as Hs.
  destruct (Save _ _ _ w) as [w1 [e|]]; cbn in *; rewrite Hs;
    (split; [done | lia]).
Qed.

Lemma savedCount_snoc (its : list QueueItem)
    (added : list (QueueItem * SaveFault)) (i : QueueItem) (fault : SaveFault) :
  savedCount its (added ++ [(i, fault)])
  = savedCount its added
    + (if saveSucceeds (its ++ map fst added ++ [i]) fault then 1 else 0).
Proof.
  revert its. induction added as [|[j f] added IH]; intros its; cbn.
  - lia.
  - rewrite IH. rewrite <- !app_assoc. cbn. lia.
Qed.

Lemma scanFile_scanning (q0 : Queue) (dirs : list DiscDir) (dir : DiscDir)
    (files : list RawFile) (st : ScanState) (added : list (DiscDir * RawFile))
    (rawFile : RawFile) :
  dir ∈ dirs -> dirIsDir dir = true -> rawFiles dir = Some files ->
  rawFile ∈ files ->
  scanning Join outputDir q0 dirs st added ->
  exists added',
    scanning Join outputDir q0 dirs (scanFile Join outputDir dir st rawFile) added'.
Proof.
  intros Hdir Hd Hfiles Hin (Hitems & Hcount & Hlisted & Hnd).
  destruct st as [[q w] n]. cbn [fst snd] in *.
  destruct (scanFile_step dir q w n rawFile)
    as [(Hw & Hhas & Hitems' & Hcount') | [_ ->]]; [|by exists added].
  exists (added ++ [(dir, rawFile)]). unfold scanning.
  rewrite Hitems', Hcount', !map_app. cbn [map fst snd].
  split; [by rewrite Hitems, app_assoc|]. split.
  - rewrite savedCount_snoc, Hcount, Hitems. f_equal.
    rewrite map_map. cbn [fst]. by rewrite <- app_assoc.
  - split.
    + apply Forall_app. split; [done|]. constructor; [|constructor].
      split; [done|]. split; [done|]. by exists files.
    + intros Hnd0. apply NoDup_app. split; [by apply Hnd|].
      split; [|apply NoDup_singleton].
      intros x Hx [->|[]%elem_of_nil]%elem_of_cons.
      by apply (HasSourcePath_false _ _ Hhas).
Qed.

Lemma scanFiles_scanning (q0 : Queue) (dirs : list DiscDir) (dir : DiscDir)
    (files some : list RawFile) (st : ScanState)
    (added : list (DiscDir * RawFile)) :
  dir ∈ dirs -> dirIsDir dir = true -> rawFiles dir = Some files ->
  (forall f, f ∈ some -> f ∈ files) ->
  scanning Join outputDir q0 dirs st added ->
  exists added',
    scanning Join outputDir q0 dirs (fold_left (scanFile Join outputDir dir) some st) added'.
Proof.
  intros Hdir Hd Hfiles. revert st added.
  induction some as [|f some IH]; intros st added Hsub Hst; cbn [fold_left].
  - by exists added.
  - destruct (scanFile_scanning q0 dirs dir files st added f)
      as [added' Hst']; try done.
    { apply Hsub. by left. }
    apply (IH _ added'); [|done]. intros g Hg. apply Hsub. by right.
Qed.

Lemma scanDirs_scanning (q0 : Queue) (dirs some : list DiscDir)
    (st : ScanState) (added : list (DiscDir * RawFile)) :
  (forall d, d ∈ some -> d ∈ dirs) ->
  scanning Join outputDir q0 dirs st added ->
  exists added',
    scanning Join outputDir q0 dirs (fold_left (scanDir Join outputDir) some st) added'.
Proof.
  revert st added.
  induction some as [|d some IH]; intros st added Hsub Hst; cbn [fold_left].
  - by exists added.
  - assert (exists added', scanning Join outputDir q0 dirs (scanDir Join outputDir st d) added')
      as [added' Hst'].
    { unfold scanDir. destruct (dirIsDir d) eqn:Ed; cbn [negb];
        [|by exists added].
      destruct (rawFiles d) as [files|] eqn:Ef; [|by exists added].
      apply (scanFiles_scanning q0 dirs d files files st added); try done.
      apply Hsub. by left. }
    apply (IH _ added'); [|done]. intros e He. apply Hsub. by right.
Qed.

(** The scan only appends. *)
Lemma scanFile_grows (dir : DiscDir) (st : ScanState) (rawFile : RawFile) :
  exists more,
    items (fst (fst (scanFile Join outputDir dir st rawFile)))
    = items (fst (fst st)) ++ more.
Proof.
  destruct st as [[q w] n].
  destruct (scanFile_step dir q w n rawFile)
    as [(_ & _ & Hitems & _) | [_ ->]].
  - by eexists.
  - exists []. by rewrite app_nil_r.
Qed.

Lemma scanFiles_grows (dir : DiscDir) (files : list RawFile) (st : ScanState) :
  exists more,
    items (fst (fst (fold_left (scanFile Join outputDir dir) files st)))
    = items (fst (fst st)) ++ more.
Proof.
  revert st. induction files as [|f files IH]; intros st; cbn [fold_left].
  - exists []. by rewrite app_nil_r.
  - destruct (scanFile_grows dir st f) as [m1 H1].
    destruct (IH (scanFile Join outputDir dir st f)) as [m2 H2].
    exists (m1 ++ m2). by rewrite H2, H1, app_assoc.
Qed.

Lemma scanDir_grows (st : ScanState) (dir : DiscDir) :
  exists more,
    items (fst (fst (scanDir Join outputDir st dir)))
    = items (fst (fst st)) ++ more.
Proof.
  unfold scanDir. destruct (negb (dirIsDir dir));
    [exists []; by rewrite app_nil_r|].
  destruct (rawFiles dir) as [files|]; [apply scanFiles_grows|].
  exists []. by rewrite app_nil_r.
Qed.

Lemma scanDirs_grows (dirs : list DiscDir) (st : ScanState) :
  exists more,
    items (fst (fst (fold_left (scanDir Join outputDir) dirs st)))
    = items (fst (fst st)) ++ more.
Proof.
  revert st. induction dirs as [|d dirs IH]; intros st; cbn [fold_left].
  - exists []. by rewrite app_nil_r.
  - destruct (scanDir_grows st d) as [m1 H1].
    destruct (IH (scanDir Join outputDir st d)) as [m2 H2].
    exists (m1 ++ m2). by rewrite H2, H1, app_assoc.
Qed.

(** A wanted file is queued once the scan has passed it. *)
Lemma scanFiles_queued (dir : DiscDir) (files : list RawFile) (st : ScanState)
    (rawFile : RawFile) :
  rawFile ∈ files -> wanted rawFile = true ->
  HasSourcePath (scanSource Join outputDir dir rawFile)
    (fst (fst (fold_left (scanFile Join outputDir dir) files st))) = true.
Proof.
  revert st. induction files as [|f files IH]; intros st Hin Hw;
    [by apply elem_of_nil in Hin|].
  cbn [fold_left]. apply elem_of_cons in Hin as [-> | Hin]; [|by apply IH].
  destruct (scanFiles_grows dir files (scanFile Join outputDir dir st f))
    as [more Hmore].
  eapply HasSourcePath_app; [exact Hmore|].
  destruct st as [[q w] n].
  destruct (scanFile_step dir q w n f)
    as [(_ & _ & Hitems & _) | [[Hnw | Hhas] ->]].
  - unfold HasSourcePath. rewrite Hitems, existsb_app. cbn.
    rewrite String.eqb_refl. by rewrite orb_true_r.
  - congruence.
  - done.
Qed.

Lemma scanDirs_queued (dirs : list DiscDir) (st : ScanState)
    (dir : DiscDir) (files : list RawFile) (rawFile : RawFile) :
  dir ∈ dirs -> dirIsDir dir = true -> rawFiles dir = Some files ->
  rawFile ∈ files -> wanted rawFile = true ->
  HasSourcePath (scanSource Join outputDir dir rawFile)
    (fst (fst (fold_left (scanDir Join outputDir) dirs st))) = true.
Proof.
  revert st. induction dirs as [|d dirs IH]; intros st Hdir Hd Hfiles Hin Hw;
    [by apply elem_of_nil in Hdir|].
  cbn [fold_left]. apply elem_of_cons in Hdir as [<- | Hdir]; [|by apply IH].
  destruct (scanDirs_grows dirs (scanDir Join outputDir st dir))
    as [more Hmore].
  eapply HasSourcePath_app; [exact Hmore|].
  unfold scanDir. rewrite Hd, Hfiles. cbn [negb].
  by apply scanFiles_queued.
Qed.

(** X29.  [scanForMissingEncodes], run without another goroutine adding
    items meanwhile.  It only appends items, built from wanted files of the
    listing (regular MKV files without an encoded version); afterwards every
    wanted file of the listing is in the queue, whether or not the save of
    its item succeeded; the count it reports is the number of appended items
    whose save succeeded; and it never queues a source path that is already
    queued: if the source paths in the queue were distinct before, they are
    distinct afterwards, however the listing repeats itself. *)
Theorem scan_queues_no_path_twice (dirs : list DiscDir)
    (q : Queue) (w : World) :
  let r := scanForMissingEncodes Join outputDir dirs q w in
  (exists added : list (DiscDir * RawFile),
     items (fst (fst r))
     = items q ++ map (fun e => scanItem Join outputDir (fst e) (snd e)) added /\
     snd r
     = savedCount (items q)
         (map (fun e => (scanItem Join outputDir (fst e) (snd e), saveFault (snd e))) added) /\
     Forall (listed dirs) added) /\
  (forall entry, listed dirs entry ->
     HasSourcePath (scanSource Join outputDir (fst entry) (snd entry)) (fst (fst r)) = true) /\
  (NoDup (map SourcePath (items q)) ->
   NoDup (map SourcePath (items (fst (fst r))))).
Proof.
  cbn zeta. unfold scanForMissingEncodes.
  destruct (scanDirs_scanning q dirs dirs (q, w, 0) [])
    as (added & Hitems & Hcount & Hlisted & Hnd); [done| |].
  { split; [by rewrite app_nil_r|]. by repeat split. }
  split; [by exists added|]. split; [|done].
  intros [dir rawFile] (Hdir & Hd & files & Hfiles & Hin & Hw).
  by apply (scanDirs_queued dirs (q, w, 0) dir files rawFile).
Qed.

End MissingEncodes.

Section MissingEncodesExamples.
Import GoStrings Encode App.
#[local] Existing Instance writeOnlyJSON.

Lemma scan_queues_no_path_twice_witness :
  let join := fun a b => String.append a (String "/" b) in
  let file := mkRawFile "title_t00.mkv" false true 1 false "id-1" WriteFails in
  let dirs := [mkDiscDir "DISC" true (Some [file; file])] in
  let r := scanForMissingEncodes join "/out" dirs
             (NewQueue "queue.json") (mkWorld ∅ []) in
  NoDup (map SourcePath (items (NewQueue "queue.json"))) /\
  NoDup (map SourcePath (items (fst (fst r)))).
Proof.
  cbn zeta. split; [apply NoDup_nil_2|].
  apply (scan_queues_no_path_twice
           (fun a b => String.append a (String "/" b)) "/out").
  apply NoDup_nil_2.
Defined.

(** A file whose save fails is queued and not counted. *)
Example scan_failed_save :
  let join := fun a b => String.append a (String "/" b) in
  let file := mkRawFile "title_t00.mkv" false true 1 false "id-1" WriteFails in
  let dirs := [mkDiscDir "DISC" true (Some [file; file])] in
  let r := scanForMissingEncodes join "/out" dirs
             (NewQueue "queue.json") (mkWorld ∅ []) in
  map SourcePath (items (fst (fst r))) = ["/out/DISC/raw/title_t00.mkv"] /\
  snd r = 0.
Proof. by vm_compute. Qed.

End MissingEncodesExamples.

(** ** The unit of a size *)

Section FormatSize.
Import GoStrings App.

Lemma sizeLoop_unit (bytes : Z) (fuel : nat) (n div exp : Z) :
  bytes < 2^63 ->
  0 <= exp -> div = 1024 ^ (exp + 1) ->
  1 <= n < 1024 ^ (Z.of_nat fuel + 1) ->
  div * n <= bytes < div * (n + 1) ->
  exists div' exp',
    sizeLoop fuel n div exp = Some (div', exp') /\
    exp <= exp' /\ div' = 1024 ^ (exp' + 1) /\
    div' <= bytes < 1024 * div'.
Proof.
  intros Hmax. revert n div exp.
  induction fuel as [|fuel IH]; intros n div exp Hexp Hdiv Hn Hbytes;
    cbn [sizeLoop]; destruct (Z.leb_spec 1024 n) as [Hge | Hlt].
  - change (1024 ^ (Z.of_nat 0 + 1)) with 1024 in Hn. lia.
  - exists div, exp. split; [done|]. assert (0 < div) by (subst; lia). nia.
  - assert (0 < div) as Hpos by (subst; lia).
    assert (1024 * Z.quot n 1024 <= n < 1024 * (Z.quot n 1024 + 1)) as Hq.
    { rewrite Z.quot_div_nonneg by lia.
      pose proof (Z.mul_div_le n 1024). 
      pose proof (Z.mul_succ_div_gt n 1024). lia. }
    assert (Makemkv.mul64 div 1024 = div * 1024) as Hmul.
    { unfold Makemkv.mul64, Makemkv.wrap64.
      rewrite Z.mod_small; [lia|]. nia. }
    destruct (IH (Z.quot n 1024) (Makemkv.mul64 div 1024) (exp + 1))
      as (div' & exp' & -> & Hle & Hd & Hb).
    + lia.
    + rewrite Hmul, Hdiv.
      replace (exp + 1 + 1) with (Z.succ (exp + 1)) by lia.
      rewrite Z.pow_succ_r by lia. lia.
    + split; [lia|].
      replace (Z.of_nat (S fuel) + 1) with (Z.succ (Z.of_nat fuel + 1)) in Hn
        by lia.
      rewrite Z.pow_succ_r in Hn by lia. lia.
    + rewrite Hmul. nia.
    + exists div', exp'. repeat split; try done; lia.
  - exists div, exp. split; [done|]. assert (0 < div) by (subst; lia). nia.
Qed.

(** X30.  [formatSize] always finds a unit: for every size below 2^63 the
    loop ends and its index into "KMGTPE" is in range.  From 1024 bytes on
    the divisor is the power of 1024 that belongs to the letter, and the
    number shown, [bytes / div], lies between 1 and 1024; below 1024 bytes,
    negative sizes included, the text is the number followed by " B". *)
Theorem formatSize_unit (bytes : Z) :
  bytes < 2^63 ->
  if bytes <? 1024
  then formatSize bytes = Some (SizeBytes (String.append (Itoa bytes) " B"))
  else exists (exp : nat) (unit : ascii),
         formatSize bytes = Some (SizeScaled bytes (1024 ^ (Z.of_nat exp + 1)) unit) /\
         String.get exp "KMGTPE" = Some unit /\
         1024 ^ (Z.of_nat exp + 1) <= bytes < 1024 * 1024 ^ (Z.of_nat exp + 1).
Proof.
  intros Hmax. unfold formatSize.
  destruct (Z.ltb_spec bytes 1024) as [Hlt | Hge]; [done|].
  assert (1024 * Z.quot bytes 1024 <= bytes
          < 1024 * (Z.quot bytes 1024 + 1)) as Hq.
  { rewrite Z.quot_div_nonneg by lia.
    pose proof (Z.mul_div_le bytes 1024).
    pose proof (Z.mul_succ_div_gt bytes 1024). lia. }
  assert (1 <= Z.quot bytes 1024 < 1024 ^ (Z.of_nat 64 + 1)) as Hn.
  { split; [lia|].
    assert (2^63 < 1024 ^ (Z.of_nat 64 + 1)) by (by vm_compute). lia. }
  destruct (sizeLoop_unit bytes 64 (Z.quot bytes 1024) 1024 0
              Hmax (Z.le_refl 0) eq_refl Hn Hq)
    as (div & exp & -> & Hexp & -> & Hb).
  destruct (Z.ltb_spec exp 0) as [?|_]; [lia|].
  assert (exp <= 5) as Hle.
  { destruct (Z.le_gt_cases exp 5) as [?|Hgt]; [done|]. exfalso.
    assert (1024 ^ 7 <= 1024 ^ (exp + 1)) by (apply Z.pow_le_mono_r; lia).
    assert (2^63 < 1024 ^ 7) by (by vm_compute). lia. }
  exists (Z.to_nat exp). rewrite Z2Nat.id by lia.
  assert (exp = 0 \/ exp = 1 \/ exp = 2 \/ exp = 3 \/ exp = 4 \/ exp = 5)
    as Hcases by lia.
  destruct Hcases as [-> | [-> | [-> | [-> | [-> | ->]]]]];
    eexists; (split; [reflexivity|]); (split; [reflexivity|]); exact Hb.
Qed.

Lemma formatSize_unit_witness :
  exists (exp : nat) (unit : ascii),
    formatSize 5368709120
    = Some (SizeScaled 5368709120 (1024 ^ (Z.of_nat exp + 1)) unit) /\
    String.get exp "KMGTPE" = Some unit /\
    1024 ^ (Z.of_nat exp + 1) <= 5368709120
    < 1024 * 1024 ^ (Z.of_nat exp + 1).
Proof. apply (formatSize_unit 5368709120). reflexivity. Defined.

End FormatSize.
